(** * sec-cs: the chunk-tree engine [SecCSLite] and its reference counters

    A shallow embedding of [seccs/__init__.py] and [seccs/rc.py].

    - Python 2 byte strings ([str]) are lists of 8-bit characters.
    - A database is a [dict]: a finite map from byte strings to values, a
      value being a byte string (a stored node) or an integer (a counter).
    - Methods that mutate a database or raise are computations in a
      state-and-exception monad over the two dictionaries an engine and its
      reference counter hold (which may be one and the same object). *)

From Stdlib Require Import ZArith Lia Ascii List.
From stdpp Require Import base option list gmap strings.

Abbreviation bytes := (list ascii).

(** ** Values, databases, exceptions *)

Inductive value : Type :=
| VStr (s : bytes)
| VInt (n : Z).

Abbreviation db := (gmap bytes value).

Inductive crypto_error : Type := IntegrityError | AuthenticityError.

Inductive exn : Type :=
| KeyError
| TypeError
| ValueError
| StructError
| AttributeError
| UnsupportedChunkSizeError
| CryptoError (e : crypto_error).

Inductive res (A : Type) : Type :=
| Ok (a : A)
| Raise (e : exn).
Arguments Ok {A} a.
Arguments Raise {A} e.

(** The two dictionaries of the unit tests: [kvs] is the engine's
    [_database], [ref_kvs] a dictionary of the reference counter's own. *)
Record heap : Type := Heap { kvs : db; ref_kvs : db }.

(** Which dictionary object a reference counter was constructed over: the
    engine's own [database] (the default of [SecCSLite.__init__]) or a
    separate one (as in [test.py]). *)
Inductive dbref : Type := EngineDb | OwnDb.

Definition get_db (r : dbref) (σ : heap) : db :=
  match r with EngineDb => kvs σ | OwnDb => ref_kvs σ end.

Definition set_db (r : dbref) (d : db) (σ : heap) : heap :=
  match r with
  | EngineDb => Heap d (ref_kvs σ)
  | OwnDb => Heap (kvs σ) d
  end.

(** ** The monad *)

Definition M (A : Type) : Type := heap → res A * heap.

Definition ret {A} (a : A) : M A := λ σ, (Ok a, σ).
Definition raise {A} (e : exn) : M A := λ σ, (Raise e, σ).
Definition bind {A B} (m : M A) (k : A → M B) : M B :=
  λ σ, match m σ with
       | (Ok a, σ') => k a σ'
       | (Raise e, σ') => (Raise e, σ')
       end.
Definition lift {A} (r : res A) : M A := λ σ, (r, σ).

Notation "'let!' x ':=' m 'in' k" := (bind m (λ x, k))
  (at level 10, x binder, k at level 200).

(** [for x in xs: body x] *)
Fixpoint for_each {A} (xs : list A) (body : A → M unit) : M unit :=
  match xs with
  | [] => ret tt
  | x :: xs' => let! _ := body x in for_each xs' body
  end.

(** ** rc.py *)

Module RC.

(** [DatabaseReferenceCounter.inc], on the dictionary it holds. *)
Definition db_inc (key : bytes) (database : db) : res Z * db :=
  match (match database !! key with Some v => v | None => VInt 0 end) with
  | VInt n => let new_count := (n + 1)%Z in
              (Ok new_count, <[key := VInt new_count]> database)
  | VStr _ => (Raise TypeError, database)
  end.

(** [DatabaseReferenceCounter.dec]. *)
Definition db_dec (key : bytes) (database : db) : res Z * db :=
  match database !! key with
  | None => (Raise KeyError, database)
  | Some (VStr _) => (Raise TypeError, database)
  | Some (VInt n) =>
      let new_count := (n - 1)%Z in
      if (new_count =? 0)%Z then (Ok new_count, delete key database)
      else (Ok new_count, <[key := VInt new_count]> database)
  end.

(** The reference counter classes. *)
Inductive reference_counter : Type :=
| NoReferenceCounter
| DatabaseReferenceCounter (database : dbref)
| KeySuffixDatabaseReferenceCounter (database : dbref) (suffix : bytes).

Definition on_db {A} (r : dbref) (f : db → res A * db) : M A :=
  λ σ, let '(a, d) := f (get_db r σ) in (a, set_db r d σ).

Definition inc (rc : reference_counter) (key : bytes) : M Z :=
  match rc with
  | NoReferenceCounter => ret 1%Z
  | DatabaseReferenceCounter r => on_db r (db_inc key)
  | KeySuffixDatabaseReferenceCounter r suffix => on_db r (db_inc (key ++ suffix))
  end.

Definition dec (rc : reference_counter) (key : bytes) : M Z :=
  match rc with
  | NoReferenceCounter => ret 1%Z
  | DatabaseReferenceCounter r => on_db r (db_dec key)
  | KeySuffixDatabaseReferenceCounter r suffix => on_db r (db_dec (key ++ suffix))
  end.

(** The key under which a counting reference counter keeps the count of
    [key]. *)
Definition counter_key (suffix : bytes) (key : bytes) : bytes := key ++ suffix.

End RC.

(** ** The [struct] formats of [_initialize_reference_representations] *)

Definition res_bind {A B} (r : res A) (k : A → res B) : res B :=
  match r with Ok a => k a | Raise e => Raise e end.

Definition len (s : bytes) : Z := Z.of_nat (length s).

(** [struct.pack('!{n}s', s)]: the string truncated or padded with NUL
    bytes to exactly [n] bytes. *)
Definition pack_s (n : nat) (s : bytes) : bytes :=
  take n s ++ replicate (n - length s) zero.

(** [struct.unpack('!{n}s', data)]: [data] must have exactly [n] bytes. *)
Definition unpack_s (n : nat) (data : bytes) : res bytes :=
  if decide (length data = n) then Ok data else Raise StructError.

(** Big-endian base-256 digits, as the [Q] format writes and reads them. *)
Fixpoint be_encode (n : nat) (z : Z) : bytes :=
  match n with
  | O => []
  | S n' => be_encode n' (z / 256) ++ [ascii_of_N (Z.to_N (z mod 256))]
  end.

Definition be_decode (bs : bytes) : Z :=
  fold_left (λ acc b, (acc * 256 + Z.of_N (N_of_ascii b))%Z) bs 0%Z.

(** [struct.pack('!{R}sQ', k, l)] *)
Definition pack_content_reference (R : nat) (k : bytes) (l : Z) : res bytes :=
  if decide (0 ≤ l < 2 ^ 64)%Z then Ok (pack_s R k ++ be_encode 8 l)
  else Raise StructError.

(** [struct.unpack('!{R}sQ', data)] *)
Definition unpack_content_reference (R : nat) (data : bytes) : res (bytes * Z) :=
  if decide (length data = R + 8) then Ok (take R data, be_decode (drop R data))
  else Raise StructError.

(** [s[start:end]] on a string of length [n]: indices are clamped, negative
    ones count from the end. *)
Definition py_index (n i : Z) : Z :=
  if (i <? 0)%Z then Z.max (i + n) 0 else Z.min i n.

Definition py_slice (m : bytes) (start_position end_position : Z) : bytes :=
  let s := py_index (len m) start_position in
  let e := py_index (len m) end_position in
  take (Z.to_nat (e - s)) (drop (Z.to_nat s) m).

(** ** Collaborators of the engine *)

(** The crypto wrapper interface documented in [SecCSLite.__init__]:
    [value, digest <- wrap_value(value, height, is_root)] and
    [value <- unwrap_value(value, digest, height, is_root, length)], the
    latter returning a string or [None], or raising. *)
Record CryptoWrapper : Type := {
  DIGEST_SIZE : nat;
  wrap_value : bytes → nat → bool → bytes * bytes;
  unwrap_value : bytes → bytes → nat → bool → Z → res (option bytes);
}.

(** The chunking strategy interface of the [fastchunking] package:
    [create_multilevel_chunker(sizes)] yields a chunker whose
    [next_chunk_boundaries_levels(m, prepend)] lists (position, level)
    boundaries. *)
Record ChunkingStrategy : Type := {
  window_size : Z;
  create_multilevel_chunker : list Z → bytes → Z → list (Z * Z);
}.

(** A chunk tree node: [str] in case of a leaf chunk, list of child
    references otherwise. *)
Inductive node : Type :=
| Leaf (s : bytes)
| Super (refs : list bytes).

(** ** class SecCSLite *)

Record SecCSLite : Type := {
  _R : nat;
  _content_length_to_level : Z → nat;
  _level_to_chunksize : nat → Z;
  _crypto_wrapper : CryptoWrapper;
  _reference_counter : RC.reference_counter;
  _chunking_strategy : ChunkingStrategy;
  _W : Z;
}.

(** [_LevelToChunkSizeDict]: the default target chunk size of a level
    (Python 2 integer division); the dictionary only caches it. *)
Definition default_height_to_chunk_size_fn (target_chunksize : Z) (R : nat) (L : nat) : Z :=
  (target_chunksize ^ (Z.of_nat L + 1) / Z.of_nat R ^ Z.of_nat L)%Z.

(** [SecCSLite.__init__].  The default [length_to_height_fn] is computed in
    floating point and the default chunking strategy comes from another
    package, so both are arguments here; heights are natural numbers, as
    the default [length_to_height_fn] and [assert h >= 0] have them. *)
Definition __init__ (chunk_size : Z) (crypto_wrapper : CryptoWrapper)
    (chunking_strategy : ChunkingStrategy)
    (reference_counter : option RC.reference_counter)
    (length_to_height_fn : Z → nat)
    (height_to_chunk_size_fn : option (nat → Z)) : res SecCSLite :=
  let R := DIGEST_SIZE crypto_wrapper in
  if decide ((chunk_size < 2 * Z.of_nat R)%Z ∧ height_to_chunk_size_fn = None)
  then Raise UnsupportedChunkSizeError
  else Ok {|
    _R := R;
    _content_length_to_level := length_to_height_fn;
    _level_to_chunksize :=
      match height_to_chunk_size_fn with
      | Some f => f
      | None => default_height_to_chunk_size_fn chunk_size R
      end;
    _crypto_wrapper := crypto_wrapper;
    _reference_counter :=
      match reference_counter with
      | Some rc => rc
      | None => RC.KeySuffixDatabaseReferenceCounter EngineDb ["r"%char]
      end;
    _chunking_strategy := chunking_strategy;
    _W := window_size chunking_strategy;
  |}.

Section Engine.

Context (self : SecCSLite).

(** *** Nodes in the backend *)

(** The superchunk serialisation of [_store_node]. *)
Definition serialize (v : node) : bytes :=
  match v with
  | Super refs => mjoin (pack_s (_R self) <$> refs)
  | Leaf s => s
  end.

(** The deserialisation of [_get_node]:
    [[unpack(fmt, s[i:i+R]) for i in range(0, len(s), R)]]. *)
Fixpoint split_refs_aux (fuel : nat) (R : nat) (s : bytes) : res (list bytes) :=
  match fuel with
  | O => Ok []
  | S fuel' =>
      match s with
      | [] => Ok []
      | _ => res_bind (unpack_s R (take R s)) (λ k,
             res_bind (split_refs_aux fuel' R (drop R s)) (λ ks, Ok (k :: ks)))
      end
  end.

Definition split_refs (R : nat) (s : bytes) : res (list bytes) :=
  match R with
  | O => Raise ValueError
  | _ => split_refs_aux (length s) R s
  end.

(** [_get_node], as a function of the dictionary it reads. *)
Definition get_node_db (d : db) (k : bytes) (h root_h : nat) (l : Z) : res (option node) :=
  match d !! k with
  | None => Raise KeyError
  | Some (VInt _) => Raise TypeError
  | Some (VStr v) =>
      res_bind (unwrap_value (_crypto_wrapper self) v k h (h =? root_h) l)
        (λ serialized_chunk,
           if 0 <? h then
             match serialized_chunk with
             | None => Ok None
             | Some s => res_bind (split_refs (_R self) s) (λ refs, Ok (Some (Super refs)))
             end
           else Ok (Leaf <$> serialized_chunk))
  end.

Definition _get_node (k : bytes) (h root_h : nat) (l : Z) : M (option node) :=
  λ σ, (get_node_db (kvs σ) k h root_h l, σ).

Definition db_setitem (k : bytes) (v : value) : M unit :=
  λ σ, (Ok tt, Heap (<[k := v]> (kvs σ)) (ref_kvs σ)).

Definition db_delitem (k : bytes) : M unit :=
  λ σ, match kvs σ !! k with
       | Some _ => (Ok tt, Heap (delete k (kvs σ)) (ref_kvs σ))
       | None => (Raise KeyError, σ)
       end.

Definition db_contains (k : bytes) : M bool :=
  λ σ, (Ok (bool_decide (is_Some (kvs σ !! k))), σ).

Definition inc_all (refs : list bytes) : M unit :=
  for_each refs (λ chunk_id,
    let! _ := RC.inc (_reference_counter self) chunk_id in ret tt).

Definition _store_node (v : node) (h root_h : nat) : M (bytes * bool) :=
  let '(serialized_chunk, k) :=
    wrap_value (_crypto_wrapper self) (serialize v) h (h =? root_h) in
  let! present := db_contains k in
  let! hit := (if present : bool
               then let! n := _get_node k h root_h (-1) in ret (bool_decide (n ≠ None))
               else ret false) in
  if hit : bool then ret (k, false)
  else
    let! _ := match v with
              | Super refs => inc_all refs
              | Leaf _ => ret tt
              end in
    let! _ := db_setitem k (VStr serialized_chunk) in
    ret (k, true).

(** *** Realisation of the operations *)

(** The boundary list of [_put_chunk]. *)
Definition boundaries_of (m : bytes) (h : nat) : list (Z * Z) :=
  let top := (Z.of_nat h - 1)%Z in
  let chunker := create_multilevel_chunker (_chunking_strategy self)
                   (_level_to_chunksize self <$> seq 0 h) in
  let boundaries := (0%Z, top) :: chunker m (_W self - 1)%Z in
  let boundaries :=
    if decide ((List.last boundaries (0%Z, top)).1 = len m)
    then removelast boundaries else boundaries in
  boundaries ++ [(len m, top)].

(** One round of the inner loop: close the node at [height] and append its
    key to the superchunk one level up. *)
Definition put_level (root_h : nat) (height : nat) (nodes_levels : list node)
  : M (list node) :=
  match nodes_levels !! (height + 1) with
  | None => raise KeyError
  | Some (Leaf _) => raise AttributeError
  | Some (Super refs) =>
      match nodes_levels !! height with
      | None => raise KeyError
      | Some v =>
          let! r := _store_node v height root_h in
          ret (<[height := Super []]>
                 (<[height + 1 := Super (refs ++ [r.1])]> nodes_levels))
      end
  end.

Fixpoint put_levels (root_h : nat) (heights : list nat) (nodes_levels : list node)
  : M (list node) :=
  match heights with
  | [] => ret nodes_levels
  | height :: hs =>
      let! nodes_levels := put_level root_h height nodes_levels in
      put_levels root_h hs nodes_levels
  end.

Fixpoint put_chunks (m : bytes) (root_h : nat)
    (pairs : list ((Z * Z) * (Z * Z))) (nodes_levels : list node)
  : M (list node) :=
  match pairs with
  | [] => ret nodes_levels
  | ((start_position, _), (end_position, boundary_height)) :: ps =>
      let nodes_levels :=
        <[0 := Leaf (py_slice m start_position end_position)]> nodes_levels in
      let! nodes_levels :=
        put_levels root_h (seq 0 (Z.to_nat (boundary_height + 1))) nodes_levels in
      put_chunks m root_h ps nodes_levels
  end.

Definition _put_chunk (m : bytes) (h root_h : nat) : M (bytes * bool) :=
  match h with
  | O => _store_node (Leaf m) h root_h
  | S _ =>
      let boundaries := boundaries_of m h in
      let nodes_levels := replicate (h + 1) (Super []) in
      let! nodes_levels :=
        put_chunks m root_h (zip boundaries (tail boundaries)) nodes_levels in
      match nodes_levels !! h with
      | Some v => _store_node v h root_h
      | None => raise KeyError
      end
  end.

(** The lazily chained iteration of [_get_chunk]: the groups are visited in
    order, and a group that is [None] raises when it is reached. *)
Fixpoint map_res {A B} (f : A → res B) (xs : list A) : res (list B) :=
  match xs with
  | [] => Ok []
  | x :: xs' => res_bind (f x) (λ b, res_bind (map_res f xs') (λ bs, Ok (b :: bs)))
  end.

Fixpoint over_chain {B} (f : bytes → res B) (groups : list (option (list bytes)))
  : res (list B) :=
  match groups with
  | [] => Ok []
  | None :: _ => Raise TypeError
  | Some ks :: gs =>
      res_bind (map_res f ks) (λ bs,
      res_bind (over_chain f gs) (λ rest, Ok (bs ++ rest)))
  end.

Definition refs_of (n : option node) : option (list bytes) :=
  match n with
  | Some (Super refs) => Some refs
  | Some (Leaf s) => None
  | None => None
  end.

Fixpoint get_levels (d : db) (h root_h : nat) (chunks : list (option (list bytes)))
  : res (list (option (list bytes))) :=
  match h with
  | O => Ok chunks
  | S h' =>
      res_bind (over_chain (λ k, get_node_db d k h root_h (-1)) chunks) (λ ns,
      get_levels d h' root_h (refs_of <$> ns))
  end.

Definition join_leaves (ns : list (option node)) : res bytes :=
  res_bind (map_res (λ n, match n with
                          | Some (Leaf s) => Ok s
                          | _ => Raise TypeError
                          end) ns) (λ ss, Ok (mjoin ss)).

Definition get_chunk_db (d : db) (k : bytes) (h root_h : nat) (l : Z) : res bytes :=
  res_bind (get_levels d h root_h [Some [k]]) (λ chunks,
  res_bind (over_chain (λ k, get_node_db d k 0 root_h (-1)) chunks) join_leaves).

Definition _get_chunk (k : bytes) (h root_h : nat) (l : Z) : M bytes :=
  λ σ, (get_chunk_db (kvs σ) k h root_h l, σ).

Fixpoint _delete_chunk (k : bytes) (h root_h : nat) : M unit :=
  let! _ := match h with
            | O => ret tt
            | S h' =>
                let! v := _get_node k h root_h (-1) in
                match v with
                | Some (Super refs) =>
                    for_each refs (λ k_child,
                      let! c := RC.dec (_reference_counter self) k_child in
                      if (c =? 0)%Z then _delete_chunk k_child h' root_h
                      else ret tt)
                | _ => raise TypeError
                end
            end in
  db_delitem k.

Definition _delete_content (k : bytes) (h root_h : nat) (l : Z) (ignore_rc : bool)
  : M unit :=
  if ignore_rc then _delete_chunk k h root_h
  else
    let! c := RC.dec (_reference_counter self) k in
    if (c =? 0)%Z then _delete_chunk k h root_h else ret tt.

(** *** Public interface *)

Definition put_content_and_check_if_new (m : bytes) (ignore_rc : bool)
  : M (bytes * bool) :=
  let l := len m in
  let h := _content_length_to_level self l in
  let! r := _put_chunk m h h in
  let k := r.1 in
  let is_new := r.2 in
  let! _ := (if ignore_rc then ret tt
             else let! _ := RC.inc (_reference_counter self) k in ret tt) in
  let! handle := lift (pack_content_reference (_R self) k l) in
  ret (handle, is_new).

Definition put_content (m : bytes) (ignore_rc : bool) : M bytes :=
  let! r := put_content_and_check_if_new m ignore_rc in ret r.1.

Definition get_content (k : bytes) : M bytes :=
  let! kl := lift (unpack_content_reference (_R self) k) in
  let h := _content_length_to_level self kl.2 in
  _get_chunk kl.1 h h kl.2.

Definition delete_content (k : bytes) (ignore_rc : bool) : M unit :=
  let! kl := lift (unpack_content_reference (_R self) k) in
  let h := _content_length_to_level self kl.2 in
  _delete_content kl.1 h h kl.2 ignore_rc.

End Engine.

(** ** Small instances of the collaborators

    A crypto wrapper, a chunker and a level schedule small enough to run
    the engine on; the wrappers follow the behaviour the unit tests in
    [test.py] check for [SHA_256] and the distinguished-root variants. *)

Module Toy.

Definition checksum (p : bytes) : N :=
  foldr (λ b acc, ((N_of_ascii b + 3 * acc) mod 256)%N) 7%N p.

(** A four-byte digest of a payload and its height (and, for the
    distinguished-root variant, the root flag). *)
Definition digest (dr : bool) (p : bytes) (h : nat) (is_root : bool) : bytes :=
  [ascii_of_nat (2 * h + (if dr && is_root then 1 else 0));
   ascii_of_nat (length p);
   ascii_of_N (checksum p);
   ascii_of_N (checksum (rev p))].

(** Plaintext pass-through with a digest check on unwrap, raising on a
    mismatch. *)
Definition wrapper (dr : bool) : CryptoWrapper := {|
  DIGEST_SIZE := 4;
  wrap_value := λ value height is_root, (value, digest dr value height is_root);
  unwrap_value := λ value dg height is_root length,
    if decide (digest dr value height is_root = dg) then Ok (Some value)
    else Raise (CryptoError (if dr then AuthenticityError else IntegrityError));
|}.

(** The same digest, but a mismatch is signalled by returning [None]. *)
Definition null_wrapper : CryptoWrapper := {|
  DIGEST_SIZE := 4;
  wrap_value := λ value height is_root, (value, digest false value height is_root);
  unwrap_value := λ value dg height is_root length,
    if decide (digest false value height is_root = dg) then Ok (Some value)
    else Ok None;
|}.

(** Modelled from the spec: the leaf-padding variant of the crypto wrappers
    of [seccs/crypto_wrapper.py], a file that is not among the sources
    (its unit test is).  Leaves shorter than the chunk size are padded with
    zeros on wrap, superchunks are never padded, and unwrap strips the
    padding when the caller supplies the true length.  What the spec leaves
    open is a parameter: whether the (distinguished-root) digest is taken of
    the padded value or of the value before padding, and whether unwrap
    without a length (the default [-1]) returns the stored value as it is
    or its slice [value[:-1]]. *)
Definition padding_wrapper (chunk_size : nat)
    (digest_of_padded slice_without_length : bool) : CryptoWrapper := {|
  DIGEST_SIZE := 4;
  wrap_value := λ value height is_root,
    let padded := if height =? 0
                  then value ++ replicate (chunk_size - length value) zero
                  else value in
    (padded, digest true (if digest_of_padded then padded else value) height is_root);
  unwrap_value := λ value dg height is_root length,
    let plain := if height =? 0 then
                   if (0 <=? length)%Z then take (Z.to_nat length) value
                   else if slice_without_length then py_slice value 0 length
                   else value
                 else value in
    if decide (digest true (if digest_of_padded then value else plain) height is_root = dg)
    then Ok (Some plain)
    else Raise (CryptoError AuthenticityError);
|}.

(** A content-defined chunker: a boundary of level 0 after every [","], of
    level 1 (capped at the highest level asked for) after every [";"]. *)
Fixpoint boundaries_from (top : Z) (pos : Z) (m : bytes) : list (Z * Z) :=
  match m with
  | [] => []
  | b :: m' =>
      let rest := boundaries_from top (pos + 1) m' in
      if decide (b = ","%char) then (pos + 1, 0)%Z :: rest
      else if decide (b = ";"%char) then ((pos + 1)%Z, Z.min 1 top) :: rest
      else rest
  end.

Definition chunking : ChunkingStrategy := {|
  window_size := 1;
  create_multilevel_chunker := λ sizes m prepend,
    match sizes with
    | [] => []
    | _ => boundaries_from (Z.of_nat (length sizes) - 1) 0 m
    end;
|}.

(** Contents of up to 8 bytes are single chunks, up to 16 bytes trees of
    height 1, longer ones of height 2. *)
Definition length_to_height_fn (l : Z) : nat :=
  if (l <=? 8)%Z then 0 else if (l <=? 16)%Z then 1 else 2.

Definition engine_of (cw : CryptoWrapper) (rc : option RC.reference_counter)
  : res SecCSLite :=
  __init__ 8 cw chunking rc length_to_height_fn None.

Definition get_engine (r : res SecCSLite) (dflt : SecCSLite) : SecCSLite :=
  match r with Ok e => e | Raise _ => dflt end.

Definition fallback : SecCSLite := {|
  _R := 4;
  _content_length_to_level := length_to_height_fn;
  _level_to_chunksize := default_height_to_chunk_size_fn 8 4;
  _crypto_wrapper := wrapper false;
  _reference_counter := RC.NoReferenceCounter;
  _chunking_strategy := chunking;
  _W := 1;
|}.

(** The engine of [SecCSLiteTest.setUpInstance]: counters in a dictionary
    of their own. *)
Definition test_engine (cw : CryptoWrapper) : SecCSLite :=
  get_engine (engine_of cw (Some (RC.DatabaseReferenceCounter OwnDb))) fallback.

(** The engine with the default reference counter, which keeps the
    counters in the engine's database under [key ++ "r"]. *)
Definition default_engine (cw : CryptoWrapper) : SecCSLite :=
  get_engine (engine_of cw None) fallback.

Definition empty : heap := Heap ∅ ∅.

Definition s (x : string) : bytes := String.list_ascii_of_string x.

End Toy.


(** ** Reading a reference count off the dictionaries *)

(** The key under which a reference counter keeps the count of [key], and
    the dictionary it keeps it in ([NoReferenceCounter] keeps none). *)
Definition storage_key (rc : RC.reference_counter) (key : bytes) : bytes :=
  match rc with
  | RC.KeySuffixDatabaseReferenceCounter _ suffix => key ++ suffix
  | _ => key
  end.

Definition database_of (rc : RC.reference_counter) : option dbref :=
  match rc with
  | RC.NoReferenceCounter => None
  | RC.DatabaseReferenceCounter r => Some r
  | RC.KeySuffixDatabaseReferenceCounter r _ => Some r
  end.

(** "If its value is 0, [key] is not stored in the database; if its value is
    > 0, its int value is stored in the database". *)
Definition db_count (database : db) (key : bytes) : Z :=
  match database !! key with
  | Some (VInt n) => n
  | _ => 0%Z
  end.

Definition ref_count (self : SecCSLite) (σ : heap) (k : bytes) : Z :=
  match database_of (_reference_counter self) with
  | Some r => db_count (get_db r σ) (storage_key (_reference_counter self) k)
  | None => 0%Z
  end.

(** The digest [_store_node] computes for a node, and the ciphertext it
    writes. *)
Definition key_of (self : SecCSLite) (v : node) (h root_h : nat) : bytes :=
  (wrap_value (_crypto_wrapper self) (serialize self v) h (h =? root_h)).2.

Definition cipher_of (self : SecCSLite) (v : node) (h root_h : nat) : bytes :=
  (wrap_value (_crypto_wrapper self) (serialize self v) h (h =? root_h)).1.

Definition children (v : node) : list bytes :=
  match v with Super refs => refs | Leaf _ => [] end.

(** How many times [k] is listed in [refs]. *)
Fixpoint occ (k : bytes) (refs : list bytes) : nat :=
  match refs with
  | [] => 0
  | r :: rs => (if decide (r = k) then 1 else 0) + occ k rs
  end.

(** A counter entry that [inc] can add to: absent or an integer. *)
Definition counter_sane (d : db) (ck : bytes) : Prop :=
  ∀ s, d !! ck ≠ Some (VStr s).


(** ** The engine's dictionaries seen as nodes and counts

    The nodes written by [_store_node] and the counts kept by the reference
    counter, and the dictionaries that hold them: with the default
    reference counter both live in the engine's database, the counts under
    suffixed keys. *)

Record astate : Type := AState { nodes : gmap bytes bytes; counts : gmap bytes Z }.

Definition count (A : astate) (k : bytes) : Z := default 0%Z (counts A !! k).

Definition set_node (k c : bytes) (A : astate) : astate :=
  AState (<[k := c]> (nodes A)) (counts A).
Definition del_node (k : bytes) (A : astate) : astate :=
  AState (delete k (nodes A)) (counts A).
Definition set_count (k : bytes) (n : Z) (A : astate) : astate :=
  AState (nodes A) (<[k := n]> (counts A)).
Definition del_count (k : bytes) (A : astate) : astate :=
  AState (nodes A) (delete k (counts A)).

(** External references: how many handles (or pending references) there
    are to a key. *)
Definition xadd (X : bytes → nat) (refs : list bytes) : bytes → nat :=
  λ k, X k + occ k refs.

Section Abstraction.

Context (self : SecCSLite).

Local Abbreviation rc := (_reference_counter self).
Local Abbreviation cw := (_crypto_wrapper self).
Local Abbreviation R := (_R self).

Definition node_part (A : astate) : db := VStr <$> nodes A.

Definition count_part (A : astate) : db :=
  kmap (storage_key rc) (VInt <$> counts A).

(** [other] is the counter's dictionary when the engine does not use it. *)
Definition conc (other : db) (A : astate) : heap :=
  match database_of rc with
  | None => Heap (node_part A) other
  | Some OwnDb => Heap (node_part A) (count_part A)
  | Some EngineDb => Heap (node_part A ∪ count_part A) other
  end.

Definition keys_ok (A : astate) : Prop :=
  (∀ k, is_Some (nodes A !! k) → length k = R) ∧
  (∀ k, is_Some (counts A !! k) → length k = R).

(** The reference counter does not write over nodes. *)
Definition rc_ok : Prop :=
  match rc with
  | RC.DatabaseReferenceCounter EngineDb => False
  | RC.KeySuffixDatabaseReferenceCounter EngineDb suffix => suffix ≠ []
  | _ => True
  end.

(** What the engine relies on from its crypto wrapper: digests of
    [DIGEST_SIZE] bytes, and [unwrap_value] undoing [wrap_value] for the
    digest, height and root flag the value was wrapped for (and for the
    other root flag where the wrapper gives it the same digest). *)
Record engine_ok : Prop := {
  R_pos : 0 < R;
  digest_length : ∀ p h r, length (wrap_value cw p h r).2 = R;
  unwrap_wrap : ∀ p h r r',
    (wrap_value cw p h r').2 = (wrap_value cw p h r).2 →
    unwrap_value cw (wrap_value cw p h r').1 (wrap_value cw p h r).2 h r (-1)
    = Ok (Some p);
  counter_apart : rc_ok;
}.

(** *** The catalogue of nodes

    Digests are taken to be free of collisions on the nodes at hand: a
    catalogue maps each digest in use to the one payload and height it is
    the digest of. *)
Section Catalogue.

Context (U : gmap bytes (bytes * nat)).

Definition children_cat (k : bytes) : list bytes :=
  match U !! k with
  | Some (p, S _) => match split_refs R p with Ok refs => refs | Raise _ => [] end
  | _ => []
  end.

(** [ref] is the digest of a catalogued node of height [h], as a tree of
    height [root_h] refers to it. *)
Definition ref_ok (root_h h : nat) (ref : bytes) : Prop :=
  ∃ p, U !! ref = Some (p, h) ∧ (wrap_value cw p h (h =? root_h)).2 = ref.

Definition child_ok (h : nat) (ref : bytes) : Prop :=
  ∃ p, U !! ref = Some (p, h) ∧ (wrap_value cw p h false).2 = ref.

Definition msum (f : bytes → nat) : nat :=
  map_fold (λ key _ acc, f key + acc) 0 U.

Definition live (A : astate) (E : gset bytes) (key : bytes) : bool :=
  bool_decide (is_Some (nodes A !! key) ∧ key ∉ E).

(** The number of child slots of stored superchunks that list [k]. *)
Definition inedges (A : astate) (E : gset bytes) (k : bytes) : nat :=
  msum (λ key, if live A E key then occ k (children_cat key) else 0).

(** The reference counting invariant.  [X] counts the references from
    outside the stored superchunks (the handles given out); [O] are nodes
    just stored whose parent is yet to come, [E] nodes under deletion. *)
Record GInv (A : astate) (X : bytes → nat) (O E : gset bytes) : Prop := {
  inv_cat : ∀ k c, nodes A !! k = Some c →
    ∃ p h r0, U !! k = Some (p, h) ∧ wrap_value cw p h r0 = (c, k);
  inv_children : ∀ k p h, is_Some (nodes A !! k) → U !! k = Some (p, S h) →
    ∃ refs, split_refs R p = Ok refs ∧ Forall (child_ok h) refs;
  inv_count : ∀ k, count A k = Z.of_nat (inedges A E k + X k);
  inv_present : ∀ k, k ∉ E →
    (is_Some (nodes A !! k) ↔ (1 ≤ count A k)%Z ∨ k ∈ O);
  inv_pos : ∀ k n, counts A !! k = Some n → (1 ≤ n)%Z;
  inv_len : ∀ k, is_Some (counts A !! k) → length k = R;
}.

Definition Inv (A : astate) (X : bytes → nat) : Prop := GInv A X ∅ ∅.

(** The content a catalogued key of height [h] stands for. *)
Fixpoint expand (h : nat) (k : bytes) : bytes :=
  match h with
  | O => match U !! k with Some (p, _) => p | None => [] end
  | S h' => mjoin (expand h' <$> children_cat k)
  end.

(** The content the pending superchunks of [_put_chunk] stand for, from
    the highest level down. *)
Definition level_content (nodes_levels : list node) (j : nat) : bytes :=
  match nodes_levels !! j with
  | Some (Super refs) => mjoin (expand (j - 1) <$> refs)
  | _ => []
  end.

Fixpoint cont (nodes_levels : list node) (j : nat) : bytes :=
  match j with
  | O => []
  | S j' => level_content nodes_levels (S j') ++ cont nodes_levels j'
  end.

End Catalogue.

(** *** The calls of [_put_chunk] to [_store_node]

    The digest [_store_node] returns does not depend on the dictionaries,
    so the nodes [_put_chunk] stores, in order, are a function of the
    content alone. *)

Definition plan_level (root_h height : nat) (nodes_levels : list node)
  : res (list node * (node * nat)) :=
  match nodes_levels !! (height + 1) with
  | None => Raise KeyError
  | Some (Leaf _) => Raise AttributeError
  | Some (Super refs) =>
      match nodes_levels !! height with
      | None => Raise KeyError
      | Some v =>
          Ok (<[height := Super []]>
                (<[height + 1 := Super (refs ++ [key_of self v height root_h])]>
                   nodes_levels),
              (v, height))
      end
  end.

Fixpoint plan_levels (root_h : nat) (heights : list nat) (nodes_levels : list node)
  : res (list node * list (node * nat)) :=
  match heights with
  | [] => Ok (nodes_levels, [])
  | height :: hs =>
      res_bind (plan_level root_h height nodes_levels) (λ r1,
      res_bind (plan_levels root_h hs r1.1) (λ r2, Ok (r2.1, r1.2 :: r2.2)))
  end.

Fixpoint plan_chunks (m : bytes) (root_h : nat)
    (pairs : list ((Z * Z) * (Z * Z))) (nodes_levels : list node)
  : res (list node * list (node * nat)) :=
  match pairs with
  | [] => Ok (nodes_levels, [])
  | ((start_position, _), (end_position, boundary_height)) :: ps =>
      let nodes_levels :=
        <[0 := Leaf (py_slice m start_position end_position)]> nodes_levels in
      res_bind (plan_levels root_h (seq 0 (Z.to_nat (boundary_height + 1))) nodes_levels)
        (λ r1, res_bind (plan_chunks m root_h ps r1.1)
        (λ r2, Ok (r2.1, r1.2 ++ r2.2)))
  end.

(** The nodes stored for a content, the root's last. *)
Definition plan (m : bytes) (h root_h : nat) : res (list (node * nat)) :=
  match h with
  | O => Ok [(Leaf m, h)]
  | S _ =>
      let boundaries := boundaries_of self m h in
      res_bind (plan_chunks m root_h (zip boundaries (tail boundaries))
                  (replicate (h + 1) (Super []))) (λ r,
      match r.1 !! h with
      | Some v => Ok (r.2 ++ [(v, h)])
      | None => Raise KeyError
      end)
  end.

Definition run_calls (root_h : nat) (calls : list (node * nat)) : M unit :=
  for_each calls (λ c, let! _ := _store_node self c.1 c.2 root_h in ret tt).

(** A leaf is stored at height 0; a superchunk lists digests of nodes one
    level down that were stored before it. *)
Definition call_shape (root_h : nat) (pre : list (node * nat)) (v : node) (hh : nat)
  : Prop :=
  match v with
  | Leaf _ => hh = 0
  | Super refs =>
      ∃ hh', hh = S hh' ∧
        Forall (λ ref, ∃ v', (v', hh') ∈ pre ∧ key_of self v' hh' root_h = ref) refs
  end.

Fixpoint calls_wf (root_h : nat) (pre post : list (node * nat)) : Prop :=
  match post with
  | [] => True
  | c :: rest =>
      c.2 ≤ root_h ∧ call_shape root_h pre c.1 c.2 ∧
      calls_wf root_h (pre ++ [c]) rest
  end.

(** The catalogue covers the nodes of a content: each node's digest is
    catalogued with that node's payload and height. *)
Definition covered (U : gmap bytes (bytes * nat)) (m : bytes) : Prop :=
  let h := _content_length_to_level self (len m) in
  ∃ calls, plan m h h = Ok calls ∧
    Forall (λ c : node * nat,
              U !! key_of self c.1 c.2 h = Some (serialize self c.1, c.2)) calls.

(** The chunker contract the engine relies on to cut a content into
    consecutive slices: boundary positions ascend within the content, and
    levels are not negative. *)
Fixpoint ascending (prev : Z) (bs : list (Z * Z)) (n : Z) : Prop :=
  match bs with
  | [] => True
  | b :: rest => (prev ≤ b.1 ≤ n)%Z ∧ (0 ≤ b.2)%Z ∧ ascending b.1 rest n
  end.

Definition chunker_ok (m : bytes) : Prop :=
  let h := _content_length_to_level self (len m) in
  ascending 0
    (create_multilevel_chunker (_chunking_strategy self)
       (_level_to_chunksize self <$> seq 0 h) m (_W self - 1)%Z)
    (len m).

(** *** Handles and histories *)

Definition root_of (handle : bytes) : bytes := take R handle.

(** The number of handles in [H] whose root is [k]. *)
Definition handles (H : list bytes) : bytes → nat :=
  λ k, occ k (root_of <$> H).

(** States the dictionaries are in after completed [put_content] and
    [delete_content] calls with the default [ignore_rc=False], starting
    from empty dictionaries, each [delete_content] being given a handle that
    a [put_content] returned and that was not deleted since; [H] lists the
    handles not yet deleted. *)
Inductive history (U : gmap bytes (bytes * nat)) : heap → list bytes → Prop :=
| history_empty : history U (Heap ∅ ∅) []
| history_put σ H m handle σ' :
    history U σ H →
    covered U m →
    (len m < 2 ^ 64)%Z →
    put_content self m false σ = (Ok handle, σ') →
    history U σ' (handle :: H)
| history_delete σ H1 H2 handle σ' :
    history U σ (H1 ++ handle :: H2) →
    delete_content self handle false σ = (Ok tt, σ') →
    history U σ' (H1 ++ H2).

(** The same, without the proviso on the handles deleted. *)
Inductive any_history (U : gmap bytes (bytes * nat)) : heap → Prop :=
| any_history_empty : any_history U (Heap ∅ ∅)
| any_history_put σ m handle σ' :
    any_history U σ →
    covered U m →
    (len m < 2 ^ 64)%Z →
    put_content self m false σ = (Ok handle, σ') →
    any_history U σ'
| any_history_delete σ handle σ' :
    any_history U σ →
    delete_content self handle false σ = (Ok tt, σ') →
    any_history U σ'.

End Abstraction.

(** [inc] on each of [refs], on the counts. *)
Definition bump (refs : list bytes) (A : astate) : astate :=
  foldl (λ A ref, set_count ref (count A ref + 1) A) A refs.

(** The loop invariant of [_put_chunk], on the plan: the pending levels
    above the leaf level are superchunks listing digests of nodes already
    stored one level down, and each node stored so far is pending in the
    level above it or listed by a superchunk stored since. *)
Record PI (self : SecCSLite) (h : nat) (nodes_levels : list node)
    (acc : list (node * nat)) : Prop := {
  pi_len : length nodes_levels = h + 1;
  pi_buf : ∀ j, 1 ≤ j ≤ h →
    ∃ refs, nodes_levels !! j = Some (Super refs) ∧
      Forall (λ ref, ∃ v', (v', j - 1) ∈ acc ∧ key_of self v' (j - 1) h = ref) refs;
  pi_acc : ∀ v hh, (v, hh) ∈ acc →
    hh < h ∧
    ((∃ refs, nodes_levels !! S hh = Some (Super refs) ∧ key_of self v hh h ∈ refs) ∨
     (∃ refs, (Super refs, S hh) ∈ acc ∧ key_of self v hh h ∈ refs));
  pi_wf : calls_wf self h [] acc;
}.

(** The digest of the root node of a content's chunk tree, and the handle
    [put_content] returns for the content. *)
Definition root_key (self : SecCSLite) (m : bytes) : bytes :=
  let h := _content_length_to_level self (len m) in
  match plan self m h h with
  | Ok calls =>
      match last calls with
      | Some c => key_of self c.1 c.2 h
      | None => []
      end
  | Raise _ => []
  end.

Definition handle_of (self : SecCSLite) (m : bytes) : bytes :=
  pack_s (_R self) (root_key self m) ++ be_encode 8 (len m).

Definition key_set (self : SecCSLite) (root_h : nat) (calls : list (node * nat))
  : gset bytes :=
  list_to_set ((λ c, key_of self c.1 c.2 root_h) <$> calls).

(** The dictionaries hold nodes and counts that satisfy the reference
    counting invariant, [X] counting the handles given out. *)
Definition wf_heap (self : SecCSLite) (U : gmap bytes (bytes * nat))
    (σ : heap) (X : bytes → nat) : Prop :=
  ∃ other A, σ = conc self other A ∧ Inv self U A X.

(** A catalogue for the nodes of some contents. *)
Definition catalogue_of (self : SecCSLite) (ms : list bytes)
  : gmap bytes (bytes * nat) :=
  list_to_map
    (mjoin ((λ m, let h := _content_length_to_level self (len m) in
                  match plan self m h h with
                  | Ok calls =>
                      (λ c : node * nat,
                         (key_of self c.1 c.2 h, (serialize self c.1, c.2))) <$> calls
                  | Raise _ => []
                  end) <$> ms)).


(** ** Predicates on the catalogue and on nodes and counts *)

Section Predicates.

Context (self : SecCSLite) (other : db).
Context (U : gmap bytes (bytes * nat)).

(** The catalogue has the node of a [_store_node] call under its digest. *)
Definition covers (root_h : nat) (c : node * nat) : Prop :=
  U !! key_of self c.1 c.2 root_h = Some (serialize self c.1, c.2).

(** A key that a tree of height [root_h] refers to at height [h], with its
    node in the backend. *)
Definition good (A : astate) (root_h h : nat) (k : bytes) : Prop :=
  is_Some (nodes A !! k) ∧ ref_ok self U root_h h k.

(** [k] is not catalogued at a height below [h]. *)
Definition not_below (h : nat) (k : bytes) : Prop :=
  ∀ p hk, U !! k = Some (p, hk) → h ≤ hk.

(** The nodes under deletion are catalogued at height [h] or above. *)
Definition dead_above (h : nat) (E : gset bytes) : Prop :=
  ∀ e, e ∈ E → ∃ p he, U !! e = Some (p, he) ∧ h ≤ he.

(** What a deletion that works on heights below [h] leaves as it is. *)
Definition frame (h : nat) (A A' : astate) : Prop :=
  nodes A' ⊆ nodes A ∧
  ∀ k, not_below h k →
    nodes A' !! k = nodes A !! k ∧ counts A' !! k = counts A !! k.

(** [_delete_chunk] on a node under deletion, whose child slots count as
    references from outside: the children lose these references, the node
    its payload. *)
Definition delete_chunk_spec (root_h h : nat) : Prop :=
  ∀ A X E k,
    h ≤ root_h →
    GInv self U A (xadd X (children_cat self U k)) ∅ E → k ∈ E →
    is_Some (nodes A !! k) →
    ref_ok self U root_h h k → dead_above h E →
    ∃ A',
      _delete_chunk self k h root_h (conc self other A) = (Ok tt, conc self other A') ∧
      GInv self U A' X ∅ E ∧
      nodes A' !! k = None ∧
      nodes A' ⊆ nodes A ∧
      ∀ k', not_below h k' →
        (k' ≠ k → nodes A' !! k' = nodes A !! k') ∧
        counts A' !! k' = counts A !! k'.

(** One reference less to [ref], and its deletion if that was the last. *)
Definition delete_ref_spec (root_h h : nat) : Prop :=
  ∀ A X E ref l,
    h ≤ root_h →
    GInv self U A (xadd X [ref]) ∅ E →
    ref_ok self U root_h h ref → dead_above (S h) E →
    ∃ A',
      _delete_content self ref h root_h l false (conc self other A)
      = (Ok tt, conc self other A') ∧
      GInv self U A' X ∅ E ∧ frame (S h) A A'.

(** The loop of [_delete_chunk] over the children of a node. *)
Definition delete_refs_spec (root_h h : nat) : Prop :=
  ∀ refs A X E,
    h < root_h →
    GInv self U A (xadd X refs) ∅ E →
    Forall (child_ok self U h) refs → dead_above (S h) E →
    ∃ A',
      for_each refs (λ k_child, _delete_content self k_child h root_h (-1) false)
        (conc self other A) = (Ok tt, conc self other A') ∧
      GInv self U A' X ∅ E ∧ frame (S h) A A'.

(** A handle of a catalogued root. *)
Definition valid_handle (handle : bytes) : Prop :=
  ∃ root l, unpack_content_reference (_R self) handle = Ok (root, l) ∧
    ref_ok self U (_content_length_to_level self l) (_content_length_to_level self l) root.

End Predicates.


(** ** Further predicates: node shapes, stored contents, child slots *)

Section MorePredicates.

Context (self : SecCSLite).
Context (U : gmap bytes (bytes * nat)).





End MorePredicates.


(** * Properties *)

(** ** The reference counters *)

Lemma db_inc_absent (database : db) key :
  database !! key = None →
  RC.db_inc key database = (Ok 1%Z, <[key := VInt 1]> database).
Proof. intros H. unfold RC.db_inc. by rewrite H. Qed.

Lemma db_inc_present (database : db) key v :
  database !! key = Some (VInt v) →
  RC.db_inc key database = (Ok (v + 1)%Z, <[key := VInt (v + 1)]> database).
Proof. intros H. unfold RC.db_inc. by rewrite H. Qed.

Lemma db_dec_one (database : db) key :
  database !! key = Some (VInt 1) →
  RC.db_dec key database = (Ok 0%Z, delete key database).
Proof. intros H. unfold RC.db_dec. by rewrite H. Qed.

Lemma db_dec_many (database : db) key v :
  (1 < v)%Z → database !! key = Some (VInt v) →
  RC.db_dec key database = (Ok (v - 1)%Z, <[key := VInt (v - 1)]> database).
Proof.
  intros Hv H. unfold RC.db_dec. rewrite H. cbn zeta.
  destruct (Z.eqb_spec (v - 1) 0); [lia | done].
Qed.

Lemma inc_database_of rc r key σ :
  database_of rc = Some r →
  RC.inc rc key σ = RC.on_db r (RC.db_inc (storage_key rc key)) σ.
Proof. destruct rc; simpl; intros [= ->]; done. Qed.

Lemma dec_database_of rc r key σ :
  database_of rc = Some r →
  RC.dec rc key σ = RC.on_db r (RC.db_dec (storage_key rc key)) σ.
Proof. destruct rc; simpl; intros [= ->]; done. Qed.

(** C5.  For the database-backed reference counters, plain and key-suffix
    alike: [inc] on an absent counter creates it with value 1 and returns 1,
    and otherwise stores and returns the incremented value; [dec] on a
    counter holding 1 deletes the entry and returns 0, and on a counter
    holding [v > 1] stores and returns [v - 1]. *)
Theorem database_reference_counter_inc_dec
    (rc : RC.reference_counter) (r : dbref) (key : bytes) (σ : heap) :
  database_of rc = Some r →
  let ck := storage_key rc key in
  let d := get_db r σ in
  (d !! ck = None →
     RC.inc rc key σ = (Ok 1%Z, set_db r (<[ck := VInt 1]> d) σ)) ∧
  (∀ v, d !! ck = Some (VInt v) →
     RC.inc rc key σ = (Ok (v + 1)%Z, set_db r (<[ck := VInt (v + 1)]> d) σ)) ∧
  (d !! ck = Some (VInt 1) →
     RC.dec rc key σ = (Ok 0%Z, set_db r (delete ck d) σ)) ∧
  (∀ v, (1 < v)%Z → d !! ck = Some (VInt v) →
     RC.dec rc key σ = (Ok (v - 1)%Z, set_db r (<[ck := VInt (v - 1)]> d) σ)).
Proof.
  intros Hr ck d. repeat split.
  - intros H. rewrite (inc_database_of _ _ _ _ Hr). unfold RC.on_db.
    fold ck d. by rewrite (db_inc_absent _ _ H).
  - intros v H. rewrite (inc_database_of _ _ _ _ Hr). unfold RC.on_db.
    fold ck d. by rewrite (db_inc_present _ _ _ H).
  - intros H. rewrite (dec_database_of _ _ _ _ Hr). unfold RC.on_db.
    fold ck d. by rewrite (db_dec_one _ _ H).
  - intros v Hv H. rewrite (dec_database_of _ _ _ _ Hr). unfold RC.on_db.
    fold ck d. by rewrite (db_dec_many _ _ _ Hv H).
Qed.

Lemma database_reference_counter_inc_dec_witness :
  let ks := RC.KeySuffixDatabaseReferenceCounter OwnDb (Toy.s "r") in
  let plain := RC.DatabaseReferenceCounter OwnDb in
  let d1 : db := <[Toy.s "k" := VInt 1]> ∅ in
  let d3 : db := <[Toy.s "kr" := VInt 3]> ∅ in
  RC.inc ks (Toy.s "k") (Heap ∅ ∅)
    = (Ok 1%Z, set_db OwnDb (<[Toy.s "kr" := VInt 1]> ∅) (Heap ∅ ∅)) ∧
  RC.inc plain (Toy.s "k") (Heap ∅ d1)
    = (Ok (1 + 1)%Z, set_db OwnDb (<[Toy.s "k" := VInt (1 + 1)]> d1) (Heap ∅ d1)) ∧
  RC.dec plain (Toy.s "k") (Heap ∅ d1)
    = (Ok 0%Z, set_db OwnDb (delete (Toy.s "k") d1) (Heap ∅ d1)) ∧
  RC.dec ks (Toy.s "k") (Heap ∅ d3)
    = (Ok (3 - 1)%Z, set_db OwnDb (<[Toy.s "kr" := VInt (3 - 1)]> d3) (Heap ∅ d3)).
Proof.
  intros ks plain d1 d3. split; [|split; [|split]].
  - apply (database_reference_counter_inc_dec ks OwnDb (Toy.s "k") (Heap ∅ ∅)
             eq_refl). reflexivity.
  - apply (database_reference_counter_inc_dec plain OwnDb (Toy.s "k") (Heap ∅ d1)
             eq_refl). reflexivity.
  - apply (database_reference_counter_inc_dec plain OwnDb (Toy.s "k") (Heap ∅ d1)
             eq_refl). reflexivity.
  - apply (database_reference_counter_inc_dec ks OwnDb (Toy.s "k") (Heap ∅ d3)
             eq_refl); [lia | reflexivity].
Defined.


(** ** Storing a node *)

Ltac munfold := unfold bind, ret, raise, lift, db_contains, db_setitem, _get_node.

Section StoreNode.

Context (self : SecCSLite).

Local Abbreviation rc := (_reference_counter self).

Lemma store_node_unfold v h root_h σ :
  _store_node self v h root_h σ =
  (let k := key_of self v h root_h in
   let! present := db_contains k in
   let! hit := (if present : bool
                then let! n := _get_node self k h root_h (-1) in
                     ret (bool_decide (n ≠ None))
                else ret false) in
   if hit : bool then ret (k, false)
   else
     let! _ := inc_all self (children v) in
     let! _ := db_setitem k (VStr (cipher_of self v h root_h)) in
     ret (k, true)) σ.
Proof.
  unfold _store_node, key_of, cipher_of.
  destruct (wrap_value _ _ _ _) as [c k]. simpl.
  destruct v; reflexivity.
Qed.

Lemma store_node_hit v h root_h σ n :
  is_Some (kvs σ !! key_of self v h root_h) →
  get_node_db self (kvs σ) (key_of self v h root_h) h root_h (-1) = Ok (Some n) →
  _store_node self v h root_h σ = (Ok (key_of self v h root_h, false), σ).
Proof.
  intros Hin Hget. rewrite store_node_unfold. cbn zeta. munfold.
  rewrite bool_decide_eq_true_2 by done. rewrite Hget.
  rewrite bool_decide_eq_true_2 by done. done.
Qed.

Lemma store_node_miss v h root_h σ :
  kvs σ !! key_of self v h root_h = None ∨
  get_node_db self (kvs σ) (key_of self v h root_h) h root_h (-1) = Ok None →
  _store_node self v h root_h σ =
  (let! _ := inc_all self (children v) in
   let! _ := db_setitem (key_of self v h root_h) (VStr (cipher_of self v h root_h)) in
   ret (key_of self v h root_h, true)) σ.
Proof.
  intros Hmiss. rewrite store_node_unfold. cbn zeta. munfold.
  destruct (decide (is_Some (kvs σ !! key_of self v h root_h))) as [Hin|Hout].
  - rewrite bool_decide_eq_true_2 by done.
    destruct Hmiss as [Hnone|Hget].
    + rewrite Hnone in Hin. by destruct Hin.
    + rewrite Hget. rewrite bool_decide_eq_false_2 by (intros ?; done). done.
  - rewrite bool_decide_eq_false_2 by done. done.
Qed.

Lemma store_node_raise v h root_h σ e :
  is_Some (kvs σ !! key_of self v h root_h) →
  get_node_db self (kvs σ) (key_of self v h root_h) h root_h (-1) = Raise e →
  _store_node self v h root_h σ = (Raise e, σ).
Proof.
  intros Hin Hget. rewrite store_node_unfold. cbn zeta. munfold.
  rewrite bool_decide_eq_true_2 by done. by rewrite Hget.
Qed.

(** What a string of [inc] calls does to the counters. *)

Lemma storage_key_inj k1 k2 :
  storage_key rc k1 = storage_key rc k2 → k1 = k2.
Proof.
  unfold storage_key. destruct rc; try done. by intros ?%(inj (.++ _)).
Qed.

Lemma db_inc_sane (d : db) ck :
  counter_sane d ck →
  RC.db_inc ck d = (Ok (db_count d ck + 1)%Z, <[ck := VInt (db_count d ck + 1)]> d).
Proof.
  intros Hs. unfold RC.db_inc, db_count.
  destruct (d !! ck) as [[s|n]|] eqn:E; try done. by destruct (Hs s).
Qed.

Lemma db_count_insert (d : db) ck ck' n :
  db_count (<[ck := VInt n]> d) ck' = if decide (ck = ck') then n else db_count d ck'.
Proof.
  unfold db_count. rewrite lookup_insert. by case_decide.
Qed.

Lemma inc_all_counts r refs σ :
  database_of rc = Some r →
  Forall (λ key, counter_sane (get_db r σ) (storage_key rc key)) refs →
  ∃ d', inc_all self refs σ = (Ok tt, set_db r d' σ) ∧
        (∀ ck, counter_sane (get_db r σ) ck → counter_sane d' ck) ∧
        (∀ ck, (∀ key, key ∈ refs → storage_key rc key ≠ ck) →
               d' !! ck = get_db r σ !! ck) ∧
        ∀ key, db_count d' (storage_key rc key)
               = (db_count (get_db r σ) (storage_key rc key)
                  + Z.of_nat (occ key refs))%Z.
Proof.
  intros Hr. revert σ. induction refs as [|k refs IH]; intros σ Hsane.
  - exists (get_db r σ). split; [|split; [done|split; [done|]]].
    + destruct r, σ; done.
    + intros key. simpl. lia.
  - inversion Hsane as [|?? Hk Hrest]; subst.
    unfold inc_all. simpl. unfold bind at 1. unfold bind at 1.
    rewrite (inc_database_of _ _ _ _ Hr). unfold RC.on_db.
    rewrite (db_inc_sane _ _ Hk). unfold ret at 1.
    set (d1 := <[storage_key rc k := _]> (get_db r σ)).
    assert (Hget1 : get_db r (set_db r d1 σ) = d1) by (by destruct r).
    destruct (IH (set_db r d1 σ)) as (d' & Hrun & Hs' & Hframe & Hcnt).
    { rewrite Hget1. eapply Forall_impl; [exact Hrest|]. intros key Hkey s.
      unfold d1. rewrite lookup_insert. case_decide; [done|apply Hkey]. }
    exists d'. split; [|split; [|split]].
    + unfold inc_all in Hrun. rewrite Hrun. f_equal. by destruct r, σ.
    + intros ck Hck. apply Hs'. rewrite Hget1. intros s. unfold d1.
      rewrite lookup_insert. case_decide; [done|apply Hck].
    + intros ck Hne. rewrite Hframe.
      * rewrite Hget1. unfold d1. rewrite lookup_insert_ne; [done|].
        apply Hne. by left.
      * intros key Hin. apply Hne. by right.
    + intros key. rewrite Hcnt, Hget1. unfold d1. rewrite db_count_insert.
      simpl. destruct (decide (k = key)) as [->|Hne].
      * rewrite decide_True by done. lia.
      * rewrite decide_False; [lia|]. intros Heq. by apply Hne, storage_key_inj.
Qed.

(** C3, as the code has it.  [_store_node(v, h, root_h)] with computed
    digest [k]: if [k] is in the backend and [_get_node] on it returns a
    node, the result is [(k, False)] and nothing changes; if [k] is absent,
    or [_get_node] on it returns [None], every listed child is passed to
    [inc] once, in order, the ciphertext is written under [k] and the result
    is [(k, True)], so that a database-backed counter of a child grows by
    the number of times the child is listed; if [k] is in the backend and
    [_get_node] on it raises, [_store_node] raises the same error and
    changes neither the backend nor a counter.  A call that returns returns
    [k], with [False] in the first case and with [True] in the second. *)
Theorem store_node_spec (v : node) (h root_h : nat) (σ : heap) :
  let k := key_of self v h root_h in
  let c := cipher_of self v h root_h in
  (∀ n, is_Some (kvs σ !! k) →
        get_node_db self (kvs σ) k h root_h (-1) = Ok (Some n) →
        _store_node self v h root_h σ = (Ok (k, false), σ)) ∧
  ((kvs σ !! k = None ∨ get_node_db self (kvs σ) k h root_h (-1) = Ok None) →
     _store_node self v h root_h σ =
       (let! _ := inc_all self (children v) in
        let! _ := db_setitem k (VStr c) in
        ret (k, true)) σ ∧
     ∀ r, database_of rc = Some r →
          Forall (λ key, counter_sane (get_db r σ) (storage_key rc key)) (children v) →
          ∃ σ', _store_node self v h root_h σ = (Ok (k, true), σ') ∧
                kvs σ' !! k = Some (VStr c) ∧
                ∀ key, (r = OwnDb ∨ storage_key rc key ≠ k) →
                       ref_count self σ' key
                       = (ref_count self σ key
                          + Z.of_nat (occ key (children v)))%Z) ∧
  (∀ e, is_Some (kvs σ !! k) →
        get_node_db self (kvs σ) k h root_h (-1) = Raise e →
        _store_node self v h root_h σ = (Raise e, σ)) ∧
  (∀ r σ', _store_node self v h root_h σ = (Ok r, σ') →
     r.1 = k ∧
     (r.2 = false →
        σ' = σ ∧ is_Some (kvs σ !! k) ∧
        ∃ n, get_node_db self (kvs σ) k h root_h (-1) = Ok (Some n)) ∧
     (r.2 = true →
        (kvs σ !! k = None ∨ get_node_db self (kvs σ) k h root_h (-1) = Ok None) ∧
        kvs σ' !! k = Some (VStr c))).
Proof.
  intros k c. split; [|split; [|split]].
  4:{ intros r σ' Hrun.
      assert (Hmiss : (kvs σ !! k = None ∨
                       get_node_db self (kvs σ) k h root_h (-1) = Ok None) →
                r = (k, true) ∧ kvs σ' !! k = Some (VStr c)).
      { intros Hm. rewrite (store_node_miss v h root_h σ Hm) in Hrun.
        unfold bind at 1 in Hrun.
        destruct (inc_all self (children v) σ) as [[[]|e] σ1]; [|done].
        munfold. injection Hrun as <- <-. split; [done|].
        simpl. by rewrite lookup_insert_eq. }
      destruct (kvs σ !! k) as [val|] eqn:Hk.
      - destruct (get_node_db self (kvs σ) k h root_h (-1)) as [[n|]|e] eqn:Hget.
        + rewrite (store_node_hit v h root_h σ n) in Hrun;
            [|fold k; rewrite Hk; by eexists|done].
          injection Hrun as <- <-. split; [done|]. split; [|done].
          intros _. split; [done|]. split; [by eexists|by eexists].
        + destruct Hmiss as [-> Hw]; [by right|].
          split; [done|]. split; [done|]. intros _. split; [by right|done].
        + rewrite (store_node_raise v h root_h σ e) in Hrun;
            [done|fold k; rewrite Hk; by eexists|done].
      - destruct Hmiss as [-> Hw]; [by left|].
        split; [done|]. split; [done|]. intros _. split; [by left|done]. }
  - intros n Hin Hget. by eapply store_node_hit.
  - intros Hmiss. split; [by apply store_node_miss|].
    intros r Hr Hsane. rewrite store_node_miss by done.
    destruct (inc_all_counts r (children v) σ Hr Hsane) as (d' & Hrun & _ & _ & Hcnt).
    unfold bind at 1. rewrite Hrun. munfold. eexists. split; [reflexivity|].
    split.
    + simpl. by rewrite lookup_insert_eq.
    + intros key Hkey. unfold ref_count. rewrite Hr. rewrite <- Hcnt.
      destruct r; simpl.
      * destruct Hkey as [|Hne]; [done|].
        unfold db_count. by rewrite lookup_insert_ne.
      * done.
  - intros e Hin Hget. by apply store_node_raise.
Qed.

End StoreNode.

Lemma store_node_spec_witness :
  let e := Toy.test_engine (Toy.wrapper false) in
  let ab := Toy.s "ab" in
  let kab := key_of e (Leaf ab) 0 1 in
  let v := Super [kab; kab] in
  let σ := Heap (<[kab := VStr ab]> ∅) (<[kab := VInt 1]> ∅) in
  let τ := Heap (<[key_of e v 1 1 := VStr (Toy.s "xy")]> (kvs σ)) (ref_kvs σ) in
  _store_node e (Leaf ab) 0 1 σ = (Ok (kab, false), σ) ∧
  (∃ σ', _store_node e v 1 1 σ = (Ok (key_of e v 1 1, true), σ') ∧
         kvs σ' !! key_of e v 1 1 = Some (VStr (cipher_of e v 1 1)) ∧
         ref_count e σ' kab = (ref_count e σ kab + Z.of_nat 2)%Z) ∧
  _store_node e v 1 1 τ = (Raise (CryptoError IntegrityError), τ).
Proof.
  intros e ab kab v σ τ. split; [|split].
  - apply (proj1 (store_node_spec e (Leaf ab) 0 1 σ) (Leaf ab)).
    + by eexists.
    + reflexivity.
  - destruct (proj1 (proj2 (store_node_spec e v 1 1 σ))) as [_ Hmiss].
    + left. vm_compute. reflexivity.
    + destruct (Hmiss OwnDb eq_refl) as (σ' & Hrun & Hk & Hcnt).
      * repeat constructor; intros s; vm_compute; discriminate.
      * exists σ'. split; [exact Hrun|]. split; [exact Hk|].
        apply (Hcnt kab). by left.
  - apply (proj1 (proj2 (proj2 (store_node_spec e v 1 1 τ)))).
    + by eexists.
    + reflexivity.
Defined.

(** The claim as the specification words it fails.  The backend holds a
    tampered entry under the digest [k] of the superchunk [v], which lists
    the stored leaf ["ab"] twice.  [k] is present and the verifying
    [_get_node] does not return a node, it raises; this is the claim's
    second case, and yet [_store_node] does not return [(k, True)]: it
    raises, no counter of a child is incremented and the ciphertext is not
    written. *)
Lemma store_node_unreadable_entry_raises :
  let e := Toy.test_engine (Toy.wrapper false) in
  let ab := Toy.s "ab" in
  let kab := key_of e (Leaf ab) 0 1 in
  let v := Super [kab; kab] in
  let k := key_of e v 1 1 in
  let σ := Heap (<[k := VStr (Toy.s "xy")]> (<[kab := VStr ab]> ∅))
                (<[kab := VInt 1]> ∅) in
  is_Some (kvs σ !! k) ∧
  _get_node e k 1 1 (-1) σ = (Raise (CryptoError IntegrityError), σ) ∧
  _store_node e v 1 1 σ = (Raise (CryptoError IntegrityError), σ) ∧
  ¬ (∃ σ', _store_node e v 1 1 σ = (Ok (k, true), σ')) ∧
  ref_count e (_store_node e v 1 1 σ).2 kab = ref_count e σ kab ∧
  kvs (_store_node e v 1 1 σ).2 !! k ≠ Some (VStr (cipher_of e v 1 1)).
Proof.
  intros e ab kab v k σ.
  split; [by eexists|]. split; [reflexivity|]. split; [reflexivity|].
  split; [|split].
  - intros (σ' & H). vm_compute in H. discriminate H.
  - reflexivity.
  - vm_compute. discriminate.
Qed.


(** ** The dedup probe and wrapper errors *)

(** C6, as the code has it: a key that is present but whose [_get_node]
    returns [None] is no match, and the entry is overwritten; an error
    raised by [_get_node] (a wrapper error among them) leaves [_store_node]
    through the raise, before any counter or entry is touched. *)
Theorem store_node_probe_none_or_raise
    (self : SecCSLite) (v : node) (h root_h : nat) (σ : heap) :
  let k := key_of self v h root_h in
  let c := cipher_of self v h root_h in
  is_Some (kvs σ !! k) →
  (get_node_db self (kvs σ) k h root_h (-1) = Ok None →
     _store_node self v h root_h σ =
       (let! _ := inc_all self (children v) in
        let! _ := db_setitem k (VStr c) in
        ret (k, true)) σ ∧
     (children v = [] →
      _store_node self v h root_h σ
      = (Ok (k, true), Heap (<[k := VStr c]> (kvs σ)) (ref_kvs σ)))) ∧
  (∀ e, get_node_db self (kvs σ) k h root_h (-1) = Raise e →
        _store_node self v h root_h σ = (Raise e, σ)).
Proof.
  intros k c Hin. split.
  - intros Hnone. split.
    + apply store_node_miss. by right.
    + intros Hch. rewrite store_node_miss by (by right). rewrite Hch. reflexivity.
  - intros e He. by apply store_node_raise.
Qed.

Lemma store_node_probe_none_or_raise_witness :
  let ab := Toy.s "ab" in
  let k := key_of (Toy.test_engine Toy.null_wrapper) (Leaf ab) 0 0 in
  let σ := Heap (<[k := VStr (Toy.s "xy")]> ∅) ∅ in
  _store_node (Toy.test_engine Toy.null_wrapper) (Leaf ab) 0 0 σ
    = (Ok (k, true), Heap (<[k := VStr ab]> (kvs σ)) (ref_kvs σ)) ∧
  _store_node (Toy.test_engine (Toy.wrapper true)) (Leaf ab) 0 1 σ
    = (Raise (CryptoError AuthenticityError), σ).
Proof.
  intros ab k σ. split.
  - apply (store_node_probe_none_or_raise
             (Toy.test_engine Toy.null_wrapper) (Leaf ab) 0 0 σ);
      [by eexists | reflexivity | reflexivity].
  - apply (store_node_probe_none_or_raise
             (Toy.test_engine (Toy.wrapper true)) (Leaf ab) 0 1
             (Heap (<[k := VStr (Toy.s "xy")]> ∅) ∅));
      [by eexists | reflexivity].
Defined.

(** The claim as the specification words it fails: with the backend entry
    under the digest of ["ab"] tampered with, the wrapper raises on the
    verifying [_get_node], and [_store_node] raises too instead of
    overwriting the entry. *)
Lemma store_node_wrapper_error_propagates :
  let e := Toy.test_engine (Toy.wrapper false) in
  let ab := Toy.s "ab" in
  let k := key_of e (Leaf ab) 0 0 in
  let σ := Heap (<[k := VStr (Toy.s "xy")]> ∅) ∅ in
  _store_node e (Leaf ab) 0 0 σ = (Raise (CryptoError IntegrityError), σ) ∧
  ¬ (∃ r σ', _store_node e (Leaf ab) 0 0 σ = (Ok r, σ')).
Proof.
  intros e ab k σ. split; [reflexivity|].
  intros (r & σ' & H). vm_compute in H. discriminate H.
Qed.


(** ** Content references *)

Lemma length_pack_s n s : length (pack_s n s) = n.
Proof. unfold pack_s. rewrite length_app, length_take, length_replicate. lia. Qed.

Lemma pack_s_id n s : length s = n → pack_s n s = s.
Proof.
  intros <-. unfold pack_s. rewrite take_ge by lia.
  rewrite Nat.sub_diag. apply app_nil_r.
Qed.

Lemma length_be_encode n z : length (be_encode n z) = n.
Proof.
  revert z. induction n as [|n IH]; intros z; [done|].
  simpl. rewrite length_app, IH. simpl. lia.
Qed.

Lemma be_decode_snoc bs b :
  be_decode (bs ++ [b]) = (be_decode bs * 256 + Z.of_N (N_of_ascii b))%Z.
Proof. unfold be_decode. by rewrite fold_left_app. Qed.

Lemma be_decode_encode n z :
  (0 ≤ z)%Z → be_decode (be_encode n z) = (z mod 256 ^ Z.of_nat n)%Z.
Proof.
  revert z. induction n as [|n IH]; intros z Hz.
  - simpl. by rewrite Z.mod_1_r.
  - cbn [be_encode]. rewrite be_decode_snoc.
    rewrite IH by (apply Z.div_pos; lia).
    rewrite N_ascii_embedding.
    2:{ assert (0 ≤ z mod 256 < 256)%Z by (apply Z.mod_pos_bound; lia). lia. }
    rewrite Z2N.id by (apply Z.mod_pos_bound; lia).
    rewrite Nat2Z.inj_succ, Z.pow_succ_r by lia.
    rewrite (Z.rem_mul_r z 256 (256 ^ Z.of_nat n)) by lia. lia.
Qed.

Lemma unpack_content_reference_app R k enc :
  length enc = 8 →
  unpack_content_reference R (pack_s R k ++ enc) = Ok (pack_s R k, be_decode enc).
Proof.
  intros Henc. unfold unpack_content_reference.
  rewrite decide_True by (rewrite length_app, length_pack_s; lia).
  rewrite take_app_length' by (by rewrite length_pack_s).
  by rewrite drop_app_length' by (by rewrite length_pack_s).
Qed.

Lemma unpack_pack_content_reference R k l handle :
  pack_content_reference R k l = Ok handle →
  unpack_content_reference R handle = Ok (pack_s R k, l).
Proof.
  unfold pack_content_reference.
  case_decide as Hl; [|done]. intros Heq.
  assert (handle = pack_s R k ++ be_encode 8 l) as -> by congruence.
  rewrite unpack_content_reference_app by apply length_be_encode.
  rewrite be_decode_encode by lia.
  rewrite Z.mod_small; [done|]. change (256 ^ Z.of_nat 8)%Z with (2 ^ 64)%Z. lia.
Qed.

Lemma get_content_packed self k l handle σ :
  pack_content_reference (_R self) k l = Ok handle →
  get_content self handle σ =
  (get_chunk_db self (kvs σ) (pack_s (_R self) k)
     (_content_length_to_level self l) (_content_length_to_level self l) l, σ).
Proof.
  intros Hp. unfold get_content, bind, lift.
  by rewrite (unpack_pack_content_reference _ _ _ _ Hp).
Qed.

(** C8.  [get_content] uses the length in a handle only through the tree
    height: two handles with the same digest and lengths of equal height
    retrieve the same bytes, whatever the lengths; the length handed to
    [_get_chunk] is never looked at, and a single-leaf content is whatever
    [_get_node] yields for length [-1]. *)
Theorem get_content_length_only_through_height
    (self : SecCSLite) (σ : heap) (k : bytes) (l1 l2 : Z) (h1 h2 : bytes) :
  pack_content_reference (_R self) k l1 = Ok h1 →
  pack_content_reference (_R self) k l2 = Ok h2 →
  _content_length_to_level self l1 = _content_length_to_level self l2 →
  get_content self h1 σ = get_content self h2 σ ∧
  (∀ key h root_h l l', _get_chunk self key h root_h l σ = _get_chunk self key h root_h l' σ) ∧
  (_content_length_to_level self l1 = 0 →
   get_content self h1 σ =
   (res_bind (get_node_db self (kvs σ) (pack_s (_R self) k) 0 0 (-1))
      (λ n, join_leaves [n]), σ)).
Proof.
  intros Hp1 Hp2 Hh.
  rewrite (get_content_packed _ _ _ _ _ Hp1), (get_content_packed _ _ _ _ _ Hp2).
  split; [|split].
  - rewrite Hh. reflexivity.
  - reflexivity.
  - intros H0. rewrite H0. unfold get_chunk_db. simpl.
    destruct (get_node_db _ _ _ _ _ _); reflexivity.
Qed.

Lemma get_content_length_only_through_height_witness :
  let e := Toy.test_engine (Toy.wrapper false) in
  let ab := Toy.s "ab" in
  let k := key_of e (Leaf ab) 0 0 in
  let σ := Heap (<[k := VStr ab]> ∅) ∅ in
  get_content e (pack_s 4 k ++ be_encode 8 2) σ
  = get_content e (pack_s 4 k ++ be_encode 8 5) σ.
Proof.
  intros e ab k σ.
  apply (get_content_length_only_through_height e σ k 2 5); reflexivity.
Defined.


(** ** A first insertion that is reported as not new *)

(** C9.  Under a wrapper whose digest and verification ignore [is_root], a
    content of height 0 whose bytes are those of a leaf chunk that an
    earlier, larger content left in the backend hits the dedup path of
    [_store_node]: its first insertion returns [is_new = False] and writes
    no backend entry. *)
Theorem first_insertion_of_stored_leaf_not_new
    (self : SecCSLite) (σ : heap) (m c p : bytes) :
  let cw := _crypto_wrapper self in
  let k := key_of self (Leaf m) 0 1 in
  _content_length_to_level self (len m) = 0 →
  (wrap_value cw m 0 true).2 = (wrap_value cw m 0 false).2 →
  kvs σ !! k = Some (VStr c) →
  unwrap_value cw c k 0 true (-1) = Ok (Some p) →
  (len m < 2 ^ 64)%Z →
  database_of (_reference_counter self) = Some OwnDb →
  counter_sane (ref_kvs σ) (storage_key (_reference_counter self) k) →
  ∃ handle σ',
    put_content_and_check_if_new self m false σ = (Ok (handle, false), σ') ∧
    kvs σ' = kvs σ.
Proof.
  intros cw k Hh Hdig Hk Hun Hlen Hrc Hsane.
  assert (Hkey : key_of self (Leaf m) 0 0 = k).
  { unfold k, key_of. simpl. exact Hdig. }
  unfold put_content_and_check_if_new. rewrite Hh. cbn zeta.
  unfold bind at 1. unfold _put_chunk.
  rewrite (store_node_hit self (Leaf m) 0 0 σ (Leaf p)).
  2:{ rewrite Hkey, Hk. by eexists. }
  2:{ rewrite Hkey. unfold get_node_db. rewrite Hk. simpl. fold cw.
      by rewrite Hun. }
  cbn [fst snd]. rewrite Hkey.
  unfold bind at 1. unfold bind at 1.
  rewrite (inc_database_of _ _ _ _ Hrc). unfold RC.on_db. simpl get_db.
  rewrite (db_inc_sane _ _ Hsane). unfold ret at 1.
  unfold bind, lift, pack_content_reference.
  rewrite decide_True by (unfold len in *; lia).
  unfold ret. eexists _, _. split; [reflexivity|]. reflexivity.
Qed.

Lemma first_insertion_of_stored_leaf_not_new_witness :
  let e := Toy.test_engine (Toy.wrapper false) in
  let big := Toy.s "ab,cd,ef,gh;" in
  let small := Toy.s "ab," in
  let σ := (put_content_and_check_if_new e big false Toy.empty).2 in
  ∃ handle σ',
    put_content_and_check_if_new e small false σ = (Ok (handle, false), σ') ∧
    kvs σ' = kvs σ.
Proof.
  intros e big small σ.
  apply (first_insertion_of_stored_leaf_not_new e σ small small small).
  - reflexivity.
  - reflexivity.
  - vm_compute. reflexivity.
  - reflexivity.
  - reflexivity.
  - reflexivity.
  - intros s. vm_compute. discriminate.
Defined.


(** ** The dictionary operations on nodes and counts *)

#[global] Instance storage_key_Inj rc : Inj (=) (=) (storage_key rc).
Proof.
  intros k1 k2. unfold storage_key. destruct rc; try done.
  by intros ?%(inj (.++ _)).
Qed.

Section Conc.

Context (self : SecCSLite) (Hok : engine_ok self) (other : db).

Local Abbreviation rc := (_reference_counter self).
Local Abbreviation R := (_R self).
Local Abbreviation heap_of := (conc self other).

Lemma count_part_lookup A k :
  count_part self A !! storage_key rc k = VInt <$> counts A !! k.
Proof. unfold count_part. rewrite lookup_kmap by apply _. by rewrite lookup_fmap. Qed.

Lemma node_part_lookup A k : node_part A !! k = VStr <$> nodes A !! k.
Proof. unfold node_part. by rewrite lookup_fmap. Qed.

Lemma storage_key_length_engine k :
  database_of rc = Some EngineDb → length (storage_key rc k) ≠ length k.
Proof.
  pose proof (counter_apart self Hok) as Hrc. unfold rc_ok in Hrc.
  unfold storage_key. destruct rc as [|[]|[] suffix]; try done.
  intros _. rewrite length_app. destruct suffix; [done|simpl; lia].
Qed.

Lemma count_part_lookup_node A k :
  database_of rc = Some EngineDb → keys_ok self A → length k = R →
  count_part self A !! k = None.
Proof.
  intros Hdb [_ Hc] Hk. unfold count_part. apply (lookup_kmap_None _).
  intros k' ->. rewrite lookup_fmap.
  destruct (counts A !! k') eqn:E; [|done].
  pose proof (storage_key_length_engine k' Hdb) as Hne.
  rewrite (Hc k') in Hne by (by eexists). by rewrite Hk in Hne.
Qed.

Lemma node_part_lookup_counter A k :
  database_of rc = Some EngineDb → keys_ok self A → length k = R →
  node_part A !! storage_key rc k = None.
Proof.
  intros Hdb [Hn _] Hk. rewrite node_part_lookup.
  destruct (nodes A !! storage_key rc k) eqn:E; [|done].
  pose proof (storage_key_length_engine k Hdb) as Hne.
  rewrite (Hn (storage_key rc k)) in Hne by (by eexists). by rewrite Hk in Hne.
Qed.

Lemma kvs_conc A k :
  keys_ok self A → length k = R →
  kvs (heap_of A) !! k = VStr <$> nodes A !! k.
Proof.
  intros HA Hk. unfold conc.
  destruct (database_of rc) as [[]|] eqn:Hdb; simpl;
    try apply node_part_lookup.
  rewrite lookup_union_l by (by apply count_part_lookup_node).
  apply node_part_lookup.
Qed.

Lemma get_node_conc A k h root_h l :
  keys_ok self A → length k = R →
  get_node_db self (kvs (heap_of A)) k h root_h l
  = get_node_db self (node_part A) k h root_h l.
Proof.
  intros HA Hk. unfold get_node_db. by rewrite kvs_conc, node_part_lookup.
Qed.

Lemma db_contains_conc A k :
  keys_ok self A → length k = R →
  db_contains k (heap_of A) = (Ok (bool_decide (is_Some (nodes A !! k))), heap_of A).
Proof.
  intros HA Hk. unfold db_contains. rewrite kvs_conc by done.
  do 2 f_equal. apply bool_decide_ext. by rewrite fmap_is_Some.
Qed.

Lemma keys_ok_set_node A k c :
  keys_ok self A → length k = R → keys_ok self (set_node k c A).
Proof.
  intros [Hn Hc] Hk. split; [|done]. intros k'. simpl.
  rewrite lookup_insert. case_decide; [by subst|apply Hn].
Qed.

Lemma keys_ok_del_node A k : keys_ok self A → keys_ok self (del_node k A).
Proof.
  intros [Hn Hc]. split; [|done]. intros k'. simpl.
  rewrite lookup_delete. case_decide; [by intros []|apply Hn].
Qed.

Lemma keys_ok_set_count A k n :
  keys_ok self A → length k = R → keys_ok self (set_count k n A).
Proof.
  intros [Hn Hc] Hk. split; [done|]. intros k'. simpl.
  rewrite lookup_insert. case_decide; [by subst|apply Hc].
Qed.

Lemma keys_ok_del_count A k : keys_ok self A → keys_ok self (del_count k A).
Proof.
  intros [Hn Hc]. split; [done|]. intros k'. simpl.
  rewrite lookup_delete. case_decide; [by intros []|apply Hc].
Qed.

Lemma db_setitem_conc A k c :
  keys_ok self A → length k = R →
  db_setitem k (VStr c) (heap_of A) = (Ok tt, heap_of (set_node k c A)).
Proof.
  intros HA Hk. unfold db_setitem, conc.
  destruct (database_of rc) as [[]|] eqn:Hdb; simpl; f_equal;
    unfold node_part; simpl; rewrite ?fmap_insert; try done.
  change (count_part self (set_node k c A)) with (count_part self A).
  by rewrite insert_union_l.
Qed.

Lemma db_delitem_conc A k c :
  keys_ok self A → nodes A !! k = Some c →
  db_delitem k (heap_of A) = (Ok tt, heap_of (del_node k A)).
Proof.
  intros HA Hc. assert (Hk : length k = R) by (apply (proj1 HA); by eexists).
  unfold db_delitem. rewrite kvs_conc, Hc by done. simpl.
  unfold conc.
  destruct (database_of rc) as [[]|] eqn:Hdb; simpl; f_equal;
    unfold node_part; simpl; rewrite ?fmap_delete; try done.
  change (count_part self (del_node k A)) with (count_part self A).
  rewrite delete_union. f_equal. f_equal.
  apply delete_id. by apply count_part_lookup_node.
Qed.

Lemma count_part_set_count A k n :
  count_part self (set_count k n A) = <[storage_key rc k := VInt n]> (count_part self A).
Proof. unfold count_part. simpl. rewrite fmap_insert. by rewrite kmap_insert by apply _. Qed.

Lemma count_part_del_count A k :
  count_part self (del_count k A) = delete (storage_key rc k) (count_part self A).
Proof. unfold count_part. simpl. rewrite fmap_delete. by rewrite kmap_delete by apply _. Qed.

Lemma counter_lookup_conc A r k :
  database_of rc = Some r → keys_ok self A → length k = R →
  get_db r (heap_of A) !! storage_key rc k = VInt <$> counts A !! k.
Proof.
  intros Hdb HA Hk. unfold conc. rewrite Hdb. destruct r; simpl.
  - rewrite lookup_union_r by (by apply node_part_lookup_counter).
    apply count_part_lookup.
  - apply count_part_lookup.
Qed.

Lemma set_db_conc_insert A r k n :
  database_of rc = Some r → keys_ok self A → length k = R →
  set_db r (<[storage_key rc k := VInt n]> (get_db r (heap_of A))) (heap_of A)
  = heap_of (set_count k n A).
Proof.
  intros Hdb HA Hk. unfold conc. rewrite Hdb. destruct r; simpl.
  - f_equal. rewrite count_part_set_count.
    change (node_part (set_count k n A)) with (node_part A).
    by rewrite insert_union_r by (by apply node_part_lookup_counter).
  - f_equal. by rewrite count_part_set_count.
Qed.

Lemma set_db_conc_delete A r k :
  database_of rc = Some r → keys_ok self A → length k = R →
  set_db r (delete (storage_key rc k) (get_db r (heap_of A))) (heap_of A)
  = heap_of (del_count k A).
Proof.
  intros Hdb HA Hk. unfold conc. rewrite Hdb. destruct r; simpl.
  - f_equal. rewrite count_part_del_count, delete_union.
    change (node_part (del_count k A)) with (node_part A).
    by rewrite (delete_id (node_part A)) by (by apply node_part_lookup_counter).
  - f_equal. by rewrite count_part_del_count.
Qed.

(** [inc] adds one to the count; the value it returns is not used by the
    engine (and [NoReferenceCounter] keeps no count at all: the count is
    then only a way of speaking). *)
Lemma inc_conc A k :
  keys_ok self A → length k = R →
  ∃ n, RC.inc rc k (heap_of A) = (Ok n, heap_of (set_count k (count A k + 1) A)).
Proof.
  intros HA Hk. destruct (database_of rc) as [r|] eqn:Hdb.
  - exists (count A k + 1)%Z. rewrite (inc_database_of _ _ _ _ Hdb).
    unfold RC.on_db. rewrite db_inc_sane.
    2:{ intros s. rewrite (counter_lookup_conc _ _ _ Hdb) by done.
        by destruct (counts A !! k). }
    unfold db_count. rewrite (counter_lookup_conc _ _ _ Hdb) by done.
    unfold count. destruct (counts A !! k) eqn:E; simpl;
      by rewrite set_db_conc_insert.
  - exists 1%Z. unfold conc. rewrite Hdb.
    destruct rc; try done.
Qed.

Lemma dec_conc A r k n :
  database_of rc = Some r → keys_ok self A → counts A !! k = Some n →
  RC.dec rc k (heap_of A)
  = (Ok (n - 1)%Z,
     heap_of (if (n - 1 =? 0)%Z then del_count k A else set_count k (n - 1) A)).
Proof.
  intros Hdb HA Hn. assert (Hk : length k = R) by (apply (proj2 HA); by eexists).
  rewrite (dec_database_of _ _ _ _ Hdb). unfold RC.on_db, RC.db_dec.
  rewrite (counter_lookup_conc _ _ _ Hdb), Hn by done. simpl.
  destruct (n - 1 =? 0)%Z.
  - by rewrite set_db_conc_delete.
  - by rewrite set_db_conc_insert.
Qed.

Lemma ref_count_conc A r k :
  database_of rc = Some r → keys_ok self A → length k = R →
  ref_count self (heap_of A) k = count A k.
Proof.
  intros Hdb HA Hk. unfold ref_count. rewrite Hdb. unfold db_count.
  rewrite (counter_lookup_conc _ _ _ Hdb) by done. unfold count.
  by destruct (counts A !! k).
Qed.

End Conc.


(** ** Sums over the catalogue, and counts *)

Section Msum.

Implicit Types U : gmap bytes (bytes * nat).

Lemma msum_empty (f : bytes → nat) : msum ∅ f = 0.
Proof. unfold msum. apply map_fold_empty. Qed.

Lemma msum_insert U f i x :
  U !! i = None → msum (<[i := x]> U) f = f i + msum U f.
Proof.
  intros Hi. unfold msum. rewrite map_fold_insert_L; [done| |done].
  intros. lia.
Qed.

Lemma msum_ext U f g :
  (∀ key, is_Some (U !! key) → f key = g key) → msum U f = msum U g.
Proof.
  induction U as [|i x U Hi IH] using map_ind; intros Hfg.
  - by rewrite !msum_empty.
  - rewrite !msum_insert by done. rewrite Hfg, IH; [done| |].
    + intros key Hkey. apply Hfg. rewrite lookup_insert_ne; [done|].
      intros ->. rewrite Hi in Hkey. by destruct Hkey.
    + rewrite lookup_insert_eq. by eexists.
Qed.

Lemma msum_update U f g key0 :
  is_Some (U !! key0) →
  (∀ key, key ≠ key0 → g key = f key) →
  msum U g + f key0 = msum U f + g key0.
Proof.
  induction U as [|i x U Hi IH] using map_ind; intros Hin Hfg.
  - rewrite lookup_empty in Hin. by destruct Hin.
  - rewrite !msum_insert by done.
    destruct (decide (i = key0)) as [->|Hne].
    + rewrite (msum_ext U g f); [lia|].
      intros key Hkey. apply Hfg. intros ->. rewrite Hi in Hkey. by destruct Hkey.
    + rewrite lookup_insert_ne in Hin by done.
      specialize (IH Hin Hfg). rewrite (Hfg i) by done. lia.
Qed.

Lemma msum_ge U f key0 : is_Some (U !! key0) → f key0 ≤ msum U f.
Proof.
  induction U as [|i x U Hi IH] using map_ind; intros Hin.
  - rewrite lookup_empty in Hin. by destruct Hin.
  - rewrite msum_insert by done.
    destruct (decide (i = key0)) as [->|Hne]; [lia|].
    rewrite lookup_insert_ne in Hin by done. specialize (IH Hin). lia.
Qed.

Lemma msum_zero U f : (∀ key, is_Some (U !! key) → f key = 0) → msum U f = 0.
Proof.
  induction U as [|i x U Hi IH] using map_ind; intros Hf.
  - apply msum_empty.
  - rewrite msum_insert by done. rewrite Hf, IH; [done| |].
    + intros key Hkey. apply Hf. rewrite lookup_insert_ne; [done|].
      intros ->. rewrite Hi in Hkey. by destruct Hkey.
    + rewrite lookup_insert_eq. by eexists.
Qed.

Lemma msum_pos U f : 0 < msum U f → ∃ key, is_Some (U !! key) ∧ 0 < f key.
Proof.
  induction U as [|i x U Hi IH] using map_ind.
  - rewrite msum_empty. lia.
  - rewrite msum_insert by done. intros Hpos.
    destruct (decide (0 < f i)) as [Hfi|Hfi].
    + exists i. split; [|done]. rewrite lookup_insert_eq. by eexists.
    + destruct IH as (key & Hkey & Hf); [lia|]. exists key. split; [|done].
      rewrite lookup_insert_ne; [done|]. intros ->. rewrite Hi in Hkey.
      by destruct Hkey.
Qed.

End Msum.

Lemma occ_app k refs1 refs2 : occ k (refs1 ++ refs2) = occ k refs1 + occ k refs2.
Proof. induction refs1 as [|r rs IH]; simpl; [done|]. rewrite IH. lia. Qed.

Lemma occ_pos k refs : 0 < occ k refs ↔ k ∈ refs.
Proof.
  induction refs as [|r rs IH]; simpl.
  - split; [lia|]. by intros ?%elem_of_nil.
  - rewrite elem_of_cons. case_decide; subst.
    + split; [by left|lia].
    + rewrite <- IH. split; [intros; right; lia|]. intros [->|]; [done|lia].
Qed.

Lemma occ_zero k refs : k ∉ refs → occ k refs = 0.
Proof. intros Hk. destruct (occ k refs) eqn:E; [done|]. destruct Hk. apply occ_pos. lia. Qed.

Lemma count_set_count A k n k' :
  count (set_count k n A) k' = if decide (k = k') then n else count A k'.
Proof. unfold count. simpl. rewrite lookup_insert. by case_decide. Qed.

Lemma count_del_count A k k' :
  count (del_count k A) k' = if decide (k = k') then 0%Z else count A k'.
Proof. unfold count. simpl. rewrite lookup_delete. by case_decide. Qed.

Lemma nodes_bump refs A : nodes (bump refs A) = nodes A.
Proof. revert A. induction refs as [|r rs IH]; intros A; [done|]. simpl. by rewrite IH. Qed.

Lemma count_bump refs A k :
  count (bump refs A) k = (count A k + Z.of_nat (occ k refs))%Z.
Proof.
  revert A. induction refs as [|r rs IH]; intros A; simpl; [lia|].
  rewrite IH, count_set_count. case_decide; subst; lia.
Qed.

Lemma counts_bump_other refs A k :
  k ∉ refs → counts (bump refs A) !! k = counts A !! k.
Proof.
  revert A. induction refs as [|r rs IH]; intros A Hk; [done|].
  simpl. rewrite IH by (intros ?; apply Hk; by right).
  simpl. rewrite lookup_insert_ne; [done|]. intros ->. apply Hk. by left.
Qed.

Lemma counts_bump_in refs A k :
  k ∈ refs → counts (bump refs A) !! k = Some (count A k + Z.of_nat (occ k refs))%Z.
Proof.
  revert A. induction refs as [|r rs IH]; intros A Hk.
  - by apply elem_of_nil in Hk.
  - simpl. destruct (decide (k ∈ rs)) as [Hin|Hout].
    + rewrite IH by done. rewrite count_set_count.
      repeat case_decide; subst; try done; apply (f_equal Some); lia.
    + rewrite counts_bump_other by done. simpl.
      apply elem_of_cons in Hk as [->|]; [|done].
      rewrite lookup_insert_eq, decide_True by done. rewrite occ_zero by done.
      apply (f_equal Some). lia.
Qed.


(** ** Superchunk payloads *)

Lemma split_refs_aux_join R ks fuel :
  0 < R → Forall (λ k, length k = R) ks → length ks ≤ fuel →
  split_refs_aux fuel R (mjoin ks) = Ok ks.
Proof.
  intros HR. revert fuel. induction ks as [|k ks IH]; intros fuel Hks Hfuel.
  - by destruct fuel.
  - inversion Hks as [|?? Hk Hrest]; subst.
    destruct fuel as [|fuel]; [simpl in Hfuel; lia|].
    simpl in Hfuel. cbn [mjoin list_join].
    destruct k as [|a k']; [simpl in HR; lia|].
    cbn [split_refs_aux app].
    change (a :: k' ++ mjoin ks) with ((a :: k') ++ mjoin ks).
    rewrite take_app_length' by done.
    rewrite drop_app_length' by done.
    unfold unpack_s. rewrite decide_True by done. simpl.
    rewrite IH by (done || lia). done.
Qed.

Lemma split_refs_join R ks :
  0 < R → Forall (λ k, length k = R) ks →
  split_refs R (mjoin ks) = Ok ks.
Proof.
  intros HR Hks. unfold split_refs. destruct R as [|R']; [lia|].
  apply split_refs_aux_join; [lia|done|].
  clear -Hks. induction Hks as [|k ks Hk _ IH]; simpl; [lia|].
  rewrite length_app, Hk. lia.
Qed.

Lemma split_refs_serialize self refs :
  0 < _R self →
  split_refs (_R self) (serialize self (Super refs)) = Ok (pack_s (_R self) <$> refs).
Proof.
  intros HR. simpl. apply split_refs_join; [done|].
  apply Forall_fmap, Forall_forall. intros ref _. apply length_pack_s.
Qed.

Lemma pack_s_refs R refs :
  Forall (λ k, length k = R) refs → pack_s R <$> refs = refs.
Proof.
  induction 1 as [|k ks Hk _ IH]; csimpl; [done|].
  by rewrite pack_s_id, IH.
Qed.

(** ** Storing a node, on nodes and counts *)

Lemma live_empty A key : live A ∅ key = bool_decide (is_Some (nodes A !! key)).
Proof. unfold live. apply bool_decide_ext. set_solver. Qed.

Section StoreAbs.

Context (self : SecCSLite) (Hok : engine_ok self) (other : db).
Context (U : gmap bytes (bytes * nat)).

Local Abbreviation rc := (_reference_counter self).
Local Abbreviation cw := (_crypto_wrapper self).
Local Abbreviation R := (_R self).
Local Abbreviation heap_of := (conc self other).

Lemma child_ok_length h ref : child_ok self U h ref → length ref = R.
Proof. intros (p & _ & <-). apply (digest_length self Hok). Qed.

Lemma ref_ok_length root_h h ref : ref_ok self U root_h h ref → length ref = R.
Proof. intros (p & _ & <-). apply (digest_length self Hok). Qed.

Lemma key_of_length v h root_h : length (key_of self v h root_h) = R.
Proof. apply (digest_length self Hok). Qed.

Lemma GInv_keys_ok A X O E : GInv self U A X O E → keys_ok self A.
Proof.
  intros HI. split.
  - intros k [c Hc]. destruct (inv_cat _ _ _ _ _ _ HI k c Hc) as (p & h & r0 & _ & Hw).
    pose proof (digest_length self Hok p h r0) as Hl. by rewrite Hw in Hl.
  - apply (inv_len _ _ _ _ _ _ HI).
Qed.

Lemma count_nonneg A X O E k : GInv self U A X O E → (0 ≤ count A k)%Z.
Proof. intros HI. rewrite (inv_count _ _ _ _ _ _ HI). lia. Qed.

Lemma inc_all_conc refs A :
  keys_ok self A → Forall (λ r, length r = R) refs →
  inc_all self refs (heap_of A) = (Ok tt, heap_of (bump refs A)) ∧
  keys_ok self (bump refs A).
Proof.
  revert A. induction refs as [|r refs IH]; intros A HA Hrefs; [done|].
  inversion Hrefs as [|?? Hr Hrest]; subst.
  destruct (inc_conc self Hok other A r HA Hr) as [n Hinc].
  destruct (IH (set_count r (count A r + 1) A)) as [Hrun HA'];
    [by apply keys_ok_set_count|done|].
  split; [|done].
  unfold inc_all in *. simpl. unfold bind at 1. unfold bind at 1.
  rewrite Hinc. unfold ret at 1. exact Hrun.
Qed.

Lemma children_cat_covered v hh root_h :
  U !! key_of self v hh root_h = Some (serialize self v, hh) →
  match v with
  | Leaf _ => hh = 0
  | Super refs => 0 < hh ∧ Forall (λ ref, length ref = R) refs
  end →
  children_cat self U (key_of self v hh root_h) = children v.
Proof.
  intros HU Hshape. unfold children_cat. rewrite HU.
  destruct v as [s|refs].
  - subst. reflexivity.
  - destruct Hshape as [Hpos Hshape]. destruct hh; [lia|].
    rewrite split_refs_serialize by apply (R_pos self Hok).
    by rewrite pack_s_refs.
Qed.

Lemma get_node_valid A X O E k p h c root_h :
  GInv self U A X O E →
  nodes A !! k = Some c →
  U !! k = Some (p, h) →
  (wrap_value cw p h (h =? root_h)).2 = k →
  ∃ n, get_node_db self (node_part A) k h root_h (-1) = Ok (Some n) ∧
       n = (if 0 <? h then Super (children_cat self U k) else Leaf p).
Proof.
  intros HI Hc HU Hk.
  destruct (inv_cat _ _ _ _ _ _ HI k c Hc) as (p' & h' & r1 & HU' & Hw).
  rewrite HU in HU'. injection HU' as <- <-.
  unfold get_node_db. rewrite node_part_lookup, Hc. simpl.
  assert (Hun : unwrap_value cw c k h (h =? root_h) (-1) = Ok (Some p)).
  { pose proof (unwrap_wrap self Hok p h (h =? root_h) r1) as Hu.
    rewrite Hw, Hk in Hu. simpl in Hu. by apply Hu. }
  rewrite Hun. simpl.
  destruct h as [|h]; simpl.
  - by eexists.
  - destruct (inv_children _ _ _ _ _ _ HI k p h) as (refs & Hsplit & _);
      [by eexists|done|].
    rewrite Hsplit. simpl. eexists. split; [done|].
    unfold children_cat. by rewrite HU, Hsplit.
Qed.

Lemma inedges_ext A A' E E' k :
  (∀ key, is_Some (U !! key) → live A E key = live A' E' key) →
  inedges self U A E k = inedges self U A' E' k.
Proof.
  intros Hl. unfold inedges. apply msum_ext. intros key Hkey.
  by rewrite (Hl key Hkey).
Qed.

Lemma inedges_add A A' E E' k key0 :
  is_Some (U !! key0) →
  live A E key0 = false → live A' E' key0 = true →
  (∀ key, key ≠ key0 → live A' E' key = live A E key) →
  inedges self U A' E' k = inedges self U A E k + occ k (children_cat self U key0).
Proof.
  intros Hin Hf Hg Hother. unfold inedges.
  pose proof (msum_update U
    (λ key, if live A E key then occ k (children_cat self U key) else 0)
    (λ key, if live A' E' key then occ k (children_cat self U key) else 0)
    key0 Hin) as Hupd.
  simpl in Hupd. rewrite Hf, Hg in Hupd. rewrite <- Hupd; [lia|].
  intros key Hne. by rewrite Hother.
Qed.

Lemma store_node_abs v hh root_h A X O :
  GInv self U A X O ∅ →
  U !! key_of self v hh root_h = Some (serialize self v, hh) →
  match v with
  | Leaf _ => hh = 0
  | Super refs =>
      ∃ hh', hh = S hh' ∧
        Forall (λ ref, child_ok self U hh' ref ∧ is_Some (nodes A !! ref)) refs
  end →
  let k := key_of self v hh root_h in
  ∃ A',
    _store_node self v hh root_h (heap_of A)
    = (Ok (k, negb (bool_decide (is_Some (nodes A !! k)))), heap_of A') ∧
    GInv self U A' X (O ∪ {[k]}) ∅ ∧
    (∀ k' c, nodes A !! k' = Some c → nodes A' !! k' = Some c) ∧
    (∀ k', is_Some (nodes A' !! k') ↔ is_Some (nodes A !! k') ∨ k' = k) ∧
    (∀ k', k' ∉ children v → counts A' !! k' = counts A !! k').
Proof.
  intros HI HU Hshape k.
  pose proof (GInv_keys_ok _ _ _ _ HI) as HA.
  pose proof (key_of_length v hh root_h) as Hk. fold k in Hk, HU.
  assert (Hrefs : Forall (λ ref, length ref = R) (children v)).
  { destruct v as [s|refs]; simpl; [done|].
    destruct Hshape as (hh' & -> & Hf).
    eapply Forall_impl; [exact Hf|]. intros ref [Hc _]. by eapply child_ok_length. }
  assert (Hcat : children_cat self U k = children v).
  { apply children_cat_covered; [done|]. destruct v as [s|refs]; [done|].
    destruct Hshape as (hh' & -> & _). split; [lia|done]. }
  destruct (nodes A !! k) as [c|] eqn:Hc.
  - (* the node is there: the probe verifies it *)
    exists A.
    destruct (get_node_valid A X O ∅ k (serialize self v) hh c root_h HI Hc HU eq_refl)
      as (n & Hget & _).
    split; [|split; [|split; [|split]]].
    + rewrite bool_decide_eq_true_2 by (by eexists). simpl.
      apply (store_node_hit self v hh root_h (heap_of A) n).
      * fold k. rewrite kvs_conc, Hc by done. by eexists.
      * fold k. by rewrite get_node_conc.
    + destruct HI as [H1 H2 H3 H4 H5 H6]. split; try done.
      intros k' Hk'. rewrite (H4 k' Hk'). set_solver.
    + done.
    + intros k'. split; [by left|]. intros [?| ->]; [done|]. by eexists.
    + done.
  - (* a new node *)
    destruct (inc_all_conc (children v) A HA Hrefs) as [Hinc HA1].
    set (c := cipher_of self v hh root_h).
    exists (set_node k c (bump (children v) A)).
    assert (Hlive0 : live A ∅ k = false).
    { rewrite live_empty. apply bool_decide_eq_false_2. rewrite Hc. by intros []. }
    assert (Hpresent : ∀ ref, ref ∈ children v → is_Some (nodes A !! ref)).
    { destruct v as [s|refs]; simpl; [by intros ? ?%elem_of_nil|].
      destruct Hshape as (hh' & -> & Hf). rewrite Forall_forall in Hf.
      intros ref Href. by apply Hf. }
    split; [|split; [|split; [|split]]].
    + rewrite bool_decide_eq_false_2 by (by intros []). simpl.
      rewrite store_node_miss by (left; fold k; by rewrite kvs_conc, Hc).
      fold k c. unfold bind at 1. rewrite Hinc. unfold bind at 1.
      rewrite db_setitem_conc by done. done.
    + split.
      * intros k' c'. simpl. rewrite lookup_insert. case_decide as Hkk.
        -- subst k'. intros [= <-]. exists (serialize self v), hh, (hh =? root_h).
           split; [done|]. unfold c, k, cipher_of, key_of.
           by destruct (wrap_value _ _ _ _).
        -- rewrite nodes_bump. apply (inv_cat _ _ _ _ _ _ HI).
      * intros k' p h'. simpl. rewrite lookup_insert. case_decide as Hkk.
        -- subst k'. intros _ HU'. rewrite HU in HU'. injection HU' as <- ->.
           destruct v as [s|refs]; [done|].
           destruct Hshape as (hh' & [= <-] & Hf).
           exists refs. split.
           ++ rewrite split_refs_serialize by apply (R_pos self Hok).
              by rewrite pack_s_refs.
           ++ eapply Forall_impl; [exact Hf|]. by intros ref [? _].
        -- rewrite nodes_bump. apply (inv_children _ _ _ _ _ _ HI).
      * intros k'. rewrite (inedges_add A _ ∅ ∅ k' k); [|by eexists|done| |].
        -- unfold count at 1. simpl. fold (count (bump (children v) A) k').
           rewrite count_bump, (inv_count _ _ _ _ _ _ HI), Hcat. lia.
        -- rewrite live_empty. apply bool_decide_eq_true_2. simpl.
           rewrite lookup_insert_eq. by eexists.
        -- intros key Hne. rewrite !live_empty. apply bool_decide_ext. simpl.
           by rewrite lookup_insert_ne, nodes_bump.
      * intros k' _. simpl. rewrite lookup_insert. case_decide as Hkk.
        -- subst k'. split; [set_solver|by eexists].
        -- rewrite nodes_bump.
           unfold count. simpl. fold (count (bump (children v) A) k').
           rewrite count_bump.
           rewrite (inv_present _ _ _ _ _ _ HI k') by set_solver.
           pose proof (count_nonneg A X O ∅ k' HI) as Hnn.
           split.
           ++ intros [Hge|HO]; [left; lia|right; set_solver].
           ++ intros [Hge|HO].
              ** destruct (decide (1 ≤ count A k')%Z) as [|Hlt]; [by left|].
                 assert (Hocc : 0 < occ k' (children v)) by lia.
                 apply occ_pos, Hpresent in Hocc.
                 by apply (inv_present _ _ _ _ _ _ HI k').
              ** apply elem_of_union in HO as [HO|HO]; [by right|].
                 apply elem_of_singleton in HO. done.
      * intros k' n. simpl. intros Hn.
        destruct (decide (k' ∈ children v)) as [Hin|Hout].
        -- rewrite counts_bump_in in Hn by done. injection Hn as <-.
           pose proof (count_nonneg A X O ∅ k' HI).
           apply occ_pos in Hin. lia.
        -- rewrite counts_bump_other in Hn by done.
           by apply (inv_pos _ _ _ _ _ _ HI k').
      * intros k'. simpl. apply HA1.
    + intros k' c' Hc'. simpl. rewrite lookup_insert_ne, nodes_bump; [done|].
      intros <-. by rewrite Hc in Hc'.
    + intros k'. simpl. rewrite lookup_insert, nodes_bump.
      case_decide; subst.
      * split; [by right|by eexists].
      * split; [by left|]. by intros [|].
    + intros k' Hk'. simpl. by apply counts_bump_other.
Qed.

End StoreAbs.


(** ** [_put_chunk] follows its plan *)

Section PlanRun.

Context (self : SecCSLite).

Lemma store_node_key v hh root_h σ r σ' :
  _store_node self v hh root_h σ = (Ok r, σ') → r.1 = key_of self v hh root_h.
Proof.
  rewrite store_node_unfold. cbn zeta. munfold.
  destruct (bool_decide (is_Some (kvs σ !! key_of self v hh root_h))).
  - destruct (get_node_db self (kvs σ) _ hh root_h (-1)) as [n|e]; [|done].
    destruct (bool_decide (n ≠ None)).
    + by intros [= <- _].
    + destruct (inc_all self (children v) σ) as [[[]|e] σ1]; [|done].
      by intros [= <- _].
  - destruct (inc_all self (children v) σ) as [[[]|e] σ1]; [|done].
    by intros [= <- _].
Qed.

Lemma bind_assoc {A B C} (m : M A) (f : A → M B) (g : B → M C) σ :
  bind (bind m f) g σ = bind m (λ a, bind (f a) g) σ.
Proof. unfold bind. by destruct (m σ) as [[a|e] σ1]. Qed.

Lemma bind_ext_run {A B} (m : M A) (f g : A → M B) σ :
  (∀ a σ', m σ = (Ok a, σ') → f a σ' = g a σ') → bind m f σ = bind m g σ.
Proof. intros H. unfold bind. destruct (m σ) as [[a|e] σ1]; [by apply H|done]. Qed.

Lemma bind_ext {A B} (m : M A) (f g : A → M B) σ :
  (∀ a σ', f a σ' = g a σ') → bind m f σ = bind m g σ.
Proof. intros H. apply bind_ext_run. intros. apply H. Qed.

Lemma bind_run_eq {A B} (m m' : M A) (f : A → M B) σ :
  m σ = m' σ → bind m f σ = bind m' f σ.
Proof. intros H. unfold bind. by rewrite H. Qed.

Lemma bind_ret_l {A B} (a : A) (f : A → M B) σ : bind (ret a) f σ = f a σ.
Proof. done. Qed.

Lemma bind_ret_r {A} (m : M A) σ : bind m ret σ = m σ.
Proof. unfold bind, ret. by destruct (m σ) as [[a|e] σ1]. Qed.

Lemma run_calls_cons root_h c cs σ :
  run_calls self root_h (c :: cs) σ
  = (let! _ := _store_node self c.1 c.2 root_h in run_calls self root_h cs) σ.
Proof.
  unfold run_calls. simpl. rewrite bind_assoc. apply bind_ext. intros a σ'.
  reflexivity.
Qed.

Lemma run_calls_app root_h cs1 cs2 σ :
  run_calls self root_h (cs1 ++ cs2) σ
  = (let! _ := run_calls self root_h cs1 in run_calls self root_h cs2) σ.
Proof.
  revert σ. induction cs1 as [|c cs1 IH]; intros σ; [done|].
  rewrite <- app_comm_cons, run_calls_cons.
  rewrite (bind_run_eq _ _ _ _ (run_calls_cons root_h c cs1 σ)), bind_assoc.
  apply bind_ext. intros _ σ'. apply IH.
Qed.

Lemma put_level_plan root_h height nl nl' c σ :
  plan_level self root_h height nl = Ok (nl', c) →
  put_level self root_h height nl σ
  = (let! _ := run_calls self root_h [c] in ret nl') σ.
Proof.
  unfold plan_level, put_level.
  destruct (nl !! (height + 1)) as [[s|refs]|]; try done.
  destruct (nl !! height) as [v|]; [|done].
  intros [= <- <-].
  rewrite (bind_run_eq _ _ _ _ (run_calls_cons root_h (v, height) [] σ)), bind_assoc.
  simpl. apply bind_ext_run. intros r σ' Hr.
  rewrite (store_node_key _ _ _ _ _ _ Hr). done.
Qed.

Lemma put_levels_plan root_h heights nl nl' cs σ :
  plan_levels self root_h heights nl = Ok (nl', cs) →
  put_levels self root_h heights nl σ
  = (let! _ := run_calls self root_h cs in ret nl') σ.
Proof.
  revert nl cs σ. induction heights as [|height hs IH]; intros nl cs σ.
  - simpl. by intros [= <- <-].
  - simpl.
    destruct (plan_level self root_h height nl) as [[nl1 c]|e] eqn:E1; [|done].
    simpl. destruct (plan_levels self root_h hs nl1) as [[nl2 cs2]|e] eqn:E2; [|done].
    simpl. intros [= <- <-].
    rewrite (bind_run_eq _ _ _ _ (run_calls_app root_h [c] cs2 σ)), bind_assoc.
    transitivity (bind (bind (run_calls self root_h [c]) (λ _, ret nl1))
                    (λ nl1, put_levels self root_h hs nl1) σ).
    + symmetry. apply bind_run_eq. symmetry. by apply put_level_plan.
    + rewrite bind_assoc. apply bind_ext. intros _ σ'. rewrite bind_ret_l.
      by apply IH.
Qed.

Lemma put_chunks_plan m root_h pairs nl nl' cs σ :
  plan_chunks self m root_h pairs nl = Ok (nl', cs) →
  put_chunks self m root_h pairs nl σ
  = (let! _ := run_calls self root_h cs in ret nl') σ.
Proof.
  revert nl cs σ. induction pairs as [|[[s ?] [e bh]] ps IH]; intros nl cs σ.
  - simpl. by intros [= <- <-].
  - simpl.
    destruct (plan_levels self root_h _ _) as [[nl1 cs1]|err] eqn:E1; [|done].
    simpl. destruct (plan_chunks self m root_h ps nl1) as [[nl2 cs2]|err] eqn:E2; [|done].
    simpl. intros [= <- <-].
    rewrite (bind_run_eq _ _ _ _ (run_calls_app root_h cs1 cs2 σ)), bind_assoc.
    transitivity (bind (bind (run_calls self root_h cs1) (λ _, ret nl1))
                    (λ nl1, put_chunks self m root_h ps nl1) σ).
    + symmetry. apply bind_run_eq. symmetry. by apply put_levels_plan.
    + rewrite bind_assoc. apply bind_ext. intros _ σ'. rewrite bind_ret_l.
      by apply IH.
Qed.

Lemma put_chunk_plan m h root_h calls :
  plan self m h root_h = Ok calls →
  ∃ body v, calls = body ++ [(v, h)] ∧
    ∀ σ, _put_chunk self m h root_h σ
         = (let! _ := run_calls self root_h body in _store_node self v h root_h) σ.
Proof.
  unfold plan, _put_chunk. destruct h as [|h'].
  - intros [= <-]. exists [], (Leaf m). split; [done|]. intros σ. done.
  - destruct (plan_chunks self m root_h _ _) as [[nl cs]|err] eqn:E; [|done].
    simpl. destruct (nl !! S h') as [v|] eqn:Ev; [|done].
    intros [= <-]. exists cs, v. split; [done|]. intros σ.
    transitivity (bind (bind (run_calls self root_h cs) (λ _, ret nl))
                    (λ nl, match nl !! S h' with
                           | Some v => _store_node self v (S h') root_h
                           | None => raise KeyError
                           end) σ).
    + symmetry. apply bind_run_eq. symmetry. by apply put_chunks_plan.
    + rewrite bind_assoc. apply bind_ext. intros _ σ'. rewrite bind_ret_l.
      by rewrite Ev.
Qed.

End PlanRun.


(** ** The shape of a plan *)

Section PlanShape.

Context (self : SecCSLite).

Lemma call_shape_mono root_h pre pre' v hh :
  (∀ c, c ∈ pre → c ∈ pre') →
  call_shape self root_h pre v hh → call_shape self root_h pre' v hh.
Proof.
  intros Hsub. destruct v as [s|refs]; simpl; [done|].
  intros (hh' & -> & Hf). exists hh'. split; [done|].
  eapply Forall_impl; [exact Hf|]. intros ref (v' & Hin & Hkey).
  exists v'. split; [by apply Hsub|done].
Qed.

Lemma calls_wf_app root_h pre a b :
  calls_wf self root_h pre (a ++ b) ↔
  calls_wf self root_h pre a ∧ calls_wf self root_h (pre ++ a) b.
Proof.
  revert pre. induction a as [|c a IH]; intros pre; simpl.
  - rewrite app_nil_r. tauto.
  - rewrite IH. rewrite <- app_assoc. simpl. tauto.
Qed.

Lemma plan_level_PI h height nl acc nl' c :
  PI self h nl acc →
  (height = 0 → ∃ s, nl !! 0 = Some (Leaf s)) →
  plan_level self h height nl = Ok (nl', c) →
  PI self h nl' (acc ++ [c]) ∧
  nl' !! height = Some (Super []) ∧
  (∀ j, j < height → nl' !! j = nl !! j).
Proof.
  intros [Hlen Hbuf Hacc Hwf] Hleaf. unfold plan_level.
  destruct (nl !! (height + 1)) as [[s|refs]|] eqn:E1; try done.
  destruct (nl !! height) as [v|] eqn:E0; [|done].
  intros [= <- <-].
  assert (Hlt : height < h).
  { apply lookup_lt_Some in E1. lia. }
  assert (Hshape : call_shape self h acc v height).
  { destruct height as [|j].
    - destruct Hleaf as [s Hs]; [done|]. rewrite Hs in E0. by injection E0 as <-.
    - destruct (Hbuf (S j)) as (refs' & Hl & Hf); [lia|].
      rewrite Hl in E0. injection E0 as <-. simpl. exists j. split; [done|].
      by rewrite Nat.sub_succ, Nat.sub_0_r in Hf. }
  split; [split|split].
  - by rewrite !length_insert.
  - intros j Hj. destruct (decide (j = height)) as [->|Hne1].
    + exists []. split; [|done].
      apply list_lookup_insert_eq. rewrite length_insert. lia.
    + rewrite list_lookup_insert_ne by done.
      destruct (decide (j = height + 1)) as [->|Hne2].
      * exists (refs ++ [key_of self v height h]). split.
        -- apply list_lookup_insert_eq. lia.
        -- apply Forall_app. split.
           ++ destruct (Hbuf (height + 1)) as (refs' & Hl & Hf); [lia|].
              rewrite Hl in E1. injection E1 as ->.
              eapply Forall_impl; [exact Hf|]. intros ref (v' & Hin & Hk).
              exists v'. split; [|done]. apply elem_of_app. by left.
           ++ apply Forall_singleton. exists v.
              replace (height + 1 - 1) with height by lia.
              split; [|done]. apply elem_of_app. right. by apply list_elem_of_singleton.
      * rewrite list_lookup_insert_ne by done.
        destruct (Hbuf j Hj) as (refs' & Hl & Hf). exists refs'. split; [done|].
        eapply Forall_impl; [exact Hf|]. intros ref (v' & Hin & Hk).
        exists v'. split; [|done]. apply elem_of_app. by left.
  - intros v0 hh Hin. apply elem_of_app in Hin as [Hin|Hin].
    + destruct (Hacc v0 hh Hin) as [Hhh Hcase]. split; [done|].
      destruct Hcase as [(refs' & Hl & Hk)|(refs' & Hin' & Hk)].
      * destruct (decide (S hh = height)) as [<-|Hne1].
        -- right. rewrite Hl in E0. injection E0 as <-.
           exists refs'. split; [|done]. apply elem_of_app. right.
           by apply list_elem_of_singleton.
        -- left. rewrite list_lookup_insert_ne by done.
           destruct (decide (S hh = height + 1)) as [Heq|Hne2].
           ++ rewrite Heq. rewrite Heq, E1 in Hl. injection Hl as <-.
              exists (refs ++ [key_of self v height h]). split.
              ** apply list_lookup_insert_eq. lia.
              ** apply elem_of_app. by left.
           ++ rewrite list_lookup_insert_ne by done. by exists refs'.
      * right. exists refs'. split; [|done]. apply elem_of_app. by left.
    + apply list_elem_of_singleton in Hin. injection Hin as -> ->.
      split; [done|]. left.
      rewrite list_lookup_insert_ne by lia.
      exists (refs ++ [key_of self v height h]). split.
      * replace (S height) with (height + 1) by lia.
        apply list_lookup_insert_eq. lia.
      * apply elem_of_app. right. by apply list_elem_of_singleton.
  - apply calls_wf_app. split; [done|]. simpl.
    split; [lia|]. split; [done|done].
  - apply list_lookup_insert_eq. rewrite length_insert. lia.
  - intros j Hj. by rewrite !list_lookup_insert_ne by lia.
Qed.

Lemma plan_levels_PI h n : ∀ j nl acc nl' cs,
  PI self h nl acc →
  (j = 0 → 0 < n → ∃ s, nl !! 0 = Some (Leaf s)) →
  plan_levels self h (seq j n) nl = Ok (nl', cs) →
  PI self h nl' (acc ++ cs) ∧
  (∀ i, j ≤ i < j + n → nl' !! i = Some (Super [])) ∧
  (∀ i, i < j → nl' !! i = nl !! i).
Proof.
  induction n as [|n IH]; intros j nl acc nl' cs HPI Hleaf; simpl.
  - intros [= <- <-]. rewrite app_nil_r. split; [done|]. split; [lia|done].
  - destruct (plan_level self h j nl) as [[nl1 c]|e] eqn:E1; [|done]. simpl.
    destruct (plan_levels self h (seq (S j) n) nl1) as [[nl2 cs2]|e] eqn:E2; [|done].
    simpl. intros [= <- <-].
    destruct (plan_level_PI h j nl acc nl1 c HPI) as (HPI1 & Hj & Hlow1);
      [intros ->; apply Hleaf; [done|lia]|done|].
    destruct (IH (S j) nl1 (acc ++ [c]) nl2 cs2 HPI1) as (HPI2 & Hflush & Hlow2);
      [done|done|].
    split; [|split].
    + by rewrite <- app_assoc in HPI2.
    + intros i Hi. destruct (decide (i = j)) as [->|Hne].
      * rewrite Hlow2 by lia. done.
      * apply Hflush. lia.
    + intros i Hi. rewrite Hlow2 by lia. apply Hlow1. lia.
Qed.

Lemma PI_set_leaf h nl acc s :
  PI self h nl acc → PI self h (<[0 := Leaf s]> nl) acc.
Proof.
  intros [Hlen Hbuf Hacc Hwf]. split.
  - by rewrite length_insert.
  - intros j Hj. rewrite list_lookup_insert_ne by lia. by apply Hbuf.
  - intros v hh Hin. rewrite list_lookup_insert_ne by lia. by apply Hacc.
  - done.
Qed.

Lemma plan_chunks_PI m h pairs : ∀ nl acc nl' cs,
  PI self h nl acc →
  plan_chunks self m h pairs nl = Ok (nl', cs) →
  PI self h nl' (acc ++ cs) ∧
  (∀ p, last pairs = Some p →
        ∀ i, i < Z.to_nat (p.2.2 + 1) → nl' !! i = Some (Super [])).
Proof.
  induction pairs as [|[[s ?] [e bh]] ps IH]; intros nl acc nl' cs HPI; simpl.
  - intros [= <- <-]. rewrite app_nil_r. split; [done|]. by intros p.
  - destruct (plan_levels self h _ _) as [[nl1 cs1]|err] eqn:E1; [|done]. simpl.
    destruct (plan_chunks self m h ps nl1) as [[nl2 cs2]|err] eqn:E2; [|done].
    simpl. intros [= <- <-].
    destruct (plan_levels_PI h (Z.to_nat (bh + 1)) 0 _ acc nl1 cs1
                (PI_set_leaf h nl acc (py_slice m s e) HPI))
      as (HPI1 & Hflush & _); [| exact E1 |].
    { intros _ _. eexists. apply list_lookup_insert_eq.
      rewrite (pi_len _ _ _ _ HPI). lia. }
    destruct (IH nl1 (acc ++ cs1) nl2 cs2 HPI1 E2) as (HPI2 & Hlast).
    split; [by rewrite <- app_assoc in HPI2|].
    intros p Hp i Hi. destruct ps as [|p' ps'].
    + simpl in Hp. injection Hp as <-. simpl in E2. injection E2 as <- <-.
      simpl in Hi. apply Hflush. lia.
    + apply (Hlast p); [|done]. by rewrite last_cons_cons in Hp.
Qed.

Lemma zip_tail_snoc {A} (b : A) B x :
  ∃ l y, zip ((b :: B) ++ [x]) (B ++ [x]) = l ++ [(y, x)].
Proof.
  revert b. induction B as [|b' B IH]; intros b.
  - by exists [], b.
  - destruct (IH b') as (l & y & Hl). exists ((b, b') :: l), y.
    change (zip ((b :: b' :: B) ++ [x]) ((b' :: B) ++ [x]))
      with ((b, b') :: zip ((b' :: B) ++ [x]) (B ++ [x])).
    by rewrite Hl.
Qed.

Lemma last_zip_tail {A} (b : A) B x :
  ∃ y, last (zip ((b :: B) ++ [x]) (B ++ [x])) = Some (y, x).
Proof.
  destruct (zip_tail_snoc b B x) as (l & y & ->). exists y. apply last_snoc.
Qed.

Lemma boundaries_of_cases m h :
  (boundaries_of self m h = [(len m, Z.of_nat h - 1)%Z]) ∨
  (∃ b B, boundaries_of self m h = (b :: B) ++ [(len m, Z.of_nat h - 1)%Z]).
Proof.
  unfold boundaries_of. cbn zeta.
  set (B0 := (0%Z, (Z.of_nat h - 1)%Z) :: _).
  destruct (decide _) as [_|_].
  - destruct (removelast B0) as [|b B]; [by left|right; by exists b, B].
  - right. by eexists _, _.
Qed.

(** The nodes [_put_chunk] stores for a content: leaves at height 0,
    superchunks over nodes stored before them, each node but the root
    listed by a superchunk one level up, the root last. *)
Lemma plan_shape m h calls :
  plan self m h h = Ok calls →
  calls_wf self h [] calls ∧
  ∃ body v, calls = body ++ [(v, h)] ∧
    ∀ c, c ∈ body →
      c.2 < h ∧ ∃ refs, (Super refs, S c.2) ∈ calls ∧ key_of self c.1 c.2 h ∈ refs.
Proof.
  unfold plan. destruct h as [|h'].
  - intros [= <-]. split; [simpl; done|].
    exists [], (Leaf m). split; [done|]. by intros c ?%elem_of_nil.
  - set (h := S h').
    destruct (plan_chunks self m h _ _) as [[nl cs]|err] eqn:E; [|done]. simpl.
    destruct (nl !! h) as [v|] eqn:Ev; [|done]. intros [= <-].
    assert (HPI0 : PI self h (replicate (h + 1) (Super [])) []).
    { split.
      - by rewrite length_replicate.
      - intros j Hj. exists []. split; [|done].
        apply lookup_replicate. split; [done|lia].
      - by intros v0 hh ?%elem_of_nil.
      - done. }
    destruct (plan_chunks_PI m h _ _ [] nl cs HPI0 E) as (HPI & Hlast).
    simpl in HPI.
    destruct (pi_buf _ _ _ _ HPI h) as (refs_h & Hrh & Hfh); [lia|].
    rewrite Hrh in Ev. injection Ev as <-.
    split.
    + apply calls_wf_app. split; [apply (pi_wf _ _ _ _ HPI)|]. simpl.
      split; [done|]. split; [|done]. exists h'. split; [done|].
      unfold h in Hfh. by rewrite Nat.sub_succ, Nat.sub_0_r in Hfh.
    + exists cs, (Super refs_h). split; [done|]. intros [v0 hh] Hin. simpl.
      destruct (pi_acc _ _ _ _ HPI v0 hh Hin) as [Hhh Hcase]. split; [done|].
      destruct Hcase as [(refs & Hl & Hk)|(refs & Hin' & Hk)].
      * destruct (decide (S hh = h)) as [Heq|Hne].
        -- rewrite Heq, Hrh in Hl. injection Hl as <-. exists refs_h.
           split; [|done]. rewrite Heq. apply elem_of_app. right.
           by apply list_elem_of_singleton.
        -- exfalso.
           destruct (boundaries_of_cases m h) as [Hb|(b & B & Hb)].
           ++ rewrite Hb in E. simpl in E. injection E as <- <-.
              by apply elem_of_nil in Hin.
           ++ rewrite Hb in Hlast. simpl tail in Hlast.
              destruct (last_zip_tail b B (len m, (Z.of_nat h - 1)%Z)) as [y Hy].
              specialize (Hlast _ Hy (S hh)). simpl in Hlast.
              rewrite Hlast in Hl by lia. injection Hl as <-.
              by apply elem_of_nil in Hk.
      * exists refs. split; [|done]. apply elem_of_app. by left.
Qed.

End PlanShape.


(** ** [put_content] on nodes and counts *)

Section PutAbs.

Context (self : SecCSLite) (Hok : engine_ok self) (other : db).
Context (U : gmap bytes (bytes * nat)).

Local Abbreviation rc := (_reference_counter self).
Local Abbreviation cw := (_crypto_wrapper self).
Local Abbreviation R := (_R self).
Local Abbreviation heap_of := (conc self other).

Lemma elem_of_key_set root_h calls k :
  k ∈ key_set self root_h calls ↔ ∃ c, c ∈ calls ∧ key_of self c.1 c.2 root_h = k.
Proof.
  unfold key_set. rewrite elem_of_list_to_set, list_elem_of_fmap. naive_solver.
Qed.

Lemma covers_child_ok root_h v' hh' :
  covers self U root_h (v', hh') → hh' < root_h →
  child_ok self U hh' (key_of self v' hh' root_h).
Proof.
  intros Hc Hlt. exists (serialize self v'). split; [done|].
  unfold key_of. replace (hh' =? root_h) with false; [done|].
  symmetry. apply Nat.eqb_neq. lia.
Qed.

Lemma run_calls_abs X root_h post : ∀ pre A O,
  GInv self U A X O ∅ →
  (∀ c, c ∈ pre → is_Some (nodes A !! key_of self c.1 c.2 root_h)) →
  Forall (covers self U root_h) (pre ++ post) →
  calls_wf self root_h pre post →
  ∃ A',
    run_calls self root_h post (heap_of A) = (Ok tt, heap_of A') ∧
    GInv self U A' X (O ∪ key_set self root_h post) ∅ ∧
    (∀ k c, nodes A !! k = Some c → nodes A' !! k = Some c) ∧
    (∀ k, is_Some (nodes A' !! k) ↔
          is_Some (nodes A !! k) ∨ k ∈ key_set self root_h post).
Proof.
  induction post as [|[v hh] rest IH]; intros pre A O HI Hpre Hcov Hwf.
  - exists A. split; [done|]. split; [|split; [done|]].
    + replace (O ∪ key_set self root_h []) with O by set_solver. done.
    + intros k. split; [by left|]. intros [?|Hk]; [done|]. set_solver.
  - simpl in Hwf. destruct Hwf as (Hhh & Hshape & Hwf).
    assert (Hcv : covers self U root_h (v, hh)).
    { rewrite Forall_app in Hcov. destruct Hcov as [_ Hc].
      by inversion Hc. }
    destruct (store_node_abs self Hok other U v hh root_h A X O HI Hcv)
      as (A1 & Hrun1 & HI1 & Hmono1 & Hpres1 & _).
    { destruct v as [s|refs]; [done|]. simpl in Hshape.
      destruct Hshape as (hh' & -> & Hf). exists hh'. split; [done|].
      eapply Forall_impl; [exact Hf|]. intros ref (v' & Hin & <-). split.
      - apply covers_child_ok; [|lia].
        rewrite Forall_app in Hcov. destruct Hcov as [Hc _].
        rewrite Forall_forall in Hc. by apply (Hc (v', hh')).
      - by apply (Hpre (v', hh')). }
    destruct (IH (pre ++ [(v, hh)]) A1 (O ∪ {[key_of self v hh root_h]}) HI1)
      as (A2 & Hrun2 & HI2 & Hmono2 & Hpres2).
    { intros c Hc. apply elem_of_app in Hc as [Hc|Hc].
      - apply Hpres1. left. by apply Hpre.
      - apply list_elem_of_singleton in Hc as ->. apply Hpres1. by right. }
    { by rewrite <- app_assoc. }
    { done. }
    exists A2. split; [|split; [|split]].
    + rewrite run_calls_cons. unfold bind. simpl. rewrite Hrun1. exact Hrun2.
    + replace (O ∪ key_set self root_h ((v, hh) :: rest))
        with (O ∪ {[key_of self v hh root_h]} ∪ key_set self root_h rest); [done|].
      unfold key_set. simpl. set_solver.
    + intros k c Hc. by apply Hmono2, Hmono1.
    + intros k. rewrite Hpres2, Hpres1. unfold key_set. simpl.
      set_solver.
Qed.

Lemma GInv_shrink A X O E :
  GInv self U A X O E → (∀ k, k ∈ O → (1 ≤ count A k)%Z) → GInv self U A X ∅ E.
Proof.
  intros [H1 H2 H3 H4 H5 H6] HO. split; try done.
  intros k Hk. rewrite (H4 k Hk). split.
  - intros [?|Hin]; [by left|]. left. by apply HO.
  - intros [?|Hin]; [by left|]. by apply not_elem_of_empty in Hin.
Qed.

Lemma GInv_inc A X O k :
  GInv self U A X O ∅ → is_Some (nodes A !! k) →
  GInv self U (set_count k (count A k + 1) A) (xadd X [k]) O ∅ ∧
  (1 ≤ count (set_count k (count A k + 1) A) k)%Z.
Proof.
  intros HI Hk. pose proof (count_nonneg self U A X O ∅ k HI) as Hnn.
  pose proof (GInv_keys_ok self Hok U _ _ _ _ HI) as HA.
  split; [|rewrite count_set_count, decide_True by done; lia].
  destruct HI as [H1 H2 H3 H4 H5 H6]. split.
  - done.
  - done.
  - intros k'. rewrite count_set_count. unfold xadd. simpl.
    rewrite (inedges_ext self U _ A ∅ ∅ k') by done.
    case_decide; subst; rewrite H3; lia.
  - intros k' Hk'. simpl. rewrite count_set_count.
    rewrite (H4 k' Hk'). case_decide; subst; [|done].
    split; [intros _; left; lia|]. intros _. by apply H4.
  - intros k' n. simpl. rewrite lookup_insert. case_decide; subst.
    + intros [= <-]. lia.
    + apply H5.
  - intros k'. simpl. rewrite lookup_insert. case_decide; subst.
    + intros _. by apply (proj1 HA).
    + apply H6.
Qed.

Lemma calls_wf_elem root_h post : ∀ pre c,
  calls_wf self root_h pre post → c ∈ post →
  c.2 ≤ root_h ∧ ∃ pre', call_shape self root_h pre' c.1 c.2.
Proof.
  induction post as [|c0 rest IH]; intros pre c Hwf Hin.
  - by apply elem_of_nil in Hin.
  - simpl in Hwf. destruct Hwf as (Hle & Hshape & Hwf).
    apply elem_of_cons in Hin as [->|Hin].
    + split; [done|]. by exists pre.
    + by apply (IH (pre ++ [c0])).
Qed.

Lemma call_shape_lengths root_h pre v hh :
  call_shape self root_h pre v hh →
  match v with
  | Leaf _ => hh = 0
  | Super refs => 0 < hh ∧ Forall (λ ref, length ref = R) refs
  end.
Proof.
  destruct v as [s|refs]; simpl; [done|].
  intros (hh' & -> & Hf). split; [lia|].
  eapply Forall_impl; [exact Hf|]. intros ref (v' & _ & <-).
  apply (key_of_length self Hok).
Qed.

(** After a content's nodes are stored and its root counted, the invariant
    holds again, with one more reference to the root. *)
Lemma put_abs m A X :
  Inv self U A X →
  covered self U m →
  (len m < 2 ^ 64)%Z →
  let h := _content_length_to_level self (len m) in
  let root := root_key self m in
  ∃ A',
    put_content_and_check_if_new self m false (heap_of A)
    = (Ok (handle_of self m, negb (bool_decide (is_Some (nodes A !! root)))), heap_of A') ∧
    Inv self U A' (xadd X [root]) ∧
    (∀ k c, nodes A !! k = Some c → nodes A' !! k = Some c) ∧
    is_Some (nodes A' !! root) ∧
    ref_ok self U h h root.
Proof.
  intros HI Hcovd Hlen h root. unfold covered in Hcovd. cbn zeta in Hcovd.
  fold h in Hcovd. destruct Hcovd as (calls & Hplan & Hcov).
  destruct (plan_shape self m h calls Hplan) as (Hwf & body & v & -> & Hadopt).
  destruct (put_chunk_plan self m h h _ Hplan) as (body' & v' & Heq & Hput).
  apply app_inj_tail in Heq as [<- [= <-]].
  assert (Hroot : root = key_of self v h h).
  { unfold root, root_key. cbn zeta. fold h. rewrite Hplan, last_snoc. done. }
  apply calls_wf_app in Hwf as [Hwf_body Hwf_root]. simpl in Hwf_root.
  destruct Hwf_root as (_ & Hshape_root & _).
  destruct (run_calls_abs X h body [] A ∅ HI) as (A1 & Hrun1 & HI1 & Hmono1 & Hpres1).
  { by intros c ?%elem_of_nil. }
  { simpl. by apply Forall_app in Hcov as [? _]. }
  { done. }
  assert (Hcv : covers self U h (v, h)).
  { apply Forall_app in Hcov as [_ Hc]. by inversion Hc. }
  destruct (store_node_abs self Hok other U v h h A1 X _ HI1 Hcv)
    as (A2 & Hrun2 & HI2 & Hmono2 & Hpres2 & _).
  { destruct v as [s|refs]; [done|]. simpl in Hshape_root.
    destruct Hshape_root as (hh' & Hh & Hf). exists hh'. split; [done|].
    eapply Forall_impl; [exact Hf|]. intros ref (v' & Hin & <-). split.
    - apply covers_child_ok; [|lia].
      apply Forall_app in Hcov as [Hc _]. rewrite Forall_forall in Hc.
      by apply (Hc (v', hh')).
    - apply Hpres1. right. apply elem_of_key_set. by exists (v', hh'). }
  rewrite <- Hroot in *.
  assert (Hroot2 : is_Some (nodes A2 !! root)) by (apply Hpres2; by right).
  destruct (GInv_inc A2 X _ root HI2 Hroot2) as [HI3 Hcount3].
  set (A3 := set_count root (count A2 root + 1) A2) in *.
  pose proof (GInv_keys_ok self Hok U _ _ _ _ HI2) as HA2.
  assert (HR : length root = R) by (rewrite Hroot; apply (key_of_length self Hok)).
  destruct (inc_conc self Hok other A2 root HA2 HR) as [n Hinc].
  assert (Hnew : bool_decide (is_Some (nodes A1 !! root))
                 = bool_decide (is_Some (nodes A !! root))).
  { apply bool_decide_ext. rewrite Hpres1. split; [|by left].
    intros [?|Hin]; [done|]. apply elem_of_key_set in Hin as ([v0 hh0] & Hin & Hk).
    (* a node below the root has another height than the root *)
    destruct (Hadopt _ Hin) as [Hlt _]. simpl in *.
    apply Forall_app in Hcov as [Hc _]. rewrite Forall_forall in Hc.
    specialize (Hc _ Hin). unfold covers in Hc, Hcv. simpl in Hc, Hcv.
    rewrite Hk, Hroot, Hcv in Hc. injection Hc as _ Hhh. lia. }
  exists A3. split; [|split; [|split; [|split]]].
  - unfold put_content_and_check_if_new. fold h. cbn zeta.
    unfold bind at 1. rewrite Hput. unfold bind at 1. rewrite Hrun1.
    rewrite Hrun2. cbn [fst snd]. unfold bind at 1. unfold bind at 1.
    rewrite Hinc. unfold ret at 1. unfold bind, lift, pack_content_reference.
    rewrite decide_True by (unfold len in *; lia).
    unfold ret. by rewrite Hnew.
  - apply (GInv_shrink A3 _ (key_set self h body ∪ {[root]})).
    { replace (key_set self h body ∪ {[root]})
        with (∅ ∪ key_set self h body ∪ {[root]}) by set_solver. done. }
    intros k Hk. apply elem_of_union in Hk as [Hk|Hk].
    + apply elem_of_key_set in Hk as ([v0 hh0] & Hin & Hk). simpl in Hk.
      destruct (Hadopt _ Hin) as [Hlt (refs & Hpar & Hkin)]. simpl in *.
      rewrite Hk in Hkin.
      set (kp := key_of self (Super refs) (S hh0) h).
      assert (Hcp : covers self U h (Super refs, S hh0)).
      { rewrite Forall_forall in Hcov. by apply Hcov. }
      assert (Hkp : is_Some (nodes A3 !! kp)).
      { simpl. apply elem_of_app in Hpar as [Hpar|Hpar].
        - apply Hpres2. left. apply Hpres1. right. apply elem_of_key_set.
          by exists (Super refs, S hh0).
        - apply list_elem_of_singleton in Hpar. injection Hpar as <- Hh.
          apply Hpres2. right. unfold kp. by rewrite Hh. }
      assert (Hcat : children_cat self U kp = refs).
      { apply (children_cat_covered self Hok U (Super refs) (S hh0) h Hcp).
        assert (Hin' : (Super refs, S hh0) ∈ body ++ [(v, h)]) by done.
        destruct (calls_wf_elem h (body ++ [(v, h)]) [] _
                    (proj2 (calls_wf_app self h [] body [(v, h)])
                       (conj Hwf_body (conj (Nat.le_refl h) (conj Hshape_root I)))) Hin')
          as (_ & pre' & Hsh).
        by apply call_shape_lengths in Hsh. }
      rewrite (inv_count _ _ _ _ _ _ HI3).
      assert (1 ≤ inedges self U A3 ∅ k); [|lia].
      unfold inedges.
      pose proof (msum_ge U
        (λ key, if live A3 ∅ key then occ k (children_cat self U key) else 0) kp) as Hge.
      simpl in Hge. rewrite live_empty, bool_decide_eq_true_2, Hcat in Hge by done.
      apply occ_pos in Hkin.
      assert (is_Some (U !! kp)) by (unfold covers in Hcp; simpl in Hcp; by eexists).
      specialize (Hge H). lia.
    + apply elem_of_singleton in Hk as ->. done.
  - intros k c Hc. simpl. by apply Hmono2, Hmono1.
  - done.
  - exists (serialize self v). unfold covers in Hcv. simpl in Hcv.
    rewrite Hroot. split; [done|]. unfold key_of. by rewrite Nat.eqb_refl.
Qed.

End PutAbs.


(** ** [get_content] on nodes and counts *)

Lemma map_res_ok {A B} (f : A → res B) (g : A → B) xs :
  Forall (λ x, f x = Ok (g x)) xs → map_res f xs = Ok (g <$> xs).
Proof.
  induction 1 as [|x xs Hx _ IH]; [done|]. simpl. by rewrite Hx, IH.
Qed.

Lemma over_chain_ok {B} (f : bytes → res B) (g : bytes → B) groups :
  Forall (λ k, f k = Ok (g k)) (mjoin groups) →
  over_chain f (Some <$> groups) = Ok (g <$> mjoin groups).
Proof.
  induction groups as [|ks groups IH]; [done|].
  cbn [mjoin list_join]. rewrite Forall_app. intros [Hks Hrest]. csimpl.
  rewrite (map_res_ok f g ks Hks). simpl. rewrite IH by done. simpl.
  by rewrite fmap_app.
Qed.

Lemma join_fmap_join {A B} (f : B → list A) (g : bytes → list B) ks :
  mjoin (f <$> mjoin (g <$> ks)) = mjoin ((λ k, mjoin (f <$> g k)) <$> ks).
Proof.
  induction ks as [|k ks IH]; [done|]. csimpl.
  by rewrite fmap_app, join_app, IH.
Qed.

Section GetAbs.

Context (self : SecCSLite) (Hok : engine_ok self) (other : db).
Context (U : gmap bytes (bytes * nat)).
Context (A : astate) (X : bytes → nat) (O : gset bytes).
Context (HI : GInv self U A X O ∅).

Local Abbreviation R := (_R self).
Local Abbreviation heap_of := (conc self other).

Lemma child_ok_ref_ok root_h h ref :
  h < root_h → child_ok self U h ref → ref_ok self U root_h h ref.
Proof.
  intros Hlt (p & HU & Hk). exists p. split; [done|].
  replace (h =? root_h) with false; [done|]. symmetry. apply Nat.eqb_neq. lia.
Qed.

Lemma children_present k p h :
  is_Some (nodes A !! k) → U !! k = Some (p, S h) →
  Forall (λ ref, child_ok self U h ref ∧ is_Some (nodes A !! ref))
         (children_cat self U k).
Proof.
  intros Hk HU.
  destruct (inv_children _ _ _ _ _ _ HI k p h Hk HU) as (refs & Hsplit & Hf).
  assert (Hcat : children_cat self U k = refs).
  { unfold children_cat. by rewrite HU, Hsplit. }
  rewrite Hcat. apply Forall_forall. intros ref Href.
  rewrite Forall_forall in Hf. split; [by apply Hf|].
  apply (inv_present _ _ _ _ _ _ HI ref); [set_solver|]. left.
  rewrite (inv_count _ _ _ _ _ _ HI).
  assert (1 ≤ inedges self U A ∅ ref); [|lia]. unfold inedges.
  pose proof (msum_ge U
    (λ key, if live A ∅ key then occ ref (children_cat self U key) else 0) k) as Hge.
  simpl in Hge. rewrite live_empty, bool_decide_eq_true_2, Hcat in Hge by done.
  apply occ_pos in Href.
  assert (is_Some (U !! k)) by (by eexists). specialize (Hge H). lia.
Qed.

Lemma get_node_good root_h h k l :
  good self U A root_h h k →
  get_node_db self (kvs (heap_of A)) k h root_h (-1)
  = Ok (Some (if 0 <? h then Super (children_cat self U k)
              else Leaf (expand self U 0 k))) ∧
  get_node_db self (kvs (heap_of A)) k h root_h l
  = get_node_db self (node_part A) k h root_h l.
Proof.
  intros [[c Hc] (p & HU & Hk)].
  pose proof (GInv_keys_ok self Hok U _ _ _ _ HI) as HA.
  assert (Hlen : length k = R) by (apply (proj1 HA); by eexists).
  split; [|by apply get_node_conc].
  rewrite (get_node_conc self Hok other) by done.
  destruct (get_node_valid self Hok U A X O ∅ k p h c root_h HI Hc HU Hk)
    as (n & Hget & ->).
  rewrite Hget. simpl. by rewrite HU.
Qed.

Lemma get_levels_abs root_h h : ∀ groups,
  h ≤ root_h →
  Forall (good self U A root_h h) (mjoin groups) →
  ∃ groups',
    get_levels self (kvs (heap_of A)) h root_h (Some <$> groups) = Ok (Some <$> groups') ∧
    Forall (good self U A root_h 0) (mjoin groups') ∧
    mjoin (expand self U 0 <$> mjoin groups') = mjoin (expand self U h <$> mjoin groups).
Proof.
  induction h as [|h IH]; intros groups Hle Hgood.
  - exists groups. done.
  - cbn [get_levels].
    rewrite (over_chain_ok _ (λ k, Some (Super (children_cat self U k)))).
    2:{ eapply Forall_impl; [exact Hgood|]. intros k Hk.
        by destruct (get_node_good root_h (S h) k (-1) Hk) as [-> _]. }
    cbn [res_bind].
    destruct (IH (children_cat self U <$> mjoin groups)) as (groups' & Hrun & Hg' & Hexp).
    { lia. }
    { apply Forall_forall. intros ref Href.
      apply list_elem_of_join in Href as (refs & Href & Hrefs).
      apply list_elem_of_fmap in Hrefs as (k & -> & Hk).
      rewrite Forall_forall in Hgood. destruct (Hgood k Hk) as [Hpres (p & HU & _)].
      pose proof (children_present k p h Hpres HU) as Hch.
      rewrite Forall_forall in Hch. destruct (Hch ref Href) as [Hc Hp].
      split; [done|]. apply child_ok_ref_ok; [lia|done]. }
    exists groups'. split; [|split; [done|]].
    + rewrite <- Hrun. f_equal. rewrite <- !list_fmap_compose.
      apply list_fmap_ext. done.
    + rewrite Hexp. apply join_fmap_join.
Qed.

Lemma get_chunk_abs h k l :
  good self U A h h k →
  get_chunk_db self (kvs (heap_of A)) k h h l = Ok (expand self U h k).
Proof.
  intros Hk. unfold get_chunk_db.
  destruct (get_levels_abs h h [[k]]) as (groups' & Hrun & Hg' & Hexp).
  { done. }
  { simpl. by apply Forall_singleton. }
  change [Some [k]] with (Some <$> [[k]]). rewrite Hrun. simpl.
  rewrite (over_chain_ok _ (λ k, Some (Leaf (expand self U 0 k)))).
  2:{ eapply Forall_impl; [exact Hg'|]. intros k' Hk'.
      by destruct (get_node_good h 0 k' (-1) Hk') as [-> _]. }
  cbn [res_bind]. unfold join_leaves.
  rewrite (map_res_ok _ (λ n, match n with Some (Leaf s) => s | _ => [] end)).
  2:{ apply Forall_fmap, Forall_forall. by intros. }
  cbn [res_bind]. f_equal. rewrite <- list_fmap_compose.
  change (mjoin [[k]]) with [k] in Hexp.
  assert (Hone : mjoin (expand self U h <$> [k]) = expand self U h k)
    by (csimpl; apply app_nil_r).
  rewrite <- Hone, <- Hexp. f_equal.
Qed.

End GetAbs.


(** ** The content of a plan *)

Lemma py_slice_take m s e :
  (0 ≤ s ≤ e)%Z → (e ≤ len m)%Z →
  take (Z.to_nat s) m ++ py_slice m s e = take (Z.to_nat e) m.
Proof.
  intros Hs He. unfold py_slice, py_index.
  destruct (Z.ltb_spec s 0); [lia|]. destruct (Z.ltb_spec e 0); [lia|].
  rewrite !Z.min_l by lia. rewrite take_take_drop. f_equal. lia.
Qed.

Lemma ascending_le p l n : ascending p l n → (p ≤ n)%Z → Forall (λ b, (b.1 ≤ n)%Z) l.
Proof.
  revert p. induction l as [|b l IH]; intros p; simpl; [done|].
  intros (Hb & _ & Hl) Hp. constructor; [lia|]. apply (IH b.1); [done|lia].
Qed.

Lemma ascending_snoc p l x n :
  ascending p l n → (p ≤ n)%Z → x.1 = n → (0 ≤ x.2)%Z → ascending p (l ++ [x]) n.
Proof.
  revert p. induction l as [|b l IH]; intros p; simpl.
  - intros _ Hp Hx Hlv. split; [lia|]. done.
  - intros (Hb & Hlv & Hl) Hp Hx Hx2. split; [done|]. split; [done|].
    apply IH; [done|lia|done|done].
Qed.

Lemma ascending_removelast p l n : ascending p l n → ascending p (removelast l) n.
Proof.
  revert p. induction l as [|b l IH]; intros p; [done|].
  intros (Hb & Hlv & Hl). destruct l as [|b' l']; [done|].
  change (removelast (b :: b' :: l')) with (b :: removelast (b' :: l')).
  simpl. split; [done|]. split; [done|]. by apply IH.
Qed.

Lemma list_last_cons {A} (a d : A) l : List.last (a :: l) d = List.last l a.
Proof.
  revert a d. induction l as [|b l IH]; intros a d; [done|].
  change (List.last (a :: b :: l) d) with (List.last (b :: l) d).
  rewrite !IH. done.
Qed.

Section PlanContent.

Context (self : SecCSLite) (Hok : engine_ok self).
Context (U : gmap bytes (bytes * nat)).

Local Abbreviation R := (_R self).
Local Abbreviation lc := (level_content self U).
Local Abbreviation content := (cont self U).

Lemma expand_S h k :
  expand self U (S h) k = mjoin (expand self U h <$> children_cat self U k).
Proof. reflexivity. Qed.

#[local] Arguments expand : simpl never.

Lemma boundaries_of_shape m h :
  chunker_ok self m → _content_length_to_level self (len m) = h → 0 < h →
  let x := (len m, (Z.of_nat h - 1)%Z) in
  (boundaries_of self m h = [x] ∧ len m = 0%Z) ∨
  (∃ b B, boundaries_of self m h = (b :: B) ++ [x] ∧ b.1 = 0%Z ∧
          ascending 0 B (len m)).
Proof.
  unfold chunker_ok. intros Hasc Hh Hpos. rewrite Hh in Hasc.
  set (x := (len m, (Z.of_nat h - 1)%Z)).
  unfold boundaries_of. cbn zeta. fold x.
  set (out := create_multilevel_chunker _ _ _ _) in *.
  destruct (decide _) as [Heq|Hne].
  - destruct out as [|o out'].
    + left. simpl in Heq. split; [done|]. lia.
    + right. exists (0%Z, (Z.of_nat h - 1)%Z), (removelast (o :: out')).
      split; [done|]. split; [done|]. by apply ascending_removelast.
  - right. exists (0%Z, (Z.of_nat h - 1)%Z), out. done.
Qed.

Lemma lc_insert_ne nl i j x : i ≠ j → lc (<[i := x]> nl) j = lc nl j.
Proof. intros Hne. unfold level_content. by rewrite list_lookup_insert_ne. Qed.

Lemma lc_insert_eq nl i refs :
  i < length nl → lc (<[i := Super refs]> nl) i = mjoin (expand self U (i - 1) <$> refs).
Proof. intros Hi. unfold level_content. by rewrite list_lookup_insert_eq. Qed.

Lemma cont_ext nl nl' n :
  (∀ i, 1 ≤ i ≤ n → lc nl' i = lc nl i) → content nl' n = content nl n.
Proof.
  induction n as [|n IH]; intros H; [done|]. cbn [cont].
  rewrite H by lia. rewrite IH; [done|]. intros i Hi. apply H. lia.
Qed.

Lemma cont_snoc1 nl nl' n D :
  1 ≤ n →
  (∀ i, 2 ≤ i ≤ n → lc nl' i = lc nl i) →
  lc nl' 1 = lc nl 1 ++ D →
  content nl' n = content nl n ++ D.
Proof.
  induction n as [|n IH]; intros Hn Hsame H1; [lia|]. cbn [cont].
  destruct n as [|n'].
  - simpl. rewrite H1. by rewrite !app_nil_r.
  - rewrite Hsame by lia. rewrite IH; [by rewrite app_assoc|lia| |done].
    intros i Hi. apply Hsame. lia.
Qed.

Lemma cont_move nl nl' j n :
  1 ≤ j → j + 1 ≤ n →
  (∀ i, 1 ≤ i ≤ n → i ≠ j → i ≠ j + 1 → lc nl' i = lc nl i) →
  lc nl' (j + 1) = lc nl (j + 1) ++ lc nl j →
  lc nl' j = [] →
  content nl' n = content nl n.
Proof.
  intros Hj. induction n as [|n IH]; intros Hn Hsame Hup Hdown; [lia|].
  cbn [cont]. destruct (decide (S n = j + 1)) as [Heq|Hne].
  - assert (n = j) as -> by lia. destruct j as [|j']; [lia|].
    cbn [cont]. replace (S j' + 1) with (S (S j')) in Hup by lia.
    rewrite Hup, Hdown. simpl. rewrite <- app_assoc. f_equal. f_equal.
    apply cont_ext. intros i Hi. apply Hsame; lia.
  - rewrite Hsame by lia. rewrite IH; [done|lia| |done|done].
    intros i Hi. apply Hsame. lia.
Qed.

Lemma expand_covered v hh root_h :
  covers self U root_h (v, hh) →
  match v with
  | Leaf _ => hh = 0
  | Super refs => 0 < hh ∧ Forall (λ ref, length ref = R) refs
  end →
  expand self U hh (key_of self v hh root_h)
  = match v with
    | Leaf s => s
    | Super refs => mjoin (expand self U (hh - 1) <$> refs)
    end.
Proof.
  intros Hc Hshape. unfold covers in Hc. simpl in Hc.
  destruct v as [s|refs].
  - subst hh. unfold expand. by rewrite Hc.
  - destruct Hshape as [Hpos Hlen]. destruct hh as [|hh']; [lia|].
    rewrite expand_S.
    rewrite (children_cat_covered self Hok U (Super refs) (S hh') root_h Hc) by done.
    by rewrite Nat.sub_succ, Nat.sub_0_r.
Qed.

Lemma plan_level_cont h j nl acc nl' c :
  PI self h nl acc →
  plan_level self h j nl = Ok (nl', c) →
  covers self U h c →
  (j = 0 → ∃ s, nl !! 0 = Some (Leaf s)) →
  content nl' h = content nl h ++
    match j, nl !! 0 with
    | 0, Some (Leaf s) => s
    | _, _ => []
    end.
Proof.
  intros HPI Hplan Hcov Hleaf. pose proof Hplan as Hplan'.
  unfold plan_level in Hplan.
  destruct (nl !! (j + 1)) as [[s|refs]|] eqn:E1; try done.
  destruct (nl !! j) as [v|] eqn:E0; [|done].
  injection Hplan as <- <-.
  assert (Hlt : j < h). { apply lookup_lt_Some in E1. destruct HPI. lia. }
  pose proof (pi_len _ _ _ _ HPI) as Hlen.
  destruct j as [|j].
  - destruct Hleaf as [s Hs]; [done|]. rewrite Hs in E0.
    injection E0 as <-. rewrite Hs.
    apply cont_snoc1; [lia| |].
    + intros i Hi. by rewrite !lc_insert_ne by lia.
    + rewrite lc_insert_ne by lia. change (0 + 1) with 1 in *.
      rewrite lc_insert_eq by lia.
      unfold level_content. rewrite E1. rewrite fmap_app, join_app. f_equal.
      csimpl. rewrite app_nil_r.
      by rewrite (expand_covered (Leaf s) 0 h Hcov).
  - rewrite app_nil_r.
    destruct (pi_buf _ _ _ _ HPI (S j)) as (refs_j & Hl & Hf); [lia|].
    rewrite Hl in E0. injection E0 as <-.
    apply (cont_move _ _ (S j)); [lia|lia| | |].
    + intros i Hi Hn1 Hn2. by rewrite !lc_insert_ne by lia.
    + rewrite lc_insert_ne by lia. rewrite lc_insert_eq by lia.
      unfold level_content at 1 2. rewrite E1, Hl.
      rewrite fmap_app, join_app. f_equal. csimpl. rewrite app_nil_r.
      replace (j + 1 - 0) with (S j) by lia. replace (j - 0) with j by lia.
      rewrite (expand_covered (Super refs_j) (S j) h Hcov);
        [by rewrite Nat.sub_succ, Nat.sub_0_r|].
      split; [lia|]. eapply Forall_impl; [exact Hf|].
      intros ref (v' & _ & <-). apply (key_of_length self Hok).
    + rewrite lc_insert_eq; [done|]. rewrite length_insert. lia.
Qed.

Lemma plan_levels_cont h n : ∀ j nl acc nl' cs,
  PI self h nl acc →
  plan_levels self h (seq j n) nl = Ok (nl', cs) →
  Forall (covers self U h) cs →
  (j = 0 → 0 < n → ∃ s, nl !! 0 = Some (Leaf s)) →
  content nl' h = content nl h ++
    match j, n, nl !! 0 with
    | 0, S _, Some (Leaf s) => s
    | _, _, _ => []
    end.
Proof.
  induction n as [|n IH]; intros j nl acc nl' cs HPI; simpl.
  - intros [= <- <-] _ _. destruct j; by rewrite app_nil_r.
  - destruct (plan_level self h j nl) as [[nl1 c]|e] eqn:E1; [|done]. simpl.
    destruct (plan_levels self h (seq (S j) n) nl1) as [[nl2 cs2]|e] eqn:E2; [|done].
    simpl. intros [= <- <-] Hcov Hleaf.
    inversion Hcov as [|?? Hc Hcs]; subst.
    destruct (plan_level_PI self h j nl acc nl1 c HPI) as (HPI1 & _ & _);
      [intros ->; apply Hleaf; [done|lia]|done|].
    rewrite (IH (S j) nl1 (acc ++ [c]) nl2 cs2 HPI1 E2 Hcs) by done.
    rewrite app_nil_r.
    rewrite (plan_level_cont h j nl acc nl1 c HPI E1 Hc)
      by (intros ->; apply Hleaf; [done|lia]).
    by destruct j.
Qed.

Lemma cont_set_leaf nl s n : content (<[0 := Leaf s]> nl) n = content nl n.
Proof. apply cont_ext. intros i Hi. apply lc_insert_ne. lia. Qed.

Lemma plan_chunks_cont m h : ∀ rest b nl acc nl' cs,
  PI self h nl acc →
  plan_chunks self m h (zip (b :: rest) rest) nl = Ok (nl', cs) →
  Forall (covers self U h) cs →
  (0 ≤ b.1)%Z → ascending b.1 rest (len m) →
  content nl h = take (Z.to_nat b.1) m →
  content nl' h = take (Z.to_nat (List.last rest b).1) m.
Proof.
  induction rest as [|b1 rest IH]; intros b nl acc nl' cs HPI.
  - simpl. by intros [= <- <-].
  - destruct b as [s lv], b1 as [e bh].
    change (zip ((s, lv) :: (e, bh) :: rest) ((e, bh) :: rest))
      with (((s, lv), (e, bh)) :: zip ((e, bh) :: rest) rest).
    cbn [plan_chunks].
    destruct (plan_levels self h _ _) as [[nl1 cs1]|err] eqn:E1; [|done].
    cbn [res_bind fst snd].
    destruct (plan_chunks self m h _ nl1) as [[nl2 cs2]|err] eqn:E2; [|done].
    cbn [res_bind fst snd]. intros [= <- <-] Hcov Hs Hasc Hcont.
    simpl in Hs, Hasc, Hcont. destruct Hasc as (Hse & Hbh & Hasc).
    apply Forall_app in Hcov as [Hcov1 Hcov2].
    pose proof (PI_set_leaf self h nl acc (py_slice m s e) HPI) as HPI0.
    assert (Hleaf0 : (<[0 := Leaf (py_slice m s e)]> nl) !! 0
                     = Some (Leaf (py_slice m s e))).
    { apply list_lookup_insert_eq. rewrite (pi_len _ _ _ _ HPI). lia. }
    destruct (plan_levels_PI self h (Z.to_nat (bh + 1)) 0 _ acc nl1 cs1 HPI0)
      as (HPI1 & _ & _); [by eexists|exact E1|].
    pose proof (plan_levels_cont h _ 0 _ acc nl1 cs1 HPI0 E1 Hcov1) as Hc1.
    rewrite Hleaf0 in Hc1.
    destruct (Z.to_nat (bh + 1)) as [|n'] eqn:En; [lia|].
    rewrite cont_set_leaf, Hcont in Hc1.
    rewrite py_slice_take in Hc1 by lia.
    specialize (Hc1 ltac:(by eexists)).
    rewrite list_last_cons.
    apply (IH (e, bh) nl1 (acc ++ cs1) nl2 cs2 HPI1 E2 Hcov2); simpl; [lia|done|done].
Qed.

(** The root of a content's plan stands for the content. *)
Lemma plan_content m :
  covered self U m → chunker_ok self m →
  expand self U (_content_length_to_level self (len m)) (root_key self m) = m.
Proof.
  intros Hcovd Hchunk. unfold covered in Hcovd. cbn zeta in Hcovd.
  set (h := _content_length_to_level self (len m)) in *.
  destruct Hcovd as (calls & Hplan & Hcov).
  unfold root_key. cbn zeta. fold h. rewrite Hplan.
  pose proof Hplan as Hplan'. unfold plan in Hplan.
  destruct h as [|h'] eqn:Eh.
  - injection Hplan as <-. simpl last. cbn [fst snd].
    inversion Hcov as [|?? Hc _]; subst.
    by rewrite (expand_covered (Leaf m) 0 0 Hc).
  - destruct (plan_chunks self m (S h') _ _) as [[nl cs]|err] eqn:E; [|done].
    cbn [res_bind fst snd] in Hplan.
    destruct (nl !! S h') as [v|] eqn:Ev; [|done]. injection Hplan as <-.
    rewrite last_snoc. cbn [fst snd].
    apply Forall_app in Hcov as [Hcov_body Hcov_root].
    inversion Hcov_root as [|?? Hc _]; subst.
    assert (HPI0 : PI self (S h') (replicate (S h' + 1) (Super [])) []).
    { split.
      - by rewrite length_replicate.
      - intros j Hj. exists []. split; [|done].
        apply lookup_replicate. split; [done|lia].
      - by intros v0 hh ?%elem_of_nil.
      - done. }
    destruct (plan_chunks_PI self m (S h') _ _ [] nl cs HPI0 E) as (HPI & Hlast).
    simpl in HPI.
    destruct (pi_buf _ _ _ _ HPI (S h')) as (refs_h & Hrh & Hfh); [lia|].
    rewrite Hrh in Ev. injection Ev as <-.
    rewrite (expand_covered (Super refs_h) (S h') (S h') Hc).
    2:{ split; [lia|]. eapply Forall_impl; [exact Hfh|].
        intros ref (v' & _ & <-). apply (key_of_length self Hok). }
    assert (Hcont0 : ∀ n, content (replicate (S h' + 1) (Super [])) n = []).
    { induction n as [|n IHn]; [done|]. cbn [cont]. rewrite IHn.
      unfold level_content.
      destruct (replicate (S h' + 1) (Super []) !! S n) as [v0|] eqn:Er; [|done].
      apply lookup_replicate in Er as [-> _]. done. }
    assert (Hall : content nl (S h') = m ∧
                   ∀ i, 1 ≤ i < S h' → nl !! i = Some (Super [])).
    { destruct (boundaries_of_shape m (S h') Hchunk Eh) as [[Hb H0]|(b & B & Hb & Hb0 & Hasc)];
        [lia| |].
      - rewrite Hb in E. cbn [tail zip_with plan_chunks] in E.
        injection E as <- <-. split.
        + change (Super [] :: replicate (h' + 1) (Super []))
            with (replicate (S h' + 1) (Super [])).
          rewrite Hcont0. unfold len in H0. destruct m; [done|simpl in H0; lia].
        + intros i Hi.
          change (Super [] :: replicate (h' + 1) (Super []))
            with (replicate (S h' + 1) (Super [])).
          apply lookup_replicate. split; [done|lia].
      - rewrite Hb in E, Hlast. simpl tail in E, Hlast. split.
        + rewrite (plan_chunks_cont m (S h') (B ++ [(len m, (Z.of_nat (S h') - 1)%Z)])
                     b _ [] nl cs HPI0 E Hcov_body).
          * rewrite last_last. simpl. unfold len. rewrite Nat2Z.id.
            by rewrite take_ge.
          * lia.
          * rewrite Hb0. apply ascending_snoc; [done|unfold len; lia|done|simpl; lia].
          * rewrite Hb0. by rewrite Hcont0.
        + intros i Hi.
          destruct (last_zip_tail b B (len m, (Z.of_nat (S h') - 1)%Z)) as [y Hy].
          apply (Hlast _ Hy i). simpl. lia. }
    destruct Hall as [Hm Hflush]. rewrite <- Hm.
    cbn [cont]. unfold level_content at 1. rewrite Hrh.
    replace (S h' - 1) with h' by lia.
    rewrite (cont_ext (replicate (S h' + 1) (Super [])) nl h').
    + by rewrite Hcont0, app_nil_r.
    + intros i Hi. unfold level_content. rewrite Hflush by lia.
      destruct (replicate (S h' + 1) (Super []) !! i) as [v0|] eqn:Er; [|done].
      apply lookup_replicate in Er as [-> _]. done.
Qed.

End PlanContent.


(** ** Round trip and repeated insertion *)

Lemma init_ok chunk_size cw chunking rco lfn hfn :
  (2 * Z.of_nat (DIGEST_SIZE cw) ≤ chunk_size)%Z →
  ∃ self, __init__ chunk_size cw chunking rco lfn hfn = Ok self ∧
          _R self = DIGEST_SIZE cw ∧ _crypto_wrapper self = cw ∧
          _chunking_strategy self = chunking ∧
          _content_length_to_level self = lfn ∧
          _reference_counter self
          = default (RC.KeySuffixDatabaseReferenceCounter EngineDb ["r"%char]) rco.
Proof.
  intros HS. unfold __init__. rewrite decide_False by lia.
  eexists. split; [done|]. simpl. by destruct rco.
Qed.

Lemma conc_empty self other : conc self other (AState ∅ ∅) = Heap ∅ match database_of (_reference_counter self) with Some OwnDb => ∅ | _ => other end.
Proof.
  unfold conc, node_part, count_part. simpl.
  rewrite !fmap_empty. rewrite kmap_empty by apply _.
  destruct (database_of _) as [[]|]; try done.
Qed.

Lemma Inv_empty self U : Inv self U (AState ∅ ∅) (λ _, 0).
Proof.
  split.
  - intros k c. simpl. by rewrite lookup_empty.
  - intros k p h [c Hc]. simpl in Hc. by rewrite lookup_empty in Hc.
  - intros k. unfold count. simpl. rewrite lookup_empty. simpl.
    unfold inedges. rewrite msum_zero; [done|]. intros key _.
    rewrite live_empty. simpl. rewrite lookup_empty.
    by rewrite bool_decide_eq_false_2 by (by intros []).
  - intros k _. simpl. rewrite lookup_empty. unfold count. simpl.
    rewrite lookup_empty. simpl. split; [by intros []|].
    intros [?|?]; [lia|set_solver].
  - intros k n. simpl. by rewrite lookup_empty.
  - intros k [n Hn]. simpl in Hn. by rewrite lookup_empty in Hn.
Qed.

Lemma wf_heap_empty self U : wf_heap self U (Heap ∅ ∅) (λ _, 0).
Proof.
  exists ∅, (AState ∅ ∅). split; [|apply Inv_empty].
  rewrite conc_empty. by destruct (database_of _) as [[]|].
Qed.

Section RoundTrip.

Context (self : SecCSLite) (Hok : engine_ok self).
Context (U : gmap bytes (bytes * nat)).

Lemma root_key_length m : covered self U m → length (root_key self m) = _R self.
Proof.
  intros (calls & Hplan & _). unfold root_key. cbn zeta. rewrite Hplan.
  destruct (plan_shape self m _ calls Hplan) as (_ & body & v & -> & _).
  rewrite last_snoc. apply (key_of_length self Hok).
Qed.

Lemma pack_handle_of m :
  covered self U m → (len m < 2 ^ 64)%Z →
  pack_content_reference (_R self) (root_key self m) (len m) = Ok (handle_of self m) ∧
  unpack_content_reference (_R self) (handle_of self m) = Ok (root_key self m, len m).
Proof.
  intros Hc Hlen.
  assert (Hp : pack_content_reference (_R self) (root_key self m) (len m)
               = Ok (handle_of self m)).
  { unfold pack_content_reference. rewrite decide_True by (unfold len in *; lia). done. }
  split; [done|].
  rewrite (unpack_pack_content_reference _ _ _ _ Hp).
  by rewrite pack_s_id by (by apply root_key_length).
Qed.

(** [put_content] on a well-formed heap succeeds, and what it stores is
    retrieved by [get_content]. *)
Lemma put_get σ X m :
  wf_heap self U σ X → covered self U m → chunker_ok self m → (len m < 2 ^ 64)%Z →
  ∃ is_new σ',
    put_content_and_check_if_new self m false σ = (Ok (handle_of self m, is_new), σ') ∧
    wf_heap self U σ' (xadd X [root_key self m]) ∧
    get_content self (handle_of self m) σ' = (Ok m, σ').
Proof.
  intros (other & A & -> & HI) Hcov Hchunk Hlen.
  destruct (put_abs self Hok other U m A X HI Hcov Hlen)
    as (A' & Hput & HI' & Hmono & Hroot & Hrok).
  eexists _, _. split; [exact Hput|]. split; [by exists other, A'|].
  destruct (pack_handle_of m Hcov Hlen) as [Hp _].
  rewrite (get_content_packed self _ _ _ _ Hp).
  rewrite pack_s_id by (by apply root_key_length).
  rewrite (get_chunk_abs self Hok other U A' _ ∅ HI').
  - by rewrite (plan_content self Hok U m Hcov Hchunk).
  - done.
Qed.

(** Two insertions in a row: the same handle, and [False] the second
    time; the first time it is [True] exactly when the root node was not in
    the backend. *)
Lemma put_put σ X m :
  wf_heap self U σ X → covered self U m → (len m < 2 ^ 64)%Z →
  ∃ is_new σ1 σ2,
    put_content_and_check_if_new self m false σ = (Ok (handle_of self m, is_new), σ1) ∧
    put_content_and_check_if_new self m false σ1 = (Ok (handle_of self m, false), σ2) ∧
    (is_new = true ↔ kvs σ !! root_key self m = None).
Proof.
  intros (other & A & -> & HI) Hcov Hlen.
  destruct (put_abs self Hok other U m A X HI Hcov Hlen)
    as (A1 & Hput1 & HI1 & Hmono1 & Hroot1 & Hrok1).
  destruct (put_abs self Hok other U m A1 _ HI1 Hcov Hlen)
    as (A2 & Hput2 & HI2 & Hmono2 & Hroot2 & Hrok2).
  eexists _, _, _. split; [exact Hput1|]. split.
  - rewrite Hput2. by rewrite bool_decide_eq_true_2.
  - rewrite (kvs_conc self Hok other A (root_key self m)
               (GInv_keys_ok self Hok U _ _ _ _ HI) (root_key_length m Hcov)).
    rewrite negb_true_iff, bool_decide_eq_false.
    rewrite fmap_None. split.
    + intros Hn. destruct (nodes A !! root_key self m) eqn:E; [|done].
      destruct Hn. by eexists.
    + intros -> []. done.
Qed.

End RoundTrip.

(** C1, as the code has it: an engine constructed with target chunk size
    [S >= 2R] stores a content so that [get_content] on the handle
    [put_content] returns yields the content again, for every crypto
    wrapper that returns the plaintext when it unwraps what it wrapped
    without being given a length (the engine unwraps with length [-1]
    throughout), provided the chunker cuts the content into consecutive
    slices, no two nodes at hand share a digest, and the dictionaries are
    in a well-formed state. *)
Theorem put_get_round_trip
    (chunk_size : Z) (cw : CryptoWrapper) (chunking : ChunkingStrategy)
    (rco : option RC.reference_counter) (lfn : Z → nat) (hfn : option (nat → Z)) :
  (2 * Z.of_nat (DIGEST_SIZE cw) ≤ chunk_size)%Z →
  ∃ self, __init__ chunk_size cw chunking rco lfn hfn = Ok self ∧
    ∀ U σ X m,
      engine_ok self → wf_heap self U σ X →
      covered self U m → chunker_ok self m → (len m < 2 ^ 64)%Z →
      ∃ handle σ',
        put_content self m false σ = (Ok handle, σ') ∧
        get_content self handle σ' = (Ok m, σ').
Proof.
  intros HS. destruct (init_ok chunk_size cw chunking rco lfn hfn HS) as (self & Hinit & _).
  exists self. split; [done|]. intros U σ X m Hok Hwf Hcov Hchunk Hlen.
  destruct (put_get self Hok U σ X m Hwf Hcov Hchunk Hlen) as (b & σ' & Hput & _ & Hget).
  exists (handle_of self m), σ'. split; [|done].
  unfold put_content, bind. by rewrite Hput.
Qed.

(** C7, as the code has it: inserting the same content twice in a row
    yields the same handle both times, and [is_new] is [False] the second
    time; the first time it is [True] exactly when the content's root node
    was not yet in the backend. *)
Theorem put_twice_same_handle
    (self : SecCSLite) (U : gmap bytes (bytes * nat)) (σ : heap) (X : bytes → nat)
    (m : bytes) :
  engine_ok self → wf_heap self U σ X → covered self U m → (len m < 2 ^ 64)%Z →
  ∃ handle is_new σ1 σ2,
    put_content_and_check_if_new self m false σ = (Ok (handle, is_new), σ1) ∧
    put_content_and_check_if_new self m false σ1 = (Ok (handle, false), σ2) ∧
    (is_new = true ↔ kvs σ !! root_key self m = None).
Proof.
  intros Hok Hwf Hcov Hlen.
  destruct (put_put self Hok U σ X m Hwf Hcov Hlen) as (b & σ1 & σ2 & H).
  by exists (handle_of self m), b, σ1, σ2.
Qed.


(** ** The small instances keep the contracts *)

Lemma toy_engine_ok cw rco :
  cw = Toy.wrapper false ∨ cw = Toy.wrapper true ∨ cw = Toy.null_wrapper →
  rco = None ∨ rco = Some (RC.DatabaseReferenceCounter OwnDb) →
  engine_ok (Toy.get_engine (Toy.engine_of cw rco) Toy.fallback).
Proof.
  intros Hcw Hrc.
  assert (Heng : ∃ self, Toy.engine_of cw rco = Ok self ∧
                 _R self = 4 ∧ _crypto_wrapper self = cw ∧
                 _reference_counter self
                 = default (RC.KeySuffixDatabaseReferenceCounter EngineDb ["r"%char]) rco).
  { unfold Toy.engine_of.
    destruct (init_ok 8 cw Toy.chunking rco Toy.length_to_height_fn None)
      as (self & Hinit & HR & Hw & _ & _ & Hr).
    - destruct Hcw as [->|[->| ->]]; simpl; lia.
    - exists self. rewrite HR. split; [done|]. split; [|done].
      by destruct Hcw as [->|[->| ->]]. }
  destruct Heng as (self & -> & HR & Hw & Hr). simpl. split.
  - rewrite HR. lia.
  - intros p h r. rewrite HR, Hw. by destruct Hcw as [->|[->| ->]].
  - intros p h r r' Hd. rewrite Hw in *.
    destruct Hcw as [->|[->| ->]]; simpl in *; by rewrite decide_True.
  - unfold rc_ok. rewrite Hr. by destruct Hrc as [->| ->].
Qed.

Lemma toy_test_engine_ok dr : engine_ok (Toy.test_engine (Toy.wrapper dr)).
Proof.
  apply toy_engine_ok; [|by right]. destruct dr; [right; by left|by left].
Qed.

Lemma toy_default_engine_ok dr : engine_ok (Toy.default_engine (Toy.wrapper dr)).
Proof.
  apply toy_engine_ok; [|by left]. destruct dr; [right; by left|by left].
Qed.

(** Local definitions of a goal are unfolded before it is evaluated. *)
Ltac unlet := repeat match goal with x := _ |- _ => subst x end.

Lemma put_get_round_trip_witness :
  let m := Toy.s "ab,cd;ef,gh,ab,ab,ab;" in
  ∃ self,
    __init__ 8 (Toy.wrapper false) Toy.chunking
      (Some (RC.DatabaseReferenceCounter OwnDb)) Toy.length_to_height_fn None
    = Ok self ∧
    ∃ handle σ',
      put_content self m false Toy.empty = (Ok handle, σ') ∧
      get_content self handle σ' = (Ok m, σ').
Proof.
  intros m.
  destruct (put_get_round_trip 8 (Toy.wrapper false) Toy.chunking
              (Some (RC.DatabaseReferenceCounter OwnDb)) Toy.length_to_height_fn None)
    as (self & Hinit & Hrt); [simpl; lia|].
  exists self. split; [exact Hinit|].
  assert (Hself : self = Toy.test_engine (Toy.wrapper false)).
  { unfold Toy.test_engine, Toy.engine_of. by rewrite Hinit. }
  subst self.
  apply (Hrt (catalogue_of (Toy.test_engine (Toy.wrapper false)) [m])
             Toy.empty (λ _, 0) m).
  - apply toy_test_engine_ok.
  - apply wf_heap_empty.
  - unlet. eexists. split; [vm_compute; reflexivity|].
    repeat (constructor; [vm_compute; reflexivity|]). constructor.
  - vm_compute. repeat split; discriminate.
  - vm_compute. reflexivity.
Defined.

Lemma put_twice_same_handle_witness :
  let e := Toy.default_engine (Toy.wrapper true) in
  let m := Toy.s "ab,cd;ef,gh,ab,ab,ab;" in
  ∃ handle is_new σ1 σ2,
    put_content_and_check_if_new e m false Toy.empty = (Ok (handle, is_new), σ1) ∧
    put_content_and_check_if_new e m false σ1 = (Ok (handle, false), σ2) ∧
    (is_new = true ↔ kvs Toy.empty !! root_key e m = None).
Proof.
  intros e m.
  apply (put_twice_same_handle e (catalogue_of e [m]) Toy.empty (λ _, 0) m).
  - apply toy_default_engine_ok.
  - apply wf_heap_empty.
  - unlet. eexists. split; [vm_compute; reflexivity|].
    repeat (constructor; [vm_compute; reflexivity|]). constructor.
  - vm_compute. reflexivity.
Defined.

(** The claim C1 as worded fails for the leaf-padding wrapper: the engine
    unwraps every node without a length, so the padding of a short leaf is
    not stripped; with the length the wrapper returns the leaf.  This is so
    whatever the digest is taken of and whatever unwrap does without a
    length. *)
Lemma leaf_padding_breaks_round_trip :
  let m := Toy.s "ab" in
  let fails := λ cw : CryptoWrapper,
    __init__ 8 cw Toy.chunking (Some (RC.DatabaseReferenceCounter OwnDb))
      Toy.length_to_height_fn None = Ok (Toy.test_engine cw) ∧
    unwrap_value cw (wrap_value cw m 0 true).1 (wrap_value cw m 0 true).2 0 true (len m)
    = Ok (Some m) ∧
    ∃ handle σ',
      put_content (Toy.test_engine cw) m false Toy.empty = (Ok handle, σ') ∧
      get_content (Toy.test_engine cw) handle σ' ≠ (Ok m, σ') in
  fails (Toy.padding_wrapper 8 false false) ∧
  fails (Toy.padding_wrapper 8 false true) ∧
  fails (Toy.padding_wrapper 8 true false) ∧
  fails (Toy.padding_wrapper 8 true true).
Proof.
  intros m fails.
  assert (Hall : ∀ b1 b2, fails (Toy.padding_wrapper 8 b1 b2)).
  { intros b1 b2. unfold fails. split; [by destruct b1, b2|].
    split; [by destruct b1, b2|].
    exists (handle_of (Toy.test_engine (Toy.padding_wrapper 8 b1 b2)) m),
      (put_content (Toy.test_engine (Toy.padding_wrapper 8 b1 b2)) m false Toy.empty).2.
    split; [destruct b1, b2; vm_compute; reflexivity|].
    intros H. destruct b1, b2; vm_compute in H; discriminate H. }
  repeat split; apply Hall.
Qed.

(** The claim C7 as worded fails when the content is in the store already,
    and also for a content that is inserted for the first time while its
    root node is in the store as a node of another content: of two
    insertions in a row, the first reports [False] as well. *)
Lemma put_twice_first_not_new :
  let e := Toy.test_engine (Toy.wrapper false) in
  let big := Toy.s "ab,cd,ef,gh;" in
  let m := Toy.s "ab," in
  let σ := (put_content_and_check_if_new e big false Toy.empty).2 in
  (∃ handle σ1 σ2,
     put_content_and_check_if_new e big false σ = (Ok (handle, false), σ1) ∧
     put_content_and_check_if_new e big false σ1 = (Ok (handle, false), σ2)) ∧
  (∃ handle σ1 σ2,
     put_content_and_check_if_new e m false σ = (Ok (handle, false), σ1) ∧
     put_content_and_check_if_new e m false σ1 = (Ok (handle, false), σ2)) ∧
  ¬ (∃ handle σ1, put_content_and_check_if_new e big false σ = (Ok (handle, true), σ1)) ∧
  ¬ (∃ handle σ1, put_content_and_check_if_new e m false σ = (Ok (handle, true), σ1)).
Proof.
  intros e big m σ. split; [|split; [|split]].
  - set (σ1 := (put_content_and_check_if_new e big false σ).2).
    exists (handle_of e big), σ1, (put_content_and_check_if_new e big false σ1).2.
    split; vm_compute; reflexivity.
  - set (σ1 := (put_content_and_check_if_new e m false σ).2).
    exists (handle_of e m), σ1, (put_content_and_check_if_new e m false σ1).2.
    split; vm_compute; reflexivity.
  - intros (handle & σ1 & H). vm_compute in H. discriminate H.
  - intros (handle & σ1 & H). vm_compute in H. discriminate H.
Qed.


(** ** Deleting, on nodes and counts *)

Section DeleteAbs.

Context (self : SecCSLite) (Hok : engine_ok self) (other : db).
Context (U : gmap bytes (bytes * nat)).
Context (r : dbref) (Hdb : database_of (_reference_counter self) = Some r).

Local Abbreviation R := (_R self).
Local Abbreviation heap_of := (conc self other).
Local Abbreviation GI := (GInv self U).
Local Abbreviation cc := (children_cat self U).

Lemma frame_refl h A : frame U h A A.
Proof. split; [done|]. by intros k _. Qed.

Lemma frame_trans h A1 A2 A3 : frame U h A1 A2 → frame U h A2 A3 → frame U h A1 A3.
Proof.
  intros [Hs1 Hf1] [Hs2 Hf2]. split; [by etrans|].
  intros k Hk. destruct (Hf1 k Hk) as [<- <-]. by apply Hf2.
Qed.

Lemma GInv_X_ext A X X' O E :
  (∀ k, X k = X' k) → GI A X O E → GI A X' O E.
Proof.
  intros HX [H1 H2 H3 H4 H5 H6]. split; try done.
  intros k. by rewrite <- HX.
Qed.

Lemma live_nodes A A' E key : nodes A' = nodes A → live A' E key = live A E key.
Proof. intros Hn. unfold live. by rewrite Hn. Qed.

(** A stored node does not list itself. *)
Lemma not_own_child A X O E k :
  GI A X O E → is_Some (nodes A !! k) → occ k (cc k) = 0.
Proof.
  intros HI Hk. apply occ_zero. intros Hin.
  unfold children_cat in Hin.
  destruct (U !! k) as [[p [|h]]|] eqn:HU; try by apply not_elem_of_nil in Hin.
  destruct (inv_children _ _ _ _ _ _ HI k p h Hk HU) as (refs & Hsplit & Hf).
  rewrite Hsplit in Hin. rewrite Forall_forall in Hf.
  destruct (Hf k Hin) as (p' & HU' & _). rewrite HU in HU'.
  injection HU' as _ Hh. lia.
Qed.

(** A stored node starts being deleted: the child slots it holds become
    references of their own. *)
Lemma GInv_kill A X E k :
  GI A X ∅ E → k ∉ E → is_Some (nodes A !! k) →
  GI A (xadd X (cc k)) ∅ (E ∪ {[k]}).
Proof.
  intros HI HkE Hk.
  assert (HU : is_Some (U !! k)).
  { destruct Hk as [c Hc].
    destruct (inv_cat _ _ _ _ _ _ HI k c Hc) as (p & h & r0 & HU & _). by eexists. }
  destruct HI as [H1 H2 H3 H4 H5 H6]. split; try done.
  - intros k'. rewrite H3. unfold xadd.
    rewrite (inedges_add self U A A (E ∪ {[k]}) E k' k HU).
    + lia.
    + unfold live. apply bool_decide_eq_false. set_solver.
    + unfold live. apply bool_decide_eq_true. done.
    + intros key Hne. unfold live. apply bool_decide_ext. set_solver.
  - intros k' Hk'. apply H4. set_solver.
Qed.

(** One reference less to a key that stays, or that is under deletion. *)
Lemma GInv_dec A X E ref n :
  GI A (xadd X [ref]) ∅ E → counts A !! ref = Some n →
  ref ∈ E ∨ (n - 1)%Z ≠ 0%Z →
  GI (if (n - 1 =? 0)%Z then del_count ref A else set_count ref (n - 1) A) X ∅ E.
Proof.
  intros [H1 H2 H3 H4 H5 H6] Hn Hcase.
  assert (Hcnt : count A ref = n) by (unfold count; by rewrite Hn).
  pose proof (H5 ref n Hn) as Hpos.
  pose proof (H3 ref) as H3r. rewrite Hcnt in H3r. unfold xadd in H3r. simpl in H3r.
  rewrite decide_True in H3r by done.
  destruct (n - 1 =? 0)%Z eqn:Hz.
  - apply Z.eqb_eq in Hz. destruct Hcase as [HE|]; [|done].
    split; try done.
    + intros k'. rewrite count_del_count.
      rewrite (inedges_ext self U _ A E E k') by done.
      case_decide as Hd; [subst; lia|].
      rewrite H3. unfold xadd. simpl. rewrite decide_False by done. lia.
    + intros k' Hk'. simpl. rewrite count_del_count.
      rewrite decide_False by (intros ->; done). by apply H4.
    + intros k' n'. simpl. rewrite lookup_delete. case_decide; [done|]. apply H5.
    + intros k'. simpl. rewrite lookup_delete. case_decide.
      * intros [? ?]. done.
      * apply H6.
  - apply Z.eqb_neq in Hz. split; try done.
    + intros k'. rewrite count_set_count.
      rewrite (inedges_ext self U _ A E E k') by done.
      case_decide as Hd; [subst; lia|].
      rewrite H3. unfold xadd. simpl. rewrite decide_False by done. lia.
    + intros k' Hk'. simpl. rewrite count_set_count.
      case_decide as Hd; [|by apply H4]. subst k'.
      rewrite (H4 ref Hk'), Hcnt. split; intros _; left; lia.
    + intros k' n'. simpl. rewrite lookup_insert. case_decide.
      * intros [= <-]. lia.
      * apply H5.
    + intros k'. simpl. rewrite lookup_insert. case_decide.
      * intros _. subst. apply H6. by eexists.
      * apply H6.
Qed.

(** The payload of a node under deletion is removed. *)
Lemma GInv_del_dead A X E k :
  GI A X ∅ E → k ∈ E → GI (del_node k A) X ∅ E.
Proof.
  intros [H1 H2 H3 H4 H5 H6] HkE. split; try done.
  - intros k' c. simpl. rewrite lookup_delete. case_decide; [done|]. apply H1.
  - intros k' p h. simpl. rewrite lookup_delete. case_decide.
    + intros [? ?]. done.
    + apply H2.
  - intros k'. change (count (del_node k A) k') with (count A k').
    rewrite H3. f_equal. f_equal. apply inedges_ext. intros key _.
    unfold live. apply bool_decide_ext. simpl. rewrite lookup_delete.
    case_decide; [|done]. subst. split; intros [? ?]; [done|].
    destruct H as [? ?]. done.
  - intros k' Hk'. change (count (del_node k A) k') with (count A k').
    simpl. rewrite lookup_delete. rewrite decide_False by (intros ->; done).
    by apply H4.
Qed.

(** A node whose payload and count are gone is no longer under
    deletion. *)
Lemma GInv_buried A X E k :
  GI A X ∅ (E ∪ {[k]}) → nodes A !! k = None → counts A !! k = None →
  GI A X ∅ E.
Proof.
  intros [H1 H2 H3 H4 H5 H6] Hk Hc. split; try done.
  - intros k'. rewrite H3. f_equal. f_equal. apply inedges_ext. intros key _.
    unfold live. apply bool_decide_ext.
    destruct (decide (key = k)) as [->|Hne].
    + rewrite Hk. split; intros [[? ?] _]; done.
    + set_solver.
  - intros k' Hk'. destruct (decide (k' = k)) as [->|Hne].
    + rewrite Hk. unfold count. rewrite Hc. simpl. split.
      * intros [? ?]. done.
      * intros [?|Hin]; [lia|]. by apply not_elem_of_empty in Hin.
    + apply H4. set_solver.
Qed.

(** *** [_delete_chunk] and the loop over the children *)

Lemma delete_ref_of_chunk root_h h :
  delete_chunk_spec self other U root_h h → delete_ref_spec self other U root_h h.
Proof.
  intros Hchunk A X E ref l Hh HI Href HE.
  pose proof (GInv_keys_ok self Hok U _ _ _ _ HI) as HA.
  destruct Href as (p & HU & Hw).
  assert (Hrok : ref_ok self U root_h h ref) by (by exists p).
  assert (HrE : ref ∉ E).
  { intros Hin. destruct (HE ref Hin) as (p' & he & HU' & Hle).
    rewrite HU in HU'. injection HU' as _ <-. lia. }
  assert (Hc1 : (1 ≤ count A ref)%Z).
  { rewrite (inv_count _ _ _ _ _ _ HI). unfold xadd. simpl.
    rewrite decide_True by done. lia. }
  destruct (counts A !! ref) as [n|] eqn:Hn;
    [|unfold count in Hc1; rewrite Hn in Hc1; simpl in Hc1; lia].
  assert (Hcnt : count A ref = n) by (unfold count; by rewrite Hn).
  assert (Hpres : is_Some (nodes A !! ref)).
  { apply (inv_present _ _ _ _ _ _ HI ref HrE). left. done. }
  unfold _delete_content, bind.
  rewrite (dec_conc self Hok other A r ref n Hdb HA Hn).
  destruct (n - 1 =? 0)%Z eqn:Hz.
  - (* the last reference: the node goes *)
    assert (HI1 : GI (del_count ref A) (xadd X (cc ref)) ∅ (E ∪ {[ref]})).
    { pose proof (GInv_kill A _ E ref HI HrE Hpres) as HK.
      pose proof (GInv_dec A (xadd X (cc ref)) (E ∪ {[ref]}) ref n) as HD.
      rewrite Hz in HD. apply HD; [|done|left; set_solver].
      eapply GInv_X_ext; [|exact HK]. intros k'. unfold xadd. lia. }
    destruct (Hchunk (del_count ref A) X (E ∪ {[ref]}) ref Hh HI1)
      as (A' & Hrun & HI' & Hgone & Hsub & Hfr).
    + set_solver.
    + done.
    + done.
    + intros e He. apply elem_of_union in He as [He|He].
      * destruct (HE e He) as (p' & he & HU' & Hle). exists p', he. split; [done|lia].
      * apply elem_of_singleton in He as ->. exists p, h. done.
    + exists A'. split; [exact Hrun|]. split.
      * apply (GInv_buried A' X E ref HI' Hgone).
        destruct (Hfr ref) as [_ ->].
        -- intros p' hk HU'. rewrite HU in HU'. injection HU' as _ <-. done.
        -- simpl. by rewrite lookup_delete_eq.
      * split; [done|]. intros k' Hk'.
        assert (Hne : k' ≠ ref).
        { intros ->. specialize (Hk' p h HU). lia. }
        destruct (Hfr k') as [Hn' Hc'].
        { intros p' hk HU'. specialize (Hk' p' hk HU'). lia. }
        split; [by apply Hn'|]. rewrite Hc'. simpl. by rewrite lookup_delete_ne.
  - (* other references remain *)
    eexists. split; [reflexivity|]. split.
    + pose proof (GInv_dec A X E ref n HI Hn) as HD. rewrite Hz in HD.
      apply HD. right. by apply Z.eqb_neq.
    + split; [done|]. intros k' Hk'. split; [done|]. simpl.
      rewrite lookup_insert_ne; [done|]. intros ->. specialize (Hk' p h HU). lia.
Qed.

Lemma delete_refs_of_ref root_h h :
  delete_ref_spec self other U root_h h → delete_refs_spec self other U root_h h.
Proof.
  intros Href refs. induction refs as [|ref rest IH]; intros A X E Hh HI Hrefs HE.
  - exists A. split; [done|]. split; [|apply frame_refl].
    eapply GInv_X_ext; [|exact HI]. intros k. unfold xadd. simpl. lia.
  - inversion Hrefs as [|?? Hr Hrest]; subst.
    destruct (Href A (xadd X rest) E ref (-1)%Z) as (A1 & Hrun1 & HI1 & Hf1).
    + lia.
    + eapply GInv_X_ext; [|exact HI]. intros k. unfold xadd. simpl. lia.
    + by apply child_ok_ref_ok.
    + done.
    + destruct (IH A1 X E Hh HI1 Hrest HE) as (A' & Hrun & HI' & Hf').
      exists A'. split; [|split; [done|by eapply frame_trans]].
      cbn [for_each]. unfold bind at 1. rewrite Hrun1. exact Hrun.
Qed.

Lemma delete_chunk_zero root_h : delete_chunk_spec self other U root_h 0.
Proof.
  intros A X E k _ HI HkE [c Hc] (p & HU & _) HE.
  pose proof (GInv_keys_ok self Hok U _ _ _ _ HI) as HA.
  exists (del_node k A). split.
  { simpl. unfold bind, ret. by rewrite (db_delitem_conc self Hok other A k c). }
  split.
  { apply GInv_del_dead; [|done]. eapply GInv_X_ext; [|exact HI].
    intros k'. unfold xadd, children_cat. rewrite HU. simpl. lia. }
  split; [simpl; by rewrite lookup_delete_eq|].
  split; [apply delete_subseteq|].
  intros k' _. split; [|done]. intros Hne. simpl. by rewrite lookup_delete_ne.
Qed.

Lemma delete_chunk_succ root_h h :
  delete_refs_spec self other U root_h h → delete_chunk_spec self other U root_h (S h).
Proof.
  intros Hrefs A X E k Hh HI HkE [c Hc] (p & HU & Hw) HE.
  pose proof (GInv_keys_ok self Hok U _ _ _ _ HI) as HA.
  assert (Hlen : length k = R) by (apply (proj1 HA); by eexists).
  destruct (get_node_valid self Hok U A _ ∅ E k p (S h) c root_h HI Hc HU Hw)
    as (n & Hget & ->).
  destruct (inv_children _ _ _ _ _ _ HI k p h) as (refs & Hsplit & Hf);
    [by eexists|done|].
  assert (Hcat : cc k = refs) by (unfold children_cat; by rewrite HU, Hsplit).
  destruct (Hrefs (cc k) A X E) as (A1 & Hrun1 & HI1 & Hs1 & Hf1);
    [lia|done|by rewrite Hcat|done|].
  assert (Hk1 : nodes A1 !! k = Some c ∧ counts A1 !! k = counts A !! k).
  { destruct (Hf1 k) as [-> ->]; [|done].
    intros p' hk HU'. rewrite HU in HU'. injection HU' as _ <-. done. }
  pose proof (GInv_keys_ok self Hok U _ _ _ _ HI1) as HA1.
  exists (del_node k A1). split.
  { cbn [_delete_chunk]. unfold bind at 1. unfold bind at 1. unfold _get_node.
    rewrite (get_node_conc self Hok other A k (S h) root_h (-1) HA Hlen), Hget.
    cbn [Nat.ltb Nat.leb].
    change (for_each (cc k) _ (heap_of A)) with
      (for_each (cc k)
         (λ k_child, _delete_content self k_child h root_h (-1) false) (heap_of A)).
    rewrite Hrun1.
    by rewrite (db_delitem_conc self Hok other A1 k c HA1 (proj1 Hk1)). }
  split; [by apply GInv_del_dead|].
  split; [simpl; by rewrite lookup_delete_eq|].
  split; [etrans; [apply delete_subseteq|done]|].
  intros k' Hk'. destruct (Hf1 k' Hk') as [Hn' Hc']. split; [|done].
  intros Hne. simpl. by rewrite lookup_delete_ne.
Qed.

Lemma delete_chunk_abs root_h h : delete_chunk_spec self other U root_h h.
Proof.
  induction h as [|h IH]; [apply delete_chunk_zero|].
  by apply delete_chunk_succ, delete_refs_of_ref, delete_ref_of_chunk.
Qed.

Lemma delete_ref_abs root_h h : delete_ref_spec self other U root_h h.
Proof. apply delete_ref_of_chunk, delete_chunk_abs. Qed.

(** *** [delete_content] *)

(** With the default [ignore_rc=False]: one reference to the root less,
    and the invariant is kept. *)
Lemma delete_content_abs handle root l A X :
  unpack_content_reference R handle = Ok (root, l) →
  let h := _content_length_to_level self l in
  Inv self U A (xadd X [root]) → ref_ok self U h h root →
  ∃ A',
    delete_content self handle false (heap_of A) = (Ok tt, heap_of A') ∧
    Inv self U A' X ∧ nodes A' ⊆ nodes A.
Proof.
  intros Hun h HI Hrok.
  destruct (delete_ref_abs h h A X ∅ root l) as (A' & Hrun & HI' & Hs & _).
  - done.
  - done.
  - done.
  - intros e He. by apply not_elem_of_empty in He.
  - exists A'. split; [|done].
    unfold delete_content, bind, lift. rewrite Hun. exact Hrun.
Qed.

(** With [ignore_rc=True]: the root's payload goes, its count stays. *)
Lemma delete_content_ignore_rc_abs handle root l A X :
  unpack_content_reference R handle = Ok (root, l) →
  let h := _content_length_to_level self l in
  Inv self U A X → is_Some (nodes A !! root) → ref_ok self U h h root →
  ∃ A',
    delete_content self handle true (heap_of A) = (Ok tt, heap_of A') ∧
    GI A' X ∅ {[root]} ∧
    nodes A' !! root = None ∧ counts A' !! root = counts A !! root ∧
    nodes A' ⊆ nodes A ∧
    ∀ k', not_below U h k' → k' ≠ root → nodes A' !! k' = nodes A !! k'.
Proof.
  intros Hun h HI Hroot Hrok.
  pose proof Hrok as (p & HU & _).
  destruct (delete_chunk_abs h h A X {[root]} root)
    as (A' & Hrun & HI' & Hgone & Hs & Hfr).
  - done.
  - pose proof (GInv_kill A X ∅ root HI) as HK.
    replace (∅ ∪ {[root]} : gset bytes) with ({[root]} : gset bytes) in HK
      by set_solver.
    apply HK; [set_solver|done].
  - set_solver.
  - done.
  - done.
  - intros e He. apply elem_of_singleton in He as ->. by exists p, h.
  - exists A'. split.
    { unfold delete_content, bind, lift. rewrite Hun. exact Hrun. }
    split; [done|]. split; [done|]. split; [|split; [done|]].
    + apply (Hfr root). intros p' hk HU'. rewrite HU in HU'.
      injection HU' as _ <-. done.
    + intros k' Hk' Hne. by apply (Hfr k' Hk').
Qed.

End DeleteAbs.


(** ** The invariant determines nodes and counts *)

Lemma height_bound (U : gmap bytes (bytes * nat)) :
  ∃ b, ∀ k p h, U !! k = Some (p, h) → h < b.
Proof.
  induction U as [|i [pi hi] U Hi [b Hb]] using map_ind.
  - exists 0. intros k p h. by rewrite lookup_empty.
  - exists (S (max b hi)). intros k p h. rewrite lookup_insert. case_decide.
    + intros [= <- <-]. lia.
    + intros HU. specialize (Hb k p h HU). lia.
Qed.

Lemma parent_height self U A X k key p h :
  Inv self U A X → is_Some (nodes A !! key) → U !! k = Some (p, h) →
  0 < occ k (children_cat self U key) → ∃ pk, U !! key = Some (pk, S h).
Proof.
  intros HI Hkey HU Hocc. apply occ_pos in Hocc. unfold children_cat in Hocc.
  destruct (U !! key) as [[pk [|hk]]|] eqn:HUk; try by apply not_elem_of_nil in Hocc.
  destruct (inv_children _ _ _ _ _ _ HI key pk hk Hkey HUk) as (refs & Hsplit & Hf).
  rewrite Hsplit in Hocc. rewrite Forall_forall in Hf.
  destruct (Hf k Hocc) as (p' & HU' & _). rewrite HU in HU'.
  injection HU' as _ ->. by exists pk.
Qed.

Lemma present_iff_count self U A X k :
  Inv self U A X → (is_Some (nodes A !! k) ↔ (1 ≤ count A k)%Z).
Proof.
  intros HI. rewrite (inv_present _ _ _ _ _ _ HI k) by set_solver.
  split; [|by left]. intros [?|Hin]; [done|]. by apply not_elem_of_empty in Hin.
Qed.

Section Unique.

Context (self : SecCSLite) (Hok : engine_ok self).
Context (U : gmap bytes (bytes * nat)).
Context (A1 A2 : astate) (X : bytes → nat).
Context (HI1 : Inv self U A1 X) (HI2 : Inv self U A2 X).

Local Abbreviation cc := (children_cat self U).

Lemma live_agree b :
  (∀ k p h, U !! k = Some (p, h) → h < b) →
  ∀ n k p h, U !! k = Some (p, h) → b ≤ h + n →
    (is_Some (nodes A1 !! k) ↔ is_Some (nodes A2 !! k)).
Proof.
  intros Hb n. induction n as [|n IH]; intros k p h HU Hn.
  - specialize (Hb k p h HU). lia.
  - rewrite (present_iff_count self U A1 X k HI1), (present_iff_count self U A2 X k HI2).
    rewrite (inv_count _ _ _ _ _ _ HI1), (inv_count _ _ _ _ _ _ HI2).
    assert (Heq : inedges self U A1 ∅ k = inedges self U A2 ∅ k); [|by rewrite Heq].
    unfold inedges. apply msum_ext. intros key _.
    rewrite !live_empty.
    destruct (decide (0 < occ k (cc key))) as [Hocc|Hocc].
    2:{ assert (occ k (cc key) = 0) as -> by lia. by do 2 case_bool_decide. }
    do 2 case_bool_decide; try done.
    + destruct (parent_height self U A1 X k key p h HI1) as (pk & HUk); try done.
      assert (is_Some (nodes A2 !! key)); [|done].
      apply (IH key pk (S h) HUk); [lia|done].
    + destruct (parent_height self U A2 X k key p h HI2) as (pk & HUk); try done.
      assert (is_Some (nodes A1 !! key)); [|done].
      apply (IH key pk (S h) HUk); [lia|done].
Qed.

Lemma present_agree k : is_Some (nodes A1 !! k) ↔ is_Some (nodes A2 !! k).
Proof.
  destruct (U !! k) as [[p h]|] eqn:HU.
  - destruct (height_bound U) as [b Hb].
    apply (live_agree b Hb b k p h HU). lia.
  - split; intros [c Hc].
    + destruct (inv_cat _ _ _ _ _ _ HI1 k c Hc) as (p & h & r0 & HU' & _). congruence.
    + destruct (inv_cat _ _ _ _ _ _ HI2 k c Hc) as (p & h & r0 & HU' & _). congruence.
Qed.

Lemma count_agree k : count A1 k = count A2 k.
Proof.
  rewrite (inv_count _ _ _ _ _ _ HI1), (inv_count _ _ _ _ _ _ HI2).
  f_equal. f_equal. apply inedges_ext. intros key _. rewrite !live_empty.
  apply bool_decide_ext, present_agree.
Qed.

Lemma Inv_unique :
  (∀ k c1 c2, nodes A1 !! k = Some c1 → nodes A2 !! k = Some c2 → c1 = c2) →
  A1 = A2.
Proof.
  intros Hpay.
  assert (Hn : nodes A1 = nodes A2).
  { apply map_eq. intros k. pose proof (present_agree k) as Hp.
    destruct (nodes A1 !! k) as [c1|] eqn:E1, (nodes A2 !! k) as [c2|] eqn:E2.
    - f_equal. by eapply Hpay.
    - destruct (proj1 Hp) as [? ?]; [by eexists|done].
    - destruct (proj2 Hp) as [? ?]; [by eexists|done].
    - done. }
  assert (Hc : counts A1 = counts A2).
  { apply map_eq. intros k. pose proof (count_agree k) as Hp. unfold count in Hp.
    destruct (counts A1 !! k) as [n1|] eqn:E1, (counts A2 !! k) as [n2|] eqn:E2;
      simpl in Hp.
    - by subst.
    - pose proof (inv_pos _ _ _ _ _ _ HI1 k n1 E1). lia.
    - pose proof (inv_pos _ _ _ _ _ _ HI2 k n2 E2). lia.
    - done. }
  destruct A1, A2. simpl in *. by subst.
Qed.

End Unique.

(** ** Insertion followed by deletion *)

Section PutDelete.

Context (self : SecCSLite) (Hok : engine_ok self).
Context (U : gmap bytes (bytes * nat)).
Context (r : dbref) (Hdb : database_of (_reference_counter self) = Some r).

Local Abbreviation R := (_R self).
Local Abbreviation cc := (children_cat self U).

Lemma put_content_abs other m A X :
  Inv self U A X → covered self U m → (len m < 2 ^ 64)%Z →
  let h := _content_length_to_level self (len m) in
  let root := root_key self m in
  ∃ A',
    put_content self m false (conc self other A)
    = (Ok (handle_of self m), conc self other A') ∧
    Inv self U A' (xadd X [root]) ∧
    (∀ k c, nodes A !! k = Some c → nodes A' !! k = Some c) ∧
    is_Some (nodes A' !! root) ∧
    ref_ok self U h h root.
Proof.
  intros HI Hcov Hlen h root.
  destruct (put_abs self Hok other U m A X HI Hcov Hlen) as (A' & Hput & Hrest).
  exists A'. split; [|done]. unfold put_content, bind. by rewrite Hput.
Qed.

Lemma root_of_handle_of m :
  covered self U m → (len m < 2 ^ 64)%Z →
  root_of self (handle_of self m) = root_key self m.
Proof.
  intros Hcov Hlen. destruct (pack_handle_of self Hok U m Hcov Hlen) as [_ Hun].
  unfold unpack_content_reference in Hun. case_decide; [|done].
  by injection Hun as Hroot _.
Qed.

Lemma put_delete other m A X :
  Inv self U A X → covered self U m → (len m < 2 ^ 64)%Z →
  ∃ σ1,
    put_content self m false (conc self other A) = (Ok (handle_of self m), σ1) ∧
    delete_content self (handle_of self m) false σ1 = (Ok tt, conc self other A).
Proof.
  intros HI Hcov Hlen.
  destruct (put_content_abs other m A X HI Hcov Hlen)
    as (A1 & Hput & HI1 & Hmono & _ & Hrok).
  destruct (pack_handle_of self Hok U m Hcov Hlen) as [_ Hun].
  destruct (delete_content_abs self Hok other U r Hdb _ _ _ A1 X Hun HI1 Hrok)
    as (A2 & Hdel & HI2 & Hsub).
  exists (conc self other A1). split; [done|]. rewrite Hdel. do 2 f_equal.
  apply (Inv_unique self U A2 A X HI2 HI).
  intros k c1 c2 H2 H0.
  apply Hmono in H0. apply (lookup_weaken _ _ _ _ H2) in Hsub. congruence.
Qed.

(** With [ignore_rc=True] right after an insertion. *)
Lemma put_delete_ignore_rc other m A X :
  Inv self U A X → covered self U m → (len m < 2 ^ 64)%Z →
  let h := _content_length_to_level self (len m) in
  let root := root_key self m in
  ∃ A1 A2,
    put_content self m false (conc self other A)
    = (Ok (handle_of self m), conc self other A1) ∧
    delete_content self (handle_of self m) true (conc self other A1)
    = (Ok tt, conc self other A2) ∧
    Inv self U A1 (xadd X [root]) ∧
    GInv self U A2 (xadd X [root]) ∅ {[root]} ∧
    ref_ok self U h h root ∧
    is_Some (nodes A1 !! root) ∧ nodes A2 !! root = None ∧
    counts A2 !! root = counts A1 !! root ∧
    ∀ k', k' ∈ cc root →
      count A2 k' = (count A1 k' - Z.of_nat (occ k' (cc root)))%Z.
Proof.
  intros HI Hcov Hlen h root. subst root.
  destruct (put_content_abs other m A X HI Hcov Hlen)
    as (A1 & Hput & HI1 & Hmono & Hroot & Hrok).
  destruct (pack_handle_of self Hok U m Hcov Hlen) as [_ Hun].
  destruct (delete_content_ignore_rc_abs self Hok other U r Hdb _ _ _ A1 _
              Hun HI1 Hroot Hrok)
    as (A2 & Hdel & HI2 & Hgone & Hcnt & Hsub & Hfr).
  exists A1, A2. do 8 (split; [done|]).
  intros k' Hk'. clear Hput Hdel. subst h.
  set (h := _content_length_to_level self (len m)) in *. clearbody h.
  rewrite (inv_count _ _ _ _ _ _ HI1), (inv_count _ _ _ _ _ _ HI2).
  assert (Heq : inedges self U A2 {[(root_key self m)]} k' + occ k' (cc (root_key self m))
                = inedges self U A1 ∅ k'); [|lia].
  destruct Hrok as (p & HUr & _).
  assert (HUk : ∃ pk hk, U !! k' = Some (pk, hk) ∧ h = S hk).
  { unfold children_cat in Hk'. rewrite HUr in Hk'.
    destruct h as [|hk] eqn:Hh; [by apply not_elem_of_nil in Hk'|].
    destruct (inv_children _ _ _ _ _ _ HI1 (root_key self m) p hk Hroot HUr) as (refs & Hsplit & Hf).
    rewrite Hsplit in Hk'. rewrite Forall_forall in Hf.
    destruct (Hf k' Hk') as (pk & HUk & _). by exists pk, hk. }
  destruct HUk as (pk & hk & HUk & Hh).
  unfold inedges.
  pose proof (msum_update U
    (λ key, if live A1 ∅ key then occ k' (cc key) else 0)
    (λ key, if live A2 {[(root_key self m)]} key then occ k' (cc key) else 0)
    (root_key self m)) as Hupd.
  cbv beta in Hupd.
  assert (Hl1 : live A1 ∅ (root_key self m) = true).
  { rewrite live_empty. by apply bool_decide_eq_true. }
  assert (Hl2 : live A2 {[(root_key self m)]} (root_key self m) = false).
  { unfold live. apply bool_decide_eq_false. set_solver. }
  rewrite Hl1, Hl2 in Hupd.
  enough (Hall : ∀ key, key ≠ (root_key self m) →
            (if live A2 {[(root_key self m)]} key then occ k' (cc key) else 0)
            = (if live A1 ∅ key then occ k' (cc key) else 0)).
  { assert (HUs : is_Some (U !! (root_key self m))) by (by eexists).
    specialize (Hupd HUs Hall). lia. }
  intros key Hne.
  destruct (decide (0 < occ k' (cc key))) as [Hocc|Hocc].
  2:{ assert (occ k' (cc key) = 0) as -> by lia.
      by destruct (live A2 _ key), (live A1 _ key). }
  unfold live. rewrite (bool_decide_ext (is_Some (nodes A1 !! key) ∧ key ∉ (∅ : gset bytes))
                          (is_Some (nodes A1 !! key))) by set_solver.
  rewrite (bool_decide_ext (is_Some (nodes A2 !! key) ∧ key ∉ ({[(root_key self m)]} : gset bytes))
             (is_Some (nodes A2 !! key))) by set_solver.
  do 2 case_bool_decide; try done.
  - (* in the store after the deletion: it was there before *)
    destruct H as [c Hc]. apply (lookup_weaken _ _ _ _ Hc) in Hsub.
    destruct H0. by eexists.
  - (* a parent of a child of the (root_key self m) is as high as the (root_key self m): it stays *)
    destruct (parent_height self U A1 _ k' key pk hk HI1 H0 HUk Hocc)
      as (pkey & HUkey).
    destruct H. rewrite (Hfr key); [done| |done].
    intros p' hk' HU'. rewrite HUkey in HU'. injection HU' as _ <-.
    lia.
Qed.

(** Histories keep the invariant, the handles not yet deleted being the
    references from outside. *)
Lemma valid_handle_root handle root l :
  unpack_content_reference R handle = Ok (root, l) → root_of self handle = root.
Proof.
  unfold unpack_content_reference. case_decide; [|done]. by intros [= <- _].
Qed.

Lemma history_wf σ H :
  history self U σ H →
  ∃ other A, σ = conc self other A ∧ Inv self U A (handles self H) ∧
    Forall (valid_handle self U) H.
Proof.
  induction 1 as [|σ H m handle σ' Hh IH Hcov Hlen Hput
                  |σ H1 H2 handle σ' Hh IH Hdel].
  - exists ∅, (AState ∅ ∅). split; [|split; [|done]].
    + rewrite conc_empty. by destruct (database_of _) as [[]|].
    + eapply (GInv_X_ext self U); [|apply Inv_empty]. done.
  - destruct IH as (other & A & -> & HI & Hval).
    destruct (put_content_abs other m A _ HI Hcov Hlen)
      as (A' & Hput' & HI' & _ & _ & Hrok).
    rewrite Hput' in Hput. injection Hput as <- <-.
    destruct (pack_handle_of self Hok U m Hcov Hlen) as [_ Hun].
    exists other, A'. split; [done|]. split.
    + eapply (GInv_X_ext self U); [|exact HI']. intros k.
      unfold handles, xadd. csimpl. rewrite (root_of_handle_of m Hcov Hlen). lia.
    + constructor; [|done]. by exists (root_key self m), (len m).
  - destruct IH as (other & A & -> & HI & Hval).
    apply Forall_app in Hval as [Hval1 Hval2].
    inversion Hval2 as [|?? (root & l & Hun & Hrok) Hval2']; subst.
    destruct (delete_content_abs self Hok other U r Hdb handle root l A
                (handles self (H1 ++ H2))) as (A' & Hdel' & HI' & _); [done| |done|].
    + eapply (GInv_X_ext self U); [|exact HI]. intros k.
      unfold handles, xadd. rewrite !fmap_app. csimpl. rewrite !occ_app. simpl.
      rewrite (valid_handle_root handle root l Hun). lia.
    + rewrite Hdel' in Hdel. injection Hdel as <-.
      exists other, A'. split; [done|]. split; [done|].
      apply Forall_app. done.
Qed.

(** A node the engine reads back as a superchunk is in the store, and
    lists the children the catalogue has for it. *)
Lemma stored_superchunk other A X k h root_h refs :
  Inv self U A X → ref_ok self U root_h h k →
  get_node_db self (kvs (conc self other A)) k h root_h (-1) = Ok (Some (Super refs)) →
  ∃ p h', is_Some (nodes A !! k) ∧ h = S h' ∧ U !! k = Some (p, h) ∧ refs = cc k.
Proof.
  intros HI Hrok Hget. pose proof Hrok as (p & HU & Hw).
  pose proof (GInv_keys_ok self Hok U _ _ _ _ HI) as HA.
  rewrite (get_node_conc self Hok other A k h root_h (-1) HA
             (ref_ok_length self Hok U _ _ _ Hrok)) in Hget.
  destruct (nodes A !! k) as [c|] eqn:Hc.
  - destruct (get_node_valid self Hok U A X ∅ ∅ k p h c root_h HI Hc HU Hw)
      as (n & Hget' & ->).
    rewrite Hget' in Hget. destruct h as [|h']; [done|]. simpl in Hget.
    injection Hget as <-. exists p, h'. split; [by eexists|done].
  - unfold get_node_db in Hget. unfold node_part in Hget.
    rewrite lookup_fmap, Hc in Hget. done.
Qed.

Lemma present_iff_counted other A X k :
  Inv self U A X → length k = R →
  (is_Some (kvs (conc self other A) !! k)
   ↔ (1 ≤ ref_count self (conc self other A) k)%Z).
Proof.
  intros HI Hk. pose proof (GInv_keys_ok self Hok U _ _ _ _ HI) as HA.
  rewrite (kvs_conc self Hok other A k HA Hk), fmap_is_Some.
  rewrite (ref_count_conc self Hok other A r k Hdb HA Hk).
  apply (present_iff_count self U A X k HI).
Qed.

Lemma uncounted_absent other A X k :
  Inv self U A X → length k = R →
  ref_count self (conc self other A) k = 0%Z →
  kvs (conc self other A) !! k = None ∧
  get_db r (conc self other A) !! storage_key (_reference_counter self) k = None.
Proof.
  intros HI Hk. pose proof (GInv_keys_ok self Hok U _ _ _ _ HI) as HA.
  rewrite (kvs_conc self Hok other A k HA Hk).
  rewrite (ref_count_conc self Hok other A r k Hdb HA Hk).
  rewrite (counter_lookup_conc self Hok other A r k Hdb HA Hk).
  intros Hz. split.
  - destruct (nodes A !! k) eqn:Hn; [|done].
    assert (is_Some (nodes A !! k)) as Hs by (by eexists).
    apply (present_iff_count self U A X k HI) in Hs. lia.
  - unfold count in Hz. destruct (counts A !! k) as [n|] eqn:Hn; [|done].
    pose proof (inv_pos _ _ _ _ _ _ HI k n Hn). simpl in Hz. lia.
Qed.

Lemma children_counted other A X k h root_h refs :
  Inv self U A X → ref_ok self U root_h h k →
  get_node_db self (kvs (conc self other A)) k h root_h (-1) = Ok (Some (Super refs)) →
  Forall (λ k', (1 ≤ ref_count self (conc self other A) k')%Z) refs.
Proof.
  intros HI Hrok Hget. pose proof (GInv_keys_ok self Hok U _ _ _ _ HI) as HA.
  destruct (stored_superchunk other A X k h root_h refs HI Hrok Hget)
    as (p & h' & Hk & -> & HU & ->).
  pose proof (children_present self Hok U A X ∅ HI k p h' Hk HU) as Hch.
  eapply Forall_impl; [exact Hch|]. intros k' [Hck Hpres]. simpl.
  rewrite (ref_count_conc self Hok other A r k' Hdb HA
             (child_ok_length self Hok U _ _ Hck)).
  by apply (present_iff_count self U A X k' HI).
Qed.

Lemma catalogued_children_counted other A X k p h :
  Inv self U A X → length k = R →
  is_Some (kvs (conc self other A) !! k) → U !! k = Some (p, S h) →
  ∃ refs, split_refs R p = Ok refs ∧
    Forall (λ k', (1 ≤ ref_count self (conc self other A) k')%Z) refs.
Proof.
  intros HI Hlen Hk HU. pose proof (GInv_keys_ok self Hok U _ _ _ _ HI) as HA.
  rewrite (kvs_conc self Hok other A k HA Hlen), fmap_is_Some in Hk.
  destruct (inv_children _ _ _ _ _ _ HI k p h Hk HU) as (refs & Hsplit & _).
  exists refs. split; [done|].
  pose proof (children_present self Hok U A X ∅ HI k p h Hk HU) as Hch.
  unfold children_cat in Hch. rewrite HU, Hsplit in Hch.
  eapply Forall_impl; [exact Hch|]. intros k' [Hck Hpres]. simpl.
  rewrite (ref_count_conc self Hok other A r k' Hdb HA
             (child_ok_length self Hok U _ _ Hck)).
  by apply (present_iff_count self U A X k' HI).
Qed.

End PutDelete.


(** ** Deletion: the properties *)

(** C2, as the code has it: in a state the dictionaries are in after
    completed [put_content] and [delete_content] calls with the default
    [ignore_rc=False] (each deletion being given a handle not yet deleted),
    with a reference counter that counts, [h = put_content(m)] followed by
    [delete_content(h)] leaves both dictionaries exactly as they were. *)
Theorem put_then_delete_restores
    (self : SecCSLite) (U : gmap bytes (bytes * nat)) (σ : heap) (H : list bytes)
    (m : bytes) :
  engine_ok self →
  is_Some (database_of (_reference_counter self)) →
  history self U σ H →
  covered self U m → (len m < 2 ^ 64)%Z →
  ∃ handle σ1,
    put_content self m false σ = (Ok handle, σ1) ∧
    delete_content self handle false σ1 = (Ok tt, σ).
Proof.
  intros Hok [r Hdb] Hh Hcov Hlen.
  destruct (history_wf self Hok U r Hdb σ H Hh) as (other & A & -> & HI & _).
  destruct (put_delete self Hok U r Hdb other m A _ HI Hcov Hlen) as (σ1 & Hput & Hdel).
  by exists (handle_of self m), σ1.
Qed.

(** C4, as the code has it: in every state the dictionaries are in after
    completed [put_content] and [delete_content] calls with the default
    [ignore_rc=False], each deletion being given a handle that an insertion
    returned and that was not deleted since, a node with digest [k] is in
    the backend if and only if its reference count is at least 1, a count of
    0 means that both the node and its counter are absent, and every child
    digest listed in a stored superchunk (as [_get_node] reads it back, and
    as the payload of its digest lists them) has a count of at least 1. *)
Theorem counted_iff_present
    (self : SecCSLite) (U : gmap bytes (bytes * nat)) (σ : heap) (H : list bytes) :
  engine_ok self →
  is_Some (database_of (_reference_counter self)) →
  history self U σ H →
  (∀ k, length k = _R self →
     (is_Some (kvs σ !! k) ↔ (1 ≤ ref_count self σ k)%Z) ∧
     (ref_count self σ k = 0%Z →
        kvs σ !! k = None ∧
        ∀ r, database_of (_reference_counter self) = Some r →
             get_db r σ !! storage_key (_reference_counter self) k = None)) ∧
  (∀ k h root_h refs,
     ref_ok self U root_h h k →
     _get_node self k h root_h (-1) σ = (Ok (Some (Super refs)), σ) →
     Forall (λ k', (1 ≤ ref_count self σ k')%Z) refs) ∧
  (∀ k p h,
     length k = _R self → is_Some (kvs σ !! k) → U !! k = Some (p, S h) →
     ∃ refs, split_refs (_R self) p = Ok refs ∧
       Forall (λ k', (1 ≤ ref_count self σ k')%Z) refs).
Proof.
  intros Hok [r Hdb] Hh.
  destruct (history_wf self Hok U r Hdb σ H Hh) as (other & A & -> & HI & _).
  split; [|split].
  - intros k Hk. split.
    + by apply (present_iff_counted self Hok U r Hdb other A _ k HI).
    + intros Hz.
      destruct (uncounted_absent self Hok U r Hdb other A _ k HI Hk Hz) as [Hn Hc].
      split; [done|]. intros r' Hr'. rewrite Hdb in Hr'. by injection Hr' as <-.
  - intros k h root_h refs Hrok Hget. unfold _get_node in Hget.
    injection Hget as Hget.
    by apply (children_counted self Hok U r Hdb other A _ k h root_h refs HI Hrok).
  - intros k p h Hlen Hk HU.
    by apply (catalogued_children_counted self Hok U r Hdb other A _ k p h HI).
Qed.

(** C10.  [delete_content(handle, ignore_rc=True)] on the handle of a
    content stored with the default [ignore_rc=False] removes the root
    node's payload from the backend and leaves the root's reference counter
    as [put_content] set it; each child listed by the root has its count
    decremented once per slot that lists it, and stays in the backend
    exactly if its count is still at least 1. *)
Theorem delete_ignore_rc_keeps_root_counter
    (self : SecCSLite) (U : gmap bytes (bytes * nat)) (σ : heap) (X : bytes → nat)
    (m : bytes) :
  engine_ok self →
  is_Some (database_of (_reference_counter self)) →
  wf_heap self U σ X →
  covered self U m → (len m < 2 ^ 64)%Z →
  ∃ handle σ1 σ2,
    put_content self m false σ = (Ok handle, σ1) ∧
    delete_content self handle true σ1 = (Ok tt, σ2) ∧
    is_Some (kvs σ1 !! root_of self handle) ∧
    kvs σ2 !! root_of self handle = None ∧
    (1 ≤ ref_count self σ1 (root_of self handle))%Z ∧
    ref_count self σ2 (root_of self handle) = ref_count self σ1 (root_of self handle) ∧
    ∀ refs,
      _get_node self (root_of self handle)
        (_content_length_to_level self (len m))
        (_content_length_to_level self (len m)) (-1) σ1
      = (Ok (Some (Super refs)), σ1) →
      ∀ k', k' ∈ refs →
        ref_count self σ2 k' = (ref_count self σ1 k' - Z.of_nat (occ k' refs))%Z ∧
        (is_Some (kvs σ2 !! k') ↔ (1 ≤ ref_count self σ2 k')%Z).
Proof.
  intros Hok [r Hdb] (other & A & -> & HI) Hcov Hlen.
  destruct (put_delete_ignore_rc self Hok U r Hdb other m A X HI Hcov Hlen)
    as (A1 & A2 & Hput & Hdel & HI1 & HI2 & Hrok & Hroot & Hgone & Hcnt & Hch).
  exists (handle_of self m), (conc self other A1), (conc self other A2).
  rewrite (root_of_handle_of self Hok U m Hcov Hlen).
  pose proof (GInv_keys_ok self Hok U _ _ _ _ HI1) as HA1.
  pose proof (GInv_keys_ok self Hok U _ _ _ _ HI2) as HA2.
  pose proof (root_key_length self Hok U m Hcov) as Hlr.
  split; [done|]. split; [done|].
  rewrite !(kvs_conc self Hok other) by done.
  rewrite !(ref_count_conc self Hok other _ r) by done.
  split; [by rewrite fmap_is_Some|]. split; [by rewrite Hgone|].
  split.
  { rewrite (inv_count _ _ _ _ _ _ HI1). unfold xadd. simpl.
    rewrite decide_True by done. lia. }
  split; [unfold count; by rewrite Hcnt|].
  intros refs Hget k' Hk'. unfold _get_node in Hget. injection Hget as Hget.
  destruct (stored_superchunk self Hok U other A1 _ _ _ _ refs HI1 Hrok Hget)
    as (p & h' & _ & Hh & HU & ->).
  rewrite Hh in HU.
  pose proof (children_present self Hok U A1 _ ∅ HI1 _ p h' Hroot HU) as Hpres.
  rewrite Forall_forall in Hpres. destruct (Hpres k' Hk') as [Hck _].
  pose proof (child_ok_length self Hok U _ _ Hck) as Hlk.
  rewrite !(kvs_conc self Hok other) by done.
  rewrite !(ref_count_conc self Hok other _ r) by done.
  split; [by apply Hch|].
  rewrite fmap_is_Some.
  assert (Hne : k' ∉ ({[root_key self m]} : gset bytes)).
  { intros Hin. apply elem_of_singleton in Hin. subst k'.
    pose proof (not_own_child self U A1 _ ∅ ∅ _ HI1 Hroot) as Hz.
    apply occ_pos in Hk'. lia. }
  rewrite (inv_present _ _ _ _ _ _ HI2 k' Hne).
  split; [|by left]. intros [?|Hin]; [done|]. by apply not_elem_of_empty in Hin.
Qed.

(** ** The properties on small inputs *)

Lemma put_then_delete_restores_witness :
  let e := Toy.default_engine (Toy.wrapper false) in
  let a := Toy.s "ab,cd,ef,gh;ij,kl,mn;" in
  let m := Toy.s "ab,cd,ef,gh;" in
  let σ := (put_content e a false Toy.empty).2 in
  ∃ handle σ1,
    put_content e m false σ = (Ok handle, σ1) ∧
    delete_content e handle false σ1 = (Ok tt, σ).
Proof.
  intros e a m σ.
  apply (put_then_delete_restores e (catalogue_of e [a; m]) σ [handle_of e a] m).
  - apply toy_default_engine_ok.
  - by eexists.
  - apply (history_put e _ Toy.empty [] a (handle_of e a) σ).
    + apply history_empty.
    + unlet. eexists. split; [vm_compute; reflexivity|].
      repeat (constructor; [vm_compute; reflexivity|]). constructor.
    + vm_compute. reflexivity.
    + vm_compute. reflexivity.
  - unlet. eexists. split; [vm_compute; reflexivity|].
    repeat (constructor; [vm_compute; reflexivity|]). constructor.
  - vm_compute. reflexivity.
Defined.

Lemma counted_iff_present_witness :
  let e := Toy.default_engine (Toy.wrapper false) in
  let a := Toy.s "ab,cd,ef,gh;ij,kl,mn;" in
  let b := Toy.s "ab,cd,ef,gh;" in
  let U := catalogue_of e [a; b] in
  let σ1 := (put_content e a false Toy.empty).2 in
  let σ2 := (put_content e b false σ1).2 in
  let σ := (delete_content e (handle_of e a) false σ2).2 in
  (∀ k, length k = _R e →
     (is_Some (kvs σ !! k) ↔ (1 ≤ ref_count e σ k)%Z) ∧
     (ref_count e σ k = 0%Z →
        kvs σ !! k = None ∧
        ∀ r, database_of (_reference_counter e) = Some r →
             get_db r σ !! storage_key (_reference_counter e) k = None)) ∧
  (∀ k h root_h refs,
     ref_ok e U root_h h k →
     _get_node e k h root_h (-1) σ = (Ok (Some (Super refs)), σ) →
     Forall (λ k', (1 ≤ ref_count e σ k')%Z) refs) ∧
  (∀ k p h,
     length k = _R e → is_Some (kvs σ !! k) → U !! k = Some (p, S h) →
     ∃ refs, split_refs (_R e) p = Ok refs ∧
       Forall (λ k', (1 ≤ ref_count e σ k')%Z) refs).
Proof.
  intros e a b U σ1 σ2 σ.
  apply (counted_iff_present e U σ [handle_of e b]).
  - apply toy_default_engine_ok.
  - by eexists.
  - apply (history_delete e U σ2 [handle_of e b] [] (handle_of e a) σ).
    + apply (history_put e U σ1 [handle_of e a] b (handle_of e b) σ2).
      * apply (history_put e U Toy.empty [] a (handle_of e a) σ1).
        -- apply history_empty.
        -- unlet. eexists. split; [vm_compute; reflexivity|].
           repeat (constructor; [vm_compute; reflexivity|]). constructor.
        -- vm_compute. reflexivity.
        -- vm_compute. reflexivity.
      * unlet. eexists. split; [vm_compute; reflexivity|].
        repeat (constructor; [vm_compute; reflexivity|]). constructor.
      * vm_compute. reflexivity.
      * vm_compute. reflexivity.
    + vm_compute. reflexivity.
Defined.

Lemma delete_ignore_rc_keeps_root_counter_witness :
  let e := Toy.test_engine (Toy.wrapper true) in
  let m := Toy.s "ab,cd,ab,gh;" in
  ∃ handle σ1 σ2,
    put_content e m false Toy.empty = (Ok handle, σ1) ∧
    delete_content e handle true σ1 = (Ok tt, σ2) ∧
    is_Some (kvs σ1 !! root_of e handle) ∧
    kvs σ2 !! root_of e handle = None ∧
    (1 ≤ ref_count e σ1 (root_of e handle))%Z ∧
    ref_count e σ2 (root_of e handle) = ref_count e σ1 (root_of e handle) ∧
    ∀ refs,
      _get_node e (root_of e handle)
        (_content_length_to_level e (len m))
        (_content_length_to_level e (len m)) (-1) σ1
      = (Ok (Some (Super refs)), σ1) →
      ∀ k', k' ∈ refs →
        ref_count e σ2 k' = (ref_count e σ1 k' - Z.of_nat (occ k' refs))%Z ∧
        (is_Some (kvs σ2 !! k') ↔ (1 ≤ ref_count e σ2 k')%Z).
Proof.
  intros e m.
  apply (delete_ignore_rc_keeps_root_counter e (catalogue_of e [m]) Toy.empty (λ _, 0) m).
  - apply toy_test_engine_ok.
  - by eexists.
  - apply wf_heap_empty.
  - unlet. eexists. split; [vm_compute; reflexivity|].
    repeat (constructor; [vm_compute; reflexivity|]). constructor.
  - vm_compute. reflexivity.
Defined.

(** The claim C2 as worded fails in a state that holds a root stored with
    [ignore_rc=True]: inserting the same content and deleting it again
    removes the node that was there before. *)
Lemma put_then_delete_removes_uncounted_root :
  let e := Toy.default_engine (Toy.wrapper false) in
  let m := Toy.s "ab" in
  ∃ h0 Σ handle σ1 σ2,
    put_content e m true Toy.empty = (Ok h0, Σ) ∧
    put_content e m false Σ = (Ok handle, σ1) ∧
    delete_content e handle false σ1 = (Ok tt, σ2) ∧
    σ2 ≠ Σ.
Proof.
  intros e m. unlet.
  eexists _, _, _, _, _. split; [vm_compute; reflexivity|].
  split; [vm_compute; reflexivity|]. split; [vm_compute; reflexivity|].
  intros Heq.
  apply (f_equal (λ σ, kvs σ !! root_key (Toy.default_engine (Toy.wrapper false))
                               (Toy.s "ab"))) in Heq.
  vm_compute in Heq. discriminate Heq.
Qed.

(** The claim C4 as worded fails when a handle is deleted twice: the
    second [delete_content] completes and removes a node that a stored
    superchunk still lists. *)
Lemma double_delete_leaves_uncounted_child :
  let e := Toy.default_engine (Toy.wrapper false) in
  let a := Toy.s "ab,cd,ef,gh;ij,kl,mn;" in
  let b := Toy.s "ab,cd,ef,gh;" in
  let U := catalogue_of e [a; b] in
  ∃ σ refs k',
    any_history e U σ ∧
    is_Some (kvs σ !! root_key e a) ∧
    _get_node e (root_key e a) 2 2 (-1) σ = (Ok (Some (Super refs)), σ) ∧
    k' ∈ refs ∧
    ref_count e σ k' = 0%Z ∧ kvs σ !! k' = None.
Proof.
  intros e a b U.
  set (σ1 := (put_content e b false Toy.empty).2).
  set (σ2 := (put_content e a false σ1).2).
  set (σ3 := (delete_content e (handle_of e b) false σ2).2).
  set (σ4 := (delete_content e (handle_of e b) false σ3).2).
  exists σ4, [root_key e b; key_of e (Super [key_of e (Leaf (Toy.s "ij,")) 0 2;
                                          key_of e (Leaf (Toy.s "kl,")) 0 2;
                                          key_of e (Leaf (Toy.s "mn;")) 0 2]) 1 2],
    (root_key e b).
  split.
  { apply (any_history_delete e U σ3 (handle_of e b) σ4); [|vm_compute; reflexivity].
    apply (any_history_delete e U σ2 (handle_of e b) σ3); [|vm_compute; reflexivity].
    apply (any_history_put e U σ1 a (handle_of e a) σ2).
    - apply (any_history_put e U Toy.empty b (handle_of e b) σ1).
      + apply any_history_empty.
      + unlet. eexists. split; [vm_compute; reflexivity|].
        repeat (constructor; [vm_compute; reflexivity|]). constructor.
      + vm_compute. reflexivity.
      + vm_compute. reflexivity.
    - unlet. eexists. split; [vm_compute; reflexivity|].
      repeat (constructor; [vm_compute; reflexivity|]). constructor.
    - vm_compute. reflexivity.
    - vm_compute. reflexivity. }
  split; [vm_compute; by eexists|].
  split; [vm_compute; reflexivity|].
  split; [apply list_elem_of_here|].
  split; vm_compute; reflexivity.
Qed.


(** * Further properties of the code *)

(** ** The reference counters of [rc.py] *)











(** ** Construction and the level schedule *)




(** ** Content references *)


(** ** Nodes in the backend *)

Section Nodes.

Context (self : SecCSLite) (Hok : engine_ok self).





End Nodes.



(** ** Single-chunk contents *)






(** ** The handle of a content *)

Section Handles.

Context (self : SecCSLite).







End Handles.



(** ** Histories of insertions and deletions *)



Section Histories.

Context (self : SecCSLite) (Hok : engine_ok self).
Context (U : gmap bytes (bytes * nat)).
Context (r : dbref) (Hdb : database_of (_reference_counter self) = Some r).

Local Abbreviation R := (_R self).





End Histories.








(** ** Histories on small inputs *)









